(** * MathEX expression language: a shallow embedding of [expression.c]

    The development follows the C source function by function:
    character classes, the binary32 value type and its integer view,
    the operator table, the number reader, the variable list, the
    recursive evaluator [expr_eval], the tokenizer [expr_next_token]
    and the shunting-yard compiler [expr_create].

    Conventions of the model.
    - A C buffer [(s, len)] is a [string] holding its [len] bytes.  The
      loops of the source read [s[i]] once more after [i] reached [len],
      but test [i < len] before using the byte, so that byte never
      influences a result and is not modelled.
    - Lengths and indices are [nat]: inputs are assumed shorter than
      2^31 bytes, so no [unsigned int]/[int] conversion wraps.
    - [float] is IEEE 754 binary32 ([spec_float] at precision 24 and
      maximal exponent 128), every operation rounded to binary32 (no
      excess precision).
    - Undefined behaviour of C (an [int] conversion or a shift out of
      range, a read through a dangling variable handle, a missing child)
      is the result [None] of the evaluator.
    - C leaves the evaluation order of the two operands of an arithmetic
      operator unspecified; the model evaluates the left one first.
    - Allocation never fails.
    - A cell's name is the C string at [v->name], so the names of a
      list of cells hold no zero byte; a buffer [(s, len)] may hold one,
      and [expr_var] then names the new cell by the bytes before it. *)

From Stdlib Require Import ZArith List String Ascii Bool Lia.
From Stdlib Require Import Floats.SpecFloat.
Import ListNotations.

#[local] Set Warnings "-register-all".

Local Open Scope Z_scope.

(** ** Character classes ([ctype.h], "C" locale) *)

Module Chr.

Definition code (c : ascii) : Z := Z.of_N (N_of_ascii c).

Definition newline : ascii := ascii_of_nat 10.

(** [isspace]: space, and the controls \t \n \v \f \r. *)
Definition isspace (c : ascii) : bool :=
  (code c =? 32) || ((9 <=? code c) && (code c <=? 13)).

Definition isdigit (c : ascii) : bool :=
  (code "0" <=? code c) && (code c <=? code "9").

(** [#define isfirstvarchr(c)
      (((unsigned char)c >= '@' && c != '^' && c != '|') || c == '$')] *)
Definition isfirstvarchr (c : ascii) : bool :=
  ((code "@" <=? code c) && negb (Ascii.eqb c "^") && negb (Ascii.eqb c "|"))
  || Ascii.eqb c "$".

(** [#define isvarchr(c)
      (((unsigned char)c >= '@' && c != '^' && c != '|') || c == '$'
          || c == '#' || (c >= '0' && c <= '9'))] *)
Definition isvarchr (c : ascii) : bool :=
  ((code "@" <=? code c) && negb (Ascii.eqb c "^") && negb (Ascii.eqb c "|"))
  || Ascii.eqb c "$" || Ascii.eqb c "#"
  || ((code "0" <=? code c) && (code c <=? code "9")).

End Chr.

(** ** The value type: binary32 *)

Module F32.

Definition mant_bits : Z := 24.
Definition exp_max : Z := 128.

Definition float : Type := spec_float.

Definition nan : float := S754_nan.
Definition zero : float := S754_zero false.

(** Conversion [int -> float] (round to nearest even). *)
Definition of_int (z : Z) : float :=
  binary_normalize mant_bits exp_max z 0 false.

Definition one : float := of_int 1.

Definition add : float -> float -> float := SFadd mant_bits exp_max.
Definition sub : float -> float -> float := SFsub mant_bits exp_max.
Definition mul : float -> float -> float := SFmul mant_bits exp_max.
Definition div : float -> float -> float := SFdiv mant_bits exp_max.
Definition neg : float -> float := SFopp.

(** The C comparisons on floats; each is false on NaN operands,
    except [!=] which is then true. *)
Definition eq (x y : float) : bool := SFeqb x y.
Definition ne (x y : float) : bool := negb (SFeqb x y).
Definition lt (x y : float) : bool := SFltb x y.
Definition le (x y : float) : bool := SFleb x y.
Definition gt (x y : float) : bool := SFltb y x.
Definition ge (x y : float) : bool := SFleb y x.

Definition isnan (x : float) : bool :=
  match x with S754_nan => true | _ => false end.

(** [isinf] as glibc defines it for C ([__builtin_isinf_sign]):
    1 on +infinity, -1 on -infinity, 0 otherwise.  [to_int] multiplies
    [INT_MAX] by this value. *)
Definition isinf (x : float) : Z :=
  match x with
  | S754_infinity false => 1
  | S754_infinity true => -1
  | _ => 0
  end.

(** The integral part of a value, rounded toward zero (0 on the
    values that have none). *)
Definition trunc (x : float) : Z :=
  match x with
  | S754_finite s m e =>
      cond_Zopp s
        (match e with
         | Zneg p => Z.shiftr (Zpos m) (Zpos p)
         | _ => Z.shiftl (Zpos m) e
         end)
  | _ => 0
  end.

(** An [int] result of [!], of a comparison: 0 or 1, widened. *)
Definition of_bool (b : bool) : float := of_int (Z.b2z b).

End F32.

Import F32.

(** ** The 32-bit [int] view *)

Definition INT_MAX : Z := 2147483647.
Definition INT_MIN : Z := -2147483648.

Definition in_int (z : Z) : bool := (INT_MIN <=? z) && (z <=? INT_MAX).

(** [(int)x]: undefined when the integral part is not an [int]. *)
Definition int_of_float (x : float) : option Z :=
  if in_int (trunc x) then Some (trunc x) else None.

(** [static int to_int(float x)] *)
Definition to_int (x : float) : option Z :=
  if isnan x then Some 0
  else if negb (isinf x =? 0) then Some (INT_MAX * isinf x)
  else int_of_float x.

(** [a << b] on [int]: defined for a count in 0..31, a non-negative
    left operand and a representable result. *)
Definition int_shl (a b : Z) : option Z :=
  if (0 <=? b) && (b <? 32) && (0 <=? a) && in_int (Z.shiftl a b)
  then Some (Z.shiftl a b) else None.

(** [a >> b] on [int]: defined for a count in 0..31; on a negative left
    operand the result is implementation-defined, and gcc and clang
    shift arithmetically. *)
Definition int_shr (a b : Z) : option Z :=
  if (0 <=? b) && (b <? 32) then Some (Z.shiftr a b) else None.

(** ** Expression data types *)

Inductive expr_type : Type :=
| OP_UNKNOWN
| OP_UNARY_MINUS | OP_UNARY_LOGICAL_NOT | OP_UNARY_BITWISE_NOT
| OP_POWER | OP_DIVIDE | OP_MULTIPLY | OP_REMAINDER
| OP_PLUS | OP_MINUS
| OP_SHL | OP_SHR
| OP_LT | OP_LE | OP_GT | OP_GE | OP_EQ | OP_NE
| OP_BITWISE_AND | OP_BITWISE_OR | OP_BITWISE_XOR
| OP_LOGICAL_AND | OP_LOGICAL_OR
| OP_ASSIGN | OP_COMMA
| OP_CONST | OP_VAR | OP_FUNC.

(** The value of an enumerator. *)
Definition expr_type_index (t : expr_type) : nat :=
  match t with
  | OP_UNKNOWN => 0
  | OP_UNARY_MINUS => 1 | OP_UNARY_LOGICAL_NOT => 2
  | OP_UNARY_BITWISE_NOT => 3
  | OP_POWER => 4 | OP_DIVIDE => 5 | OP_MULTIPLY => 6 | OP_REMAINDER => 7
  | OP_PLUS => 8 | OP_MINUS => 9
  | OP_SHL => 10 | OP_SHR => 11
  | OP_LT => 12 | OP_LE => 13 | OP_GT => 14 | OP_GE => 15
  | OP_EQ => 16 | OP_NE => 17
  | OP_BITWISE_AND => 18 | OP_BITWISE_OR => 19 | OP_BITWISE_XOR => 20
  | OP_LOGICAL_AND => 21 | OP_LOGICAL_OR => 22
  | OP_ASSIGN => 23 | OP_COMMA => 24
  | OP_CONST => 25 | OP_VAR => 26 | OP_FUNC => 27
  end%nat.

Definition expr_type_eqb (a b : expr_type) : bool :=
  Nat.eqb (expr_type_index a) (expr_type_index b).

(** [static int prec[]] *)
Definition prec_table : list Z :=
  [ 0; 1; 1; 1; 2; 2; 2; 2; 3; 3; 4; 4; 5; 5; 5; 5; 5; 5; 6;
    7; 8; 9; 10; 11; 12; 0; 0; 0 ].

Definition prec (t : expr_type) : Z := nth (expr_type_index t) prec_table 0.

Definition expr_is_unary (op : expr_type) : bool :=
  expr_type_eqb op OP_UNARY_MINUS || expr_type_eqb op OP_UNARY_LOGICAL_NOT
  || expr_type_eqb op OP_UNARY_BITWISE_NOT.

Definition expr_is_binary (op : expr_type) : bool :=
  negb (expr_is_unary op) && negb (expr_type_eqb op OP_CONST)
  && negb (expr_type_eqb op OP_VAR) && negb (expr_type_eqb op OP_FUNC)
  && negb (expr_type_eqb op OP_UNKNOWN).

(** [expr_prec(a, b)]: must the operator [b] on top of the stack be
    bound before [a] is pushed? *)
Definition expr_prec (a b : expr_type) : bool :=
  let left := expr_is_binary a && negb (expr_type_eqb a OP_ASSIGN)
              && negb (expr_type_eqb a OP_POWER)
              && negb (expr_type_eqb a OP_COMMA) in
  (left && (prec b <=? prec a)) || (prec b <? prec a).

(** [OPS[]] *)
Definition OPS : list (string * expr_type) :=
  [ ("-u", OP_UNARY_MINUS); ("!u", OP_UNARY_LOGICAL_NOT);
    ("^u", OP_UNARY_BITWISE_NOT); ("**", OP_POWER); ("*", OP_MULTIPLY);
    ("/", OP_DIVIDE); ("%", OP_REMAINDER); ("+", OP_PLUS);
    ("-", OP_MINUS); ("<<", OP_SHL); (">>", OP_SHR); ("<", OP_LT);
    ("<=", OP_LE); (">", OP_GT); (">=", OP_GE); ("==", OP_EQ);
    ("!=", OP_NE); ("&", OP_BITWISE_AND); ("|", OP_BITWISE_OR);
    ("^", OP_BITWISE_XOR); ("&&", OP_LOGICAL_AND); ("||", OP_LOGICAL_OR);
    ("=", OP_ASSIGN); (",", OP_COMMA);
    ("-", OP_UNARY_MINUS); ("!", OP_UNARY_LOGICAL_NOT);
    ("^", OP_UNARY_BITWISE_NOT) ]%string.

(** [expr_op(s, len, unary)]: the first entry of [OPS] spelled like the
    [len] bytes at [s] and, unless [unary] is -1, of that arity. *)
Fixpoint expr_op_from (ops : list (string * expr_type)) (s : string)
    (unary : Z) : expr_type :=
  match ops with
  | [] => OP_UNKNOWN
  | (name, op) :: rest =>
      if String.eqb name s
         && ((unary =? -1) || (Z.b2z (expr_is_unary op) =? unary))
      then op
      else expr_op_from rest s unary
  end.

Definition expr_op (s : string) (unary : Z) : expr_type :=
  expr_op_from OPS s unary.

(** ** Reading a number: [expr_parse_number] *)

(** The [for] loop; [None] is the early [return NAN]. *)
Fixpoint parse_number_loop (s : string) (num : float) (frac digits : nat)
    : option (float * nat * nat) :=
  match s with
  | EmptyString => Some (num, frac, digits)
  | String c rest =>
      if Ascii.eqb c "." && Nat.eqb frac 0
      then parse_number_loop rest num (S frac) digits
      else if Chr.isdigit c
      then parse_number_loop rest
             (add (mul num (of_int 10)) (of_int (Chr.code c - Chr.code "0")))
             (if Nat.ltb 0 frac then S frac else frac) (S digits)
      else None
  end.

(** [while (frac > 1) { num = num / 10; frac--; }] *)
Fixpoint scale_down (frac : nat) (num : float) : float :=
  match frac with
  | S (S _ as k) => scale_down k (div num (of_int 10))
  | _ => num
  end.

Definition expr_parse_number (s : string) : float :=
  match parse_number_loop s zero 0 0 with
  | None => nan
  | Some (num, frac, digits) =>
      if Nat.ltb 0 digits then scale_down frac num else nan
  end.

(** ** Variables *)

(** A handle is the address of a variable's [value] field. *)
Definition handle : Type := nat.

(** [struct expr_var]: a cell of the linked list, with the address the
    allocator gave it.  [var_name] is the C string at [v->name], the
    bytes before its terminating zero byte. *)
Record expr_var_cell : Type := mk_var {
  var_addr : handle;
  var_name : string;
  var_value : float
}.

(** [struct expr_var_list]: the cells from [head] on, following [next]. *)
Definition expr_var_list : Type := list expr_var_cell.

(** The C string at the start of a buffer: its bytes up to the first
    zero byte.  This is what [strncpy(v->name, s, len)] and
    [v->name[len] = 0] leave at [v->name]. *)
Fixpoint c_str (s : string) : string :=
  match s with
  | EmptyString => EmptyString
  | String c rest =>
      if Ascii.eqb c Ascii.zero then EmptyString else String c (c_str rest)
  end.

(** The loop of [expr_var]: the first cell named [s].  The test
    [strlen(v->name) == len && strncmp(v->name, s, len) == 0] holds
    when the [len] bytes of the buffer are the bytes of the C string
    [v->name]. *)
Fixpoint var_find (vars : expr_var_list) (s : string) : option handle :=
  match vars with
  | [] => None
  | v :: rest =>
      if String.eqb (var_name v) s then Some (var_addr v) else var_find rest s
  end.

(** [calloc] in [expr_var]: an address no cell of the list has. *)
Definition var_fresh (vars : expr_var_list) : handle :=
  S (fold_right (fun v m => Nat.max (var_addr v) m) 0%nat vars).

(** [expr_var(vars, s, len)]: the handle found or created ([None] is
    the [NULL] result), and the list afterwards.  A new cell is named
    by the buffer cut at its first zero byte. *)
Definition expr_var (vars : expr_var_list) (s : string)
    : option handle * expr_var_list :=
  match s with
  | EmptyString => (None, vars)
  | String c _ =>
      if negb (Chr.isfirstvarchr c) then (None, vars)
      else match var_find vars s with
           | Some h => (Some h, vars)
           | None =>
               let h := var_fresh vars in
               (Some h, mk_var h (c_str s) zero :: vars)
           end
  end.

(** [*h]: reading through a handle; [None] when no cell lives there. *)
Fixpoint var_read (vars : expr_var_list) (h : handle) : option float :=
  match vars with
  | [] => None
  | v :: rest =>
      if Nat.eqb (var_addr v) h then Some (var_value v) else var_read rest h
  end.

(** [*h = n]: writing through a handle. *)
Fixpoint var_write (vars : expr_var_list) (h : handle) (n : float)
    : option expr_var_list :=
  match vars with
  | [] => None
  | v :: rest =>
      if Nat.eqb (var_addr v) h
      then Some (mk_var (var_addr v) (var_name v) n :: rest)
      else option_map (cons v) (var_write rest h n)
  end.

(** ** Functions and expression trees *)

(** [struct expr_func]: the descriptor of a host function.  The callable
    itself is host code; [func_id] stands for the pair of function
    pointers [f] and [cleanup]. *)
Record expr_func_desc : Type := mk_func {
  func_name : string;
  func_id : nat;
  func_ctxsz : nat
}.

(** [struct expr]: the tag [type] and the member of the union [param]
    it selects.  [Op] carries the tag of an operator node and its
    children [param.op.args]; a context is the address of its block. *)
Inductive expr : Type :=
| Op (type : expr_type) (args : list expr)
| Const (value : float)
| Var (h : handle)
| Func (f : expr_func_desc) (args : list expr) (context : option nat).

(** [e->type] *)
Definition expr_tag (e : expr) : expr_type :=
  match e with
  | Op t _ => t
  | Const _ => OP_CONST
  | Var _ => OP_VAR
  | Func _ _ _ => OP_FUNC
  end.

(** ** The evaluator *)

Section Eval.

(** The host: its state (function contexts, anything a callable
    touches), the callables, and the two functions of [math.h]. *)
Variable world : Type.

Record state : Type := mk_state {
  st_vars : expr_var_list;
  st_world : world
}.

(** A computation that reads and writes the state, or is undefined. *)
Definition M (A : Type) : Type := state -> option (A * state).

Definition ret {A} (a : A) : M A := fun st => Some (a, st).

Definition undefined {A} : M A := fun _ => None.

Definition bind {A B} (m : M A) (k : A -> M B) : M B :=
  fun st => match m st with
            | Some (a, st') => k a st'
            | None => None
            end.

Definition lift {A} (o : option A) : M A :=
  fun st => option_map (fun a => (a, st)) o.

Definition load (h : handle) : M float :=
  fun st => option_map (fun v => (v, st)) (var_read (st_vars st) h).

Definition store (h : handle) (n : float) : M unit :=
  fun st => option_map (fun vs => (tt, mk_state vs (st_world st)))
              (var_write (st_vars st) h n).

Local Notation "x <- m ;; k" := (bind m (fun x => k))
  (at level 61, m at next level, right associativity).

Variable powf : float -> float -> float.
Variable fmodf : float -> float -> float.
Variable call : expr_func_desc -> list expr -> option nat -> M float.

(** An arithmetic operator on both children. *)
Definition float_op (f : float -> float -> float) (a b : M float)
    : M float :=
  x <- a ;; y <- b ;; ret (f x y).

(** A comparison: the [int] 0 or 1, returned as [float]. *)
Definition compare_op (f : float -> float -> bool) (a b : M float)
    : M float :=
  x <- a ;; y <- b ;; ret (of_bool (f x y)).

(** An operator on the [int] views of both children. *)
Definition int_op (f : Z -> Z -> option Z) (a b : M float) : M float :=
  x <- a ;; i <- lift (to_int x) ;;
  y <- b ;; j <- lift (to_int y) ;;
  r <- lift (f i j) ;; ret (of_int r).

(** [float expr_eval(struct expr *e)] *)
Fixpoint expr_eval (e : expr) : M float :=
  match e with
  | Op type args =>
      let arg0 : M float :=
        match args with a :: _ => expr_eval a | _ => undefined end in
      let arg1 : M float :=
        match args with _ :: b :: _ => expr_eval b | _ => undefined end in
      match type with
      | OP_UNARY_MINUS => x <- arg0 ;; ret (neg x)
      | OP_UNARY_LOGICAL_NOT => x <- arg0 ;; ret (of_bool (eq x zero))
      | OP_UNARY_BITWISE_NOT =>
          x <- arg0 ;; i <- lift (to_int x) ;; ret (of_int (Z.lnot i))
      | OP_POWER => float_op powf arg0 arg1
      | OP_MULTIPLY => float_op mul arg0 arg1
      | OP_DIVIDE => float_op div arg0 arg1
      | OP_REMAINDER => float_op fmodf arg0 arg1
      | OP_PLUS => float_op add arg0 arg1
      | OP_MINUS => float_op sub arg0 arg1
      | OP_SHL => int_op int_shl arg0 arg1
      | OP_SHR => int_op int_shr arg0 arg1
      | OP_LT => compare_op lt arg0 arg1
      | OP_LE => compare_op le arg0 arg1
      | OP_GT => compare_op gt arg0 arg1
      | OP_GE => compare_op ge arg0 arg1
      | OP_EQ => compare_op eq arg0 arg1
      | OP_NE => compare_op ne arg0 arg1
      | OP_BITWISE_AND => int_op (fun i j => Some (Z.land i j)) arg0 arg1
      | OP_BITWISE_OR => int_op (fun i j => Some (Z.lor i j)) arg0 arg1
      | OP_BITWISE_XOR => int_op (fun i j => Some (Z.lxor i j)) arg0 arg1
      | OP_LOGICAL_AND =>
          n <- arg0 ;;
          if ne n zero
          then n <- arg1 ;; if ne n zero then ret n else ret zero
          else ret zero
      | OP_LOGICAL_OR =>
          n <- arg0 ;;
          if ne n zero && negb (isnan n)
          then ret n
          else n <- arg1 ;; if ne n zero then ret n else ret zero
      | OP_ASSIGN =>
          n <- arg1 ;;
          match args with
          | Var h :: _ => _ <- store h n ;; ret n
          | Op OP_VAR _ :: _ | [] => undefined
          | _ :: _ => ret n
          end
      | OP_COMMA => _ <- arg0 ;; arg1
      | OP_UNKNOWN => ret nan
      | OP_CONST | OP_VAR | OP_FUNC => undefined
      end
  | Const value => ret value
  | Var h => load h
  | Func f args context => call f args context
  end.

End Eval.

Arguments mk_state {world} _ _.
Arguments st_vars {world} _.
Arguments st_world {world} _.

(** ** The tokenizer *)

(** Modelled from the spec: [expression.h] is not among the sources;
    the flags word carries one bit per name (section 4.D lists them),
    and the initial flags allow a number, a word and an open paren.
    The source tests [EXPR_TOP] where the spec writes TOP_LEVEL. *)
Definition EXPR_TOP : Z := 1.
Definition EXPR_TOPEN : Z := 2.
Definition EXPR_TCLOSE : Z := 4.
Definition EXPR_TNUMBER : Z := 8.
Definition EXPR_TWORD : Z := 16.
Definition EXPR_UNARY : Z := 32.
Definition EXPR_COMMA : Z := 64.
Definition EXPR_TDEFAULT : Z :=
  Z.lor EXPR_TOPEN (Z.lor EXPR_TNUMBER EXPR_TWORD).

(** [(flags & bit) != 0] *)
Definition has_flag (flags bit : Z) : bool := negb (Z.land flags bit =? 0).

(** [flags & (~bit)] *)
Definition clear_flag (flags bit : Z) : Z := Z.land flags (Z.lnot bit).

Definition flag_or (bits : list Z) : Z := fold_right Z.lor 0 bits.

(** [for (; i < len && p(s[i]); i++);] from [i = 0]: the length of the
    longest prefix of [s] whose bytes all satisfy [p]. *)
Fixpoint span (p : ascii -> bool) (s : string) : nat :=
  match s with
  | String c rest => if p c then S (span p rest) else 0%nat
  | EmptyString => 0%nat
  end.

(** The first [n] bytes of a buffer, and the buffer past them. *)
Fixpoint take (n : nat) (s : string) : string :=
  match n, s with
  | S k, String c rest => String c (take k rest)
  | _, _ => EmptyString
  end.

Fixpoint drop (n : nat) (s : string) : string :=
  match n, s with
  | S k, String _ rest => drop k rest
  | _, _ => s
  end.

(** [s[0] == c] on a buffer that is not empty. *)
Definition starts_with (c : ascii) (s : string) : bool :=
  match s with
  | String d _ => Ascii.eqb d c
  | EmptyString => false
  end.

(** The bytes that end an operator lexeme. *)
Definition ends_operator (c : ascii) : bool :=
  Chr.isvarchr c || Chr.isspace c || Ascii.eqb c "(" || Ascii.eqb c ")".

(** The [while] loop of the operator case: [rest] is the buffer from
    index [i] on; the result is the final [i] and [found]. *)
Fixpoint operator_scan (s rest : string) (i : nat) (found : bool)
    : nat * bool :=
  match rest with
  | EmptyString => (i, found)
  | String c rest' =>
      if ends_operator c then (i, found)
      else if negb (expr_type_eqb (expr_op (take (S i) s) 0) OP_UNKNOWN)
      then operator_scan s rest' (S i) true
      else if found then (i, found)
      else operator_scan s rest' (S i) found
  end.

(** [int expr_next_token(const char *s, size_t len, int *flags)]: the
    returned [int] and the flags afterwards. *)
Definition expr_next_token (s : string) (flags : Z) : Z * Z :=
  match s with
  | EmptyString => (0, flags)
  | String c _ =>
      if Ascii.eqb c "#" then
        (Z.of_nat (span (fun d => negb (Ascii.eqb d Chr.newline)) s), flags)
      else if Ascii.eqb c Chr.newline then
        let i := span Chr.isspace s in
        (Z.of_nat i,
         if has_flag flags EXPR_TOP then
           match drop i s with
           | EmptyString => clear_flag flags EXPR_COMMA
           | String d _ =>
               if Ascii.eqb d ")" then clear_flag flags EXPR_COMMA
               else flag_or [EXPR_TNUMBER; EXPR_TWORD; EXPR_TOPEN; EXPR_COMMA]
           end
         else flags)
      else if Chr.isspace c then
        (Z.of_nat
           (span (fun d => Chr.isspace d && negb (Ascii.eqb d Chr.newline)) s),
         flags)
      else if Chr.isdigit c then
        if negb (has_flag flags EXPR_TNUMBER) then (-1, flags)
        else (Z.of_nat (span (fun d => Ascii.eqb d "." || Chr.isdigit d) s),
              flag_or [EXPR_TOP; EXPR_TCLOSE])
      else if Chr.isfirstvarchr c then
        if negb (has_flag flags EXPR_TWORD) then (-2, flags)
        else (Z.of_nat (span Chr.isvarchr s),
              flag_or [EXPR_TOP; EXPR_TOPEN; EXPR_TCLOSE])
      else if Ascii.eqb c "(" || Ascii.eqb c ")" then
        if Ascii.eqb c "(" && has_flag flags EXPR_TOPEN then
          (1, flag_or [EXPR_TNUMBER; EXPR_TWORD; EXPR_TOPEN; EXPR_TCLOSE])
        else if Ascii.eqb c ")" && has_flag flags EXPR_TCLOSE then
          (1, flag_or [EXPR_TOP; EXPR_TCLOSE])
        else (-3, flags)
      else if negb (has_flag flags EXPR_TOP) then
        if expr_type_eqb (expr_op (String c EmptyString) 1) OP_UNKNOWN
        then (-4, flags)
        else (1, flag_or [EXPR_TNUMBER; EXPR_TWORD; EXPR_TOPEN; EXPR_UNARY])
      else
        let '(i, found) := operator_scan s s 0 false in
        if negb found then (-5, flags)
        else (Z.of_nat i, flag_or [EXPR_TNUMBER; EXPR_TWORD; EXPR_TOPEN])
  end.

(** ** The compiler *)

(** The [vec] macros of the header.  The vectors [es], [os] and [as]
    are only pushed to, popped and measured: they are held as stacks,
    the last element first.  The argument vectors, the macro bodies and
    the macro table are read by index and held in index order.
    [vec_pop] and [vec_peek] of an empty vector read before its buffer:
    [None]. *)
Definition vec_push {A} (v : list A) (x : A) : list A := v ++ [x].

Definition stack_push {A} (v : list A) (x : A) : list A := x :: v.

Definition stack_peek {A} (v : list A) : option A :=
  match v with
  | x :: _ => Some x
  | [] => None
  end.

Definition stack_pop {A} (v : list A) : option (A * list A) :=
  match v with
  | x :: r => Some (x, r)
  | [] => None
  end.

(** [struct expr_arg] *)
Record expr_arg : Type := mk_arg {
  oslen : nat;
  eslen : nat;
  arg_args : list expr
}.

(** [struct macro] of [expr_create] *)
Record macro : Type := mk_macro {
  macro_name : string;
  macro_body : list expr
}.

Inductive paren_state : Type :=
| EXPR_PAREN_ALLOWED | EXPR_PAREN_EXPECTED | EXPR_PAREN_FORBIDDEN.

(** How a piece of [expr_create] ends: it goes on with a value, jumps
    to [cleanup] (the variables created so far stay in the caller's
    list), or its behaviour is undefined. *)
Inductive flow (A : Type) : Type :=
| Go (a : A)
| Cleanup (vars : expr_var_list)
| Undef.

Arguments Go {A} a.
Arguments Cleanup {A} vars.
Arguments Undef {A}.

Definition flow_bind {A B} (m : flow A) (k : A -> flow B) : flow B :=
  match m with
  | Go a => k a
  | Cleanup vars => Cleanup vars
  | Undef => Undef
  end.

Definition or_undef {A} (o : option A) : flow A :=
  match o with
  | Some a => Go a
  | None => Undef
  end.

Notation "x <~ m ;; k" := (flow_bind m (fun x => k))
  (at level 61, m at next level, right associativity).
Notation "' p <~ m ;; k" := (flow_bind m (fun x => let 'p := x in k))
  (at level 61, p pattern, m at next level, right associativity).

(** [expr_func(funcs, s, len)] *)
Fixpoint expr_func (funcs : list expr_func_desc) (s : string)
    : option expr_func_desc :=
  match funcs with
  | [] => None
  | f :: rest => if String.eqb (func_name f) s then Some f else expr_func rest s
  end.

(** [expr_bind(s, len, es)]: [None] is the result -1. *)
Definition expr_bind (s : string) (es : list expr) : option (list expr) :=
  let op := expr_op s (-1) in
  if expr_type_eqb op OP_UNKNOWN then None
  else if expr_is_unary op then
    match stack_pop es with
    | Some (arg, es1) => Some (stack_push es1 (Op op [arg]))
    | None => None
    end
  else
    match stack_pop es with
    | Some (b, es1) =>
        match stack_pop es1 with
        | Some (a, es2) =>
            if expr_type_eqb op OP_ASSIGN
               && negb (expr_type_eqb (expr_tag a) OP_VAR)
            then None
            else Some (stack_push es2 (Op op [a; b]))
        | None => None
        end
    | None => None
    end.

Definition expr_const (value : float) : expr := Const value.

Definition expr_varref (h : handle) : expr := Var h.

Definition expr_binary (type : expr_type) (a b : expr) : expr :=
  Op type [a; b].

(** [expr_copy(dst, src)] into a zeroed [dst]: the copy, and the number
    of context blocks allocated so far ([heap] before, the second
    component after). *)
Fixpoint expr_copy (src : expr) (heap : nat) : expr * nat :=
  let copy_args :=
    fix copy_args (l : list expr) (hp : nat) : list expr * nat :=
      match l with
      | [] => ([], hp)
      | arg :: rest =>
          let '(tmp, hp1) := expr_copy arg hp in
          let '(rest', hp2) := copy_args rest hp1 in
          (tmp :: rest', hp2)
      end in
  match src with
  | Func f args _ =>
      let '(args', hp) := copy_args args heap in
      if Nat.ltb 0 (func_ctxsz f) then (Func f args' (Some hp), S hp)
      else (Func f args' None, hp)
  | Const value => (Const value, heap)
  | Var h => (Var h, heap)
  | Op type args =>
      let '(args', hp) := copy_args args heap in (Op type args', hp)
  end.

(** The name of the variable living at a handle (the loop over
    [vars->head] in the definition of a macro). *)
Fixpoint var_name_at (vars : expr_var_list) (h : handle) : option string :=
  match vars with
  | [] => None
  | v :: rest =>
      if Nat.eqb (var_addr v) h then Some (var_name v) else var_name_at rest h
  end.

(** The index of the last macro named [s] ([found]), as the macro. *)
Fixpoint macro_find (macros : list macro) (s : string) : option macro :=
  match macros with
  | [] => None
  | m :: rest =>
      match macro_find rest s with
      | Some m' => Some m'
      | None => if String.eqb (macro_name m) s then Some m else None
      end
  end.

(** [snprintf(varname, 3, "$%d", k)]: a dollar and the leading decimal
    digit of [k], the rest being cut off. *)
Fixpoint leading_digit (fuel : nat) (k : nat) : nat :=
  match fuel with
  | O => k
  | S fuel' => if Nat.ltb k 10 then k else leading_digit fuel' (Nat.div k 10)
  end.

Definition macro_varname (k : nat) : string :=
  String "$" (String (ascii_of_nat (48 + leading_digit k k)) EmptyString).

(** The loop "Assign macro parameters": the assignments to [$1], [$2],
    ... in order, [j] arguments being done already. *)
Fixpoint macro_params (args : list expr) (j : nat) (vars : expr_var_list)
    : flow (list expr * expr_var_list) :=
  match args with
  | [] => Go ([], vars)
  | actual :: rest =>
      let '(v, vars1) := expr_var vars (macro_varname (S j)) in
      h <~ or_undef v ;;
      ' (assigns, vars2) <~ macro_params rest (S j) vars1 ;;
      Go (expr_binary OP_ASSIGN (expr_varref h) actual :: assigns, vars2)
  end.

(** The loop "Expand macro body" on the elements of index 1 and more:
    what ends up at [*p]. *)
Fixpoint macro_tail (body : list expr) (heap : nat) : expr * nat :=
  match body with
  | [] => (expr_const zero, heap)
  | [last] => expr_copy last heap
  | e :: rest =>
      let '(c, hp1) := expr_copy e heap in
      let '(r, hp2) := macro_tail rest hp1 in
      (expr_binary OP_COMMA c r, hp2)
  end.

(** The chain of commas the two loops build through [p]. *)
Definition macro_root (assigns : list expr) (tail : expr) : expr :=
  fold_right (fun a r => expr_binary OP_COMMA a r) tail assigns.

(** The [while] loop of the [')'] case: bind the operators above the
    nearest sentinel. *)
Fixpoint unwind (minlen : nat) (os : list string) (es : list expr)
    (vars : expr_var_list) : flow (list expr * list string) :=
  match os with
  | [] => Go (es, os)
  | str :: below =>
      if Nat.ltb minlen (List.length os) && negb (starts_with "(" str)
         && negb (starts_with "{" str)
      then match expr_bind str es with
           | Some es' => unwind minlen below es' vars
           | None => Cleanup vars
           end
      else Go (es, os)
  end.

(** The compiler's working state: the three stacks, the macro table,
    the caller's variable list and the count of context blocks. *)
Record work : Type := mk_work {
  w_es : list expr;
  w_os : list string;
  w_as : list expr_arg;
  w_macros : list macro;
  w_vars : expr_var_list;
  w_heap : nat
}.

(** The call closed by a [')'] that met the sentinel ["{"]: [str] is
    the name under the sentinel, [arg] the frame. *)
Definition close_call (funcs : list expr_func_desc) (str : string)
    (arg : expr_arg) (w : work) : flow work :=
  let '(args, es) :=
    if Nat.ltb (eslen arg) (List.length (w_es w)) then
      match stack_pop (w_es w) with
      | Some (e, es') => (vec_push (arg_args arg) e, es')
      | None => (arg_args arg, w_es w)
      end
    else (arg_args arg, w_es w) in
  if String.eqb str "$" then
    match args with
    | [] => Cleanup (w_vars w)
    | Var h :: _ =>
        let macros :=
          match var_name_at (w_vars w) h with
          | Some nm => vec_push (w_macros w) (mk_macro nm args)
          | None => w_macros w
          end in
        Go (mk_work (stack_push es (expr_const zero)) (w_os w) (w_as w)
              macros (w_vars w) (w_heap w))
    | Op OP_VAR _ :: _ => Undef
    | _ :: _ => Cleanup (w_vars w)
    end
  else
    match macro_find (w_macros w) str with
    | Some m =>
        ' (assigns, vars) <~ macro_params args 0 (w_vars w) ;;
        let '(tail, heap) := macro_tail (List.tl (macro_body m)) (w_heap w) in
        Go (mk_work (stack_push es (macro_root assigns tail)) (w_os w)
              (w_as w) (w_macros w) vars heap)
    | None =>
        f <~ or_undef (expr_func funcs str) ;;
        if Nat.ltb 0 (func_ctxsz f) then
          Go (mk_work (stack_push es (Func f args (Some (w_heap w))))
                (w_os w) (w_as w) (w_macros w) (w_vars w) (S (w_heap w)))
        else
          Go (mk_work (stack_push es (Func f args None))
                (w_os w) (w_as w) (w_macros w) (w_vars w) (w_heap w))
    end.

(** The case of a closing paren, [n == 1 && tok[0] == ')']. *)
Definition close_paren (funcs : list expr_func_desc) (w : work) : flow work :=
  let minlen :=
    match stack_peek (w_as w) with
    | Some a => oslen a
    | None => 0%nat
    end in
  ' (es, os) <~ unwind minlen (w_os w) (w_es w) (w_vars w) ;;
  match stack_pop os with
  | None => Cleanup (w_vars w)
  | Some (str, os1) =>
      if String.eqb str "{" then
        ' (name, os2) <~ or_undef (stack_pop os1) ;;
        ' (arg, as1) <~ or_undef (stack_pop (w_as w)) ;;
        close_call funcs name arg
          (mk_work es os2 as1 (w_macros w) (w_vars w) (w_heap w))
      else
        Go (mk_work es os1 (w_as w) (w_macros w) (w_vars w) (w_heap w))
  end.

(** The [for (;;)] loop of the operator case.  The source keeps [o2]
    equal to the top of [os] (of length 0 when [os] is empty); here it
    is read from [os] at each turn. *)
Fixpoint push_operator (tok : string) (op : expr_type) (os : list string)
    (es : list expr) (as_ : list expr_arg) (vars : expr_var_list)
    : flow (list expr * list string * list expr_arg) :=
  match os with
  | [] => Go (es, stack_push os tok, as_)
  | o2 :: below =>
      if String.eqb tok "," && String.eqb o2 "{" then
        ' (e, es') <~ or_undef (stack_pop es) ;;
        ' (frame, as') <~ or_undef (stack_pop as_) ;;
        Go (es', os,
            stack_push as'
              (mk_arg (oslen frame) (eslen frame)
                 (vec_push (arg_args frame) e)))
      else
        let type2 := expr_op o2 (-1) in
        if negb (negb (expr_type_eqb type2 OP_UNKNOWN) && expr_prec op type2)
        then Go (es, stack_push os tok, as_)
        else match expr_bind o2 es with
             | None => Cleanup vars
             | Some es' => push_operator tok op below es' as_ vars
             end
  end.

(** The locals of [expr_create] that live across the turns of its main
    loop: the unread buffer, [flags], [paren], the buffered word [id]
    (empty when [idn] is 0), and the working state. *)
Record parser : Type := mk_parser {
  p_src : string;
  p_flags : Z;
  p_paren : paren_state;
  p_id : string;
  p_work : work
}.

(** How a turn of the main loop ends: [continue] or the end of the
    body, or the [break] at the end of the input. *)
Inductive turn : Type :=
| Continue (p : parser)
| Break (p : parser).

(** "When the tokenizer signals [EXPR_UNARY]": the rewriting of a
    one-byte token into the internal unary operator. *)
Definition unary_rewrite (tok : string) (flags : Z) : option string :=
  if has_flag flags EXPR_UNARY && Nat.eqb (String.length tok) 1 then
    if starts_with "-" tok then Some "-u"%string
    else if starts_with "^" tok then Some "^u"%string
    else if starts_with "!" tok then Some "!u"%string
    else None
  else Some tok.

(** [if (tok[0] == '\n' && (flags & EXPR_COMMA))]: the newline token
    replaced by a comma of length 1, and the bit cleared. *)
Definition newline_comma (tok : string) (flags : Z) : string * Z :=
  if starts_with Chr.newline tok && has_flag flags EXPR_COMMA
  then (","%string, clear_flag flags EXPR_COMMA)
  else (tok, flags).

(** [if (idn > 0) { ... }]: the buffered word, now that the token after
    it is known. *)
Definition resolve_word (funcs : list expr_func_desc) (tok id : string)
    (paren : paren_state) (w : work) : flow (paren_state * work) :=
  if Nat.ltb 0 (String.length id) then
    if String.eqb tok "(" then
      let has_macro :=
        existsb (fun m => String.eqb (macro_name m) id) (w_macros w) in
      if String.eqb id "$" || has_macro
         || match expr_func funcs id with Some _ => true | None => false end
      then Go (EXPR_PAREN_EXPECTED,
               mk_work (w_es w) (stack_push (w_os w) id) (w_as w)
                 (w_macros w) (w_vars w) (w_heap w))
      else Cleanup (w_vars w)
    else
      match expr_var (w_vars w) id with
      | (Some v, vars) =>
          Go (EXPR_PAREN_FORBIDDEN,
              mk_work (stack_push (w_es w) (expr_varref v)) (w_os w) (w_as w)
                (w_macros w) vars (w_heap w))
      | (None, vars) =>
          Go (paren,
              mk_work (w_es w) (w_os w) (w_as w) (w_macros w) vars (w_heap w))
      end
  else Go (paren, w).

(** The chain of cases on the token: the new [id], [paren_next] and the
    working state. *)
Definition dispatch (funcs : list expr_func_desc) (tok : string)
    (paren : paren_state) (w : work) : flow (string * paren_state * work) :=
  if String.eqb tok "(" then
    match paren with
    | EXPR_PAREN_EXPECTED =>
        let os := stack_push (w_os w) "{"%string in
        let arg := mk_arg (List.length os) (List.length (w_es w)) [] in
        Go (EmptyString, EXPR_PAREN_ALLOWED,
            mk_work (w_es w) os (stack_push (w_as w) arg) (w_macros w)
              (w_vars w) (w_heap w))
    | EXPR_PAREN_ALLOWED =>
        Go (EmptyString, EXPR_PAREN_ALLOWED,
            mk_work (w_es w) (stack_push (w_os w) "("%string) (w_as w)
              (w_macros w) (w_vars w) (w_heap w))
    | EXPR_PAREN_FORBIDDEN => Cleanup (w_vars w)
    end
  else
    match paren with
    | EXPR_PAREN_EXPECTED => Cleanup (w_vars w)
    | _ =>
        if String.eqb tok ")" then
          w' <~ close_paren funcs w ;;
          Go (EmptyString, EXPR_PAREN_FORBIDDEN, w')
        else
          let num := expr_parse_number tok in
          if negb (isnan num) then
            Go (EmptyString, EXPR_PAREN_FORBIDDEN,
                mk_work (stack_push (w_es w) (expr_const num)) (w_os w)
                  (w_as w) (w_macros w) (w_vars w) (w_heap w))
          else if negb (expr_type_eqb (expr_op tok (-1)) OP_UNKNOWN) then
            ' (es, os, as_) <~
              push_operator tok (expr_op tok (-1)) (w_os w) (w_es w) (w_as w)
                (w_vars w) ;;
            Go (EmptyString, EXPR_PAREN_ALLOWED,
                mk_work es os as_ (w_macros w) (w_vars w) (w_heap w))
          else if Nat.ltb 0 (String.length tok)
                  && negb (match tok with
                           | String c _ => Chr.isdigit c
                           | EmptyString => false
                           end)
          then Go (tok, EXPR_PAREN_ALLOWED, w)
          else Cleanup (w_vars w)
    end.

(** One turn of [for (;;)] in [expr_create]. *)
Definition turn_of (funcs : list expr_func_desc) (p : parser) : flow turn :=
  let '(n, flags) := expr_next_token (p_src p) (p_flags p) in
  if n =? 0 then
    Go (Break (mk_parser (p_src p) flags (p_paren p) (p_id p) (p_work p)))
  else if n <? 0 then Cleanup (w_vars (p_work p))
  else
    let tok := take (Z.to_nat n) (p_src p) in
    let s := drop (Z.to_nat n) (p_src p) in
    if starts_with "#" tok then
      Go (Continue (mk_parser s flags (p_paren p) (p_id p) (p_work p)))
    else
      match unary_rewrite tok flags with
      | None => Cleanup (w_vars (p_work p))
      | Some tok1 =>
          let '(tok2, flags2) := newline_comma tok1 flags in
          if match tok2 with
             | String c _ => Chr.isspace c
             | EmptyString => false
             end
          then
            Go (Continue (mk_parser s flags2 (p_paren p) (p_id p) (p_work p)))
          else
            ' (paren, w) <~
              resolve_word funcs tok2 (p_id p) (p_paren p) (p_work p) ;;
            ' (id, paren_next, w') <~ dispatch funcs tok2 paren w ;;
            Go (Continue (mk_parser s flags2 paren_next id w'))
      end.

(** The main loop; a turn consumes at least one byte, so [fuel] above
    the length of the buffer is never used up ([None]). *)
Fixpoint main_loop (funcs : list expr_func_desc) (fuel : nat) (p : parser)
    : option (flow parser) :=
  match fuel with
  | O => None
  | S fuel' =>
      match turn_of funcs p with
      | Go (Continue p') => main_loop funcs fuel' p'
      | Go (Break p') => Some (Go p')
      | Cleanup vars => Some (Cleanup vars)
      | Undef => Some Undef
      end
  end.

(** [while (vec_len(&os) > 0) { ... }] after the loop. *)
Fixpoint drain (os : list string) (es : list expr) (vars : expr_var_list)
    : flow (list expr) :=
  match os with
  | [] => Go es
  | rest :: below =>
      if String.eqb rest "(" || String.eqb rest ")" then Cleanup vars
      else match expr_bind rest es with
           | None => Cleanup vars
           | Some es' => drain below es' vars
           end
  end.

(** What [expr_create] leaves: the tree or [NULL], and the caller's
    variable list. *)
Record compiled : Type := mk_compiled {
  c_result : option expr;
  c_vars : expr_var_list
}.

(** The part of [expr_create] after the main loop. *)
Definition finish (p : parser) : flow compiled :=
  let w := p_work p in
  ' (es, vars) <~
    (if Nat.ltb 0 (String.length (p_id p)) then
       match expr_var (w_vars w) (p_id p) with
       | (Some v, vars) => Go (stack_push (w_es w) (expr_varref v), vars)
       | (None, _) => Undef
       end
     else Go (w_es w, w_vars w)) ;;
  es' <~ drain (w_os w) es vars ;;
  match stack_pop es' with
  | None => Go (mk_compiled (Some (Const zero)) vars)
  | Some (e, _) => Go (mk_compiled (Some e) vars)
  end.

(** [struct expr *expr_create(const char *s, size_t len,
        struct expr_var_list *vars, struct expr_func *funcs)];
    [None] when the behaviour is undefined. *)
Definition expr_create (s : string) (vars : expr_var_list)
    (funcs : list expr_func_desc) : option compiled :=
  let start :=
    mk_parser s EXPR_TDEFAULT EXPR_PAREN_ALLOWED EmptyString
      (mk_work [] [] [] [] vars 0) in
  match main_loop funcs (S (String.length s)) start with
  | None => None
  | Some r =>
      match flow_bind r finish with
      | Go c => Some c
      | Cleanup vars' => Some (mk_compiled None vars')
      | Undef => None
      end
  end.

(** ** Trees without assignment and without call *)

(** No [OP_ASSIGN] node and no [OP_FUNC] node anywhere in the tree. *)
Fixpoint no_assign_no_func (e : expr) : bool :=
  match e with
  | Op type args =>
      negb (expr_type_eqb type OP_ASSIGN) && forallb no_assign_no_func args
  | Const _ | Var _ => true
  | Func _ _ _ => false
  end.

(** The six comparison tags. *)
Definition is_comparison (t : expr_type) : bool :=
  match t with
  | OP_LT | OP_LE | OP_GT | OP_GE | OP_EQ | OP_NE => true
  | _ => false
  end.

(** The operation on [int] behind each bitwise or shift tag. *)
Definition int_view_op (t : expr_type) : option (Z -> Z -> option Z) :=
  match t with
  | OP_SHL => Some int_shl
  | OP_SHR => Some int_shr
  | OP_BITWISE_AND => Some (fun i j => Some (Z.land i j))
  | OP_BITWISE_OR => Some (fun i j => Some (Z.lor i j))
  | OP_BITWISE_XOR => Some (fun i j => Some (Z.lxor i j))
  | _ => None
  end.

(** A host without functions and a [math.h] reduced to what the
    examples need: powers with a small natural exponent by repeated
    multiplication, and no remainder. *)
Fixpoint pow_nat (x : float) (k : nat) : float :=
  match k with
  | O => one
  | S k' => mul x (pow_nat x k')
  end.

Definition powf_small (x y : float) : float :=
  match to_int y with
  | Some j => if 0 <=? j then pow_nat x (Z.to_nat j) else nan
  | None => nan
  end.

Definition no_fmodf (x y : float) : float := nan.

Definition no_call (f : expr_func_desc) (args : list expr)
    (context : option nat) : M unit float :=
  undefined unit.

Definition eval0 : expr -> M unit float :=
  expr_eval unit powf_small no_fmodf no_call.

(** The number of dots of a lexeme. *)
Fixpoint count_dots (s : string) : nat :=
  match s with
  | EmptyString => 0%nat
  | String c rest =>
      ((if Ascii.eqb c "." then 1 else 0) + count_dots rest)%nat
  end.

(** The bytes of a number lexeme: digits and the dot. *)
Definition isnumchr (c : ascii) : bool := Ascii.eqb c "." || Chr.isdigit c.

Fixpoint all_chars (p : ascii -> bool) (s : string) : bool :=
  match s with
  | EmptyString => true
  | String c rest => p c && all_chars p rest
  end.

(** The buffer is at its end or at a closing paren. *)
Definition at_end_or_close (s : string) : bool :=
  match s with
  | EmptyString => true
  | String d _ => Ascii.eqb d ")"
  end.

(** The bytes that reach the operator case of the tokenizer: neither
    the start of a comment, nor a space, a digit, the start of a word
    or a paren. *)
Definition is_operator_start (c : ascii) : bool :=
  negb (Ascii.eqb c "#") && negb (Chr.isspace c) && negb (Chr.isdigit c)
  && negb (Chr.isfirstvarchr c) && negb (Ascii.eqb c "(")
  && negb (Ascii.eqb c ")").

(** The case of [expr_next_token] a first byte selects, its tests
    being made in the order of the source. *)
Inductive lex_class : Type :=
| L_comment | L_newline | L_space | L_digit | L_word | L_open | L_close
| L_operator.

Definition lex_class_of (c : ascii) : lex_class :=
  if Ascii.eqb c "#" then L_comment
  else if Ascii.eqb c Chr.newline then L_newline
  else if Chr.isspace c then L_space
  else if Chr.isdigit c then L_digit
  else if Chr.isfirstvarchr c then L_word
  else if Ascii.eqb c "(" then L_open
  else if Ascii.eqb c ")" then L_close
  else L_operator.

Definition lex_class_eqb (a b : lex_class) : bool :=
  match a, b with
  | L_comment, L_comment | L_newline, L_newline | L_space, L_space
  | L_digit, L_digit | L_word, L_word | L_open, L_open
  | L_close, L_close | L_operator, L_operator => true
  | _, _ => false
  end.

(** The length of the run of bytes an operator lexeme can be made of. *)
Definition operator_run (s : string) : nat :=
  span (fun c => negb (ends_operator c)) s.

(** A value that is not NaN and has the sign [sx]. *)
Definition signed_as (sx : bool) (x : float) : Prop :=
  match x with
  | S754_zero s | S754_infinity s | S754_finite s _ _ => s = sx
  | S754_nan => False
  end.

(** A computation that leaves the state as it found it. *)
Definition preserves_state {world A : Type} (m : M world A) : Prop :=
  forall st a st', m st = Some (a, st') -> st' = st.

(** Induction on trees, through the vectors of children. *)
Section ExprInduction.

Variable P : expr -> Prop.
Hypothesis P_op : forall t args, Forall P args -> P (Op t args).
Hypothesis P_const : forall v, P (Const v).
Hypothesis P_var : forall h, P (Var h).
Hypothesis P_func : forall f args ctx, Forall P args -> P (Func f args ctx).

Fixpoint expr_children_ind (e : expr) : P e :=
  let all :=
    fix all (l : list expr) : Forall P l :=
      match l with
      | [] => Forall_nil P
      | x :: r => Forall_cons x (expr_children_ind x) (all r)
      end in
  match e with
  | Op t args => P_op t args (all args)
  | Const v => P_const v
  | Var h => P_var h
  | Func f args ctx => P_func f args ctx (all args)
  end.

End ExprInduction.

(** ** Sample states and trees *)

Definition st_empty : state unit := mk_state [] tt.

(** One variable [b], at handle 1, holding 0; and holding 1. *)
Definition st_b0 : state unit := mk_state [mk_var 1%nat "b" zero] tt.
Definition st_b1 : state unit := mk_state [mk_var 1%nat "b" one] tt.

(** [b = 1] *)
Definition set_b : expr := Op OP_ASSIGN [Var 1%nat; Const one].

(** Two variables, [y] at handle 2 and [x] at handle 1. *)
Definition st_xy : state unit :=
  mk_state [mk_var 2%nat "y" one; mk_var 1%nat "x" (of_int 3)] tt.

(** [y + 4] *)
Definition y_plus_4 : expr := Op OP_PLUS [Var 2%nat; Const (of_int 4)].

(** [(x < y) || (x & 6)] *)
Definition pure_tree : expr :=
  Op OP_LOGICAL_OR
    [Op OP_LT [Var 1%nat; Var 2%nat];
     Op OP_BITWISE_AND [Var 1%nat; Const (of_int 6)]].

(** A newline, and a buffer with a newline before an operand. *)
Definition newline_token : string := String Chr.newline EmptyString.
Definition newline_then_operand : string := String Chr.newline "1".
Definition newline_space_assign : string :=
  String Chr.newline (String " " "b=2").

(** ** Releasing a tree *)

(** [expr_destroy_args(e)]: the context blocks handed to [free], in the
    order of the calls (children first, then the node's own block).
    The vectors released by [vec_free] are owned by value and leave no
    trace here. *)
Fixpoint expr_destroy_args (e : expr) : list nat :=
  let destroy_all :=
    fix destroy_all (l : list expr) : list nat :=
      match l with
      | [] => []
      | arg :: rest => expr_destroy_args arg ++ destroy_all rest
      end in
  match e with
  | Func _ args context =>
      destroy_all args
      ++ match context with
         | Some p => [p]
         | None => []
         end
  | Const _ | Var _ => []
  | Op _ args => destroy_all args
  end.

(** [expr_destroy(e, vars)]: the context blocks and the variable cells
    handed to [free]; either pointer may be [NULL]. *)
Definition expr_destroy (e : option expr) (vars : option expr_var_list)
    : list nat * list handle :=
  (match e with
   | Some tree => expr_destroy_args tree
   | None => []
   end,
   match vars with
   | Some cells => map var_addr cells
   | None => []
   end).

(** ** More predicates on names, trees and lists of variables *)

(** A name [expr_var] takes: not empty, its first byte a first byte of
    a word. *)
Definition valid_name (s : string) : bool :=
  match s with
  | String c _ => Chr.isfirstvarchr c
  | EmptyString => false
  end.

(** A name without zero byte: the buffer is the C string it starts. *)
Definition zero_free (s : string) : Prop := c_str s = s.

(** Every cell of the list is named by a C string. *)
Definition c_names (vars : expr_var_list) : Prop :=
  Forall (fun v => zero_free (var_name v)) vars.

(** [vars'] is [vars] with cells put in front, none of them at an
    address that is live in [vars]. *)
Definition extends (vars' vars : expr_var_list) : Prop :=
  exists front,
    vars' = front ++ vars
    /\ Forall (fun v => var_read vars (var_addr v) = None) front.

(** The number of digits of a lexeme. *)
Fixpoint count_digits (s : string) : nat :=
  match s with
  | EmptyString => 0%nat
  | String c rest =>
      ((if Chr.isdigit c then 1 else 0) + count_digits rest)%nat
  end.

(** No [OP_FUNC] node anywhere in the tree. *)
Fixpoint no_func (e : expr) : bool :=
  match e with
  | Op _ args => forallb no_func args
  | Const _ | Var _ => true
  | Func _ _ _ => false
  end.

(** The handles the assignments of a tree write through. *)
Fixpoint assigned (e : expr) : list handle :=
  match e with
  | Op type args =>
      (if expr_type_eqb type OP_ASSIGN then
         match args with
         | Var h :: _ => [h]
         | _ => []
         end
       else [])
      ++ flat_map assigned args
  | Const _ | Var _ => []
  | Func _ args _ => flat_map assigned args
  end.

(** The tree with every context pointer forgotten. *)
Fixpoint forget_contexts (e : expr) : expr :=
  match e with
  | Op type args => Op type (map forget_contexts args)
  | Const value => Const value
  | Var h => Var h
  | Func f args _ => Func f (map forget_contexts args) None
  end.

(** The shape of the trees the compiler builds: a unary node has one
    child, a binary node two, the left child of an assignment is a
    variable, every handle is live in [vars], and a call has a context
    block exactly when its descriptor asks for one. *)
Fixpoint well_formed (vars : expr_var_list) (e : expr) : bool :=
  match e with
  | Op type args =>
      forallb (well_formed vars) args
      && (if expr_is_unary type then Nat.eqb (List.length args) 1
          else if expr_is_binary type then
            Nat.eqb (List.length args) 2
            && (if expr_type_eqb type OP_ASSIGN then
                  match args with
                  | Var _ :: _ => true
                  | _ => false
                  end
                else true)
          else false)
  | Const _ => true
  | Var h =>
      match var_read vars h with
      | Some _ => true
      | None => false
      end
  | Func f args context =>
      forallb (well_formed vars) args
      && match context with
         | Some _ => Nat.ltb 0 (func_ctxsz f)
         | None => Nat.eqb (func_ctxsz f) 0
         end
  end.

(** The tags whose case in [expr_eval] works on the [int] view. *)
Definition is_int_view (t : expr_type) : bool :=
  match t with
  | OP_UNARY_BITWISE_NOT | OP_SHL | OP_SHR
  | OP_BITWISE_AND | OP_BITWISE_OR | OP_BITWISE_XOR => true
  | _ => false
  end.

(** No call and no node on the [int] view anywhere in the tree. *)
Fixpoint float_only (e : expr) : bool :=
  match e with
  | Op type args => negb (is_int_view type) && forallb float_only args
  | Const _ | Var _ => true
  | Func _ _ _ => false
  end.

(** What a computation may change: nothing of the host, no address and
    no name of a variable, and the value of no variable outside
    [written]. *)
Definition writes_only {world A : Type} (written : handle -> Prop)
    (m : M world A) : Prop :=
  forall st a st',
    m st = Some (a, st') ->
    st_world st' = st_world st
    /\ map var_addr (st_vars st') = map var_addr (st_vars st)
    /\ map var_name (st_vars st') = map var_name (st_vars st)
    /\ forall h, ~ written h ->
                 var_read (st_vars st') h = var_read (st_vars st) h.

(** A tree evaluates from every state whose variables have the
    addresses of [vars], and leaves such a state. *)
Definition runs_in (world : Type) (powf fmodf : float -> float -> float)
    (call : expr_func_desc -> list expr -> option nat -> M world float)
    (vars : expr_var_list) (e : expr) : Prop :=
  forall st,
    map var_addr (st_vars st) = map var_addr vars ->
    exists v st',
      expr_eval world powf fmodf call e st = Some (v, st')
      /\ map var_addr (st_vars st') = map var_addr vars.

(** The loop of [expr_copy] over a vector of children, as a function
    of its own. *)
Fixpoint copy_list (l : list expr) (hp : nat) : list expr * nat :=
  match l with
  | [] => ([], hp)
  | arg :: rest =>
      let '(tmp, hp1) := expr_copy arg hp in
      let '(rest', hp2) := copy_list rest hp1 in
      (tmp :: rest', hp2)
  end.

(** What a copy keeps and what it allocates. *)
Definition copy_ok (e e' : expr) (heap heap' : nat) : Prop :=
  (heap <= heap')%nat
  /\ forget_contexts e' = forget_contexts e
  /\ expr_destroy_args e' = seq heap (heap' - heap)
  /\ (forall vars, well_formed vars e = true -> well_formed vars e' = true)
  /\ (no_func e = true -> e' = e /\ heap' = heap).

(** Every tree of a vector is well-formed. *)
Definition wf_list (vars : expr_var_list) (l : list expr) : Prop :=
  Forall (fun e => well_formed vars e = true) l.

(** Every tree the compiler holds is well-formed: the operands, the
    arguments gathered in the frames, the bodies of the macros. *)
Definition wf_work (w : work) : Prop :=
  wf_list (w_vars w) (w_es w)
  /\ Forall (fun a => wf_list (w_vars w) (arg_args a)) (w_as w)
  /\ Forall (fun m => wf_list (w_vars w) (macro_body m)) (w_macros w).

(** What the compiler keeps true of its working state, [vars0] being
    the list of variables it was given. *)
Definition compile_inv (vars0 : expr_var_list) (w : work) : Prop :=
  extends (w_vars w) vars0 /\ wf_work w.

(** A piece of the compiler that goes on with a value satisfying [Q],
    or jumps to [cleanup] with a list that extends [vars0]. *)
Definition flow_inv {A : Type} (vars0 : expr_var_list) (Q : A -> Prop)
    (m : flow A) : Prop :=
  match m with
  | Go a => Q a
  | Cleanup vars => extends vars vars0
  | Undef => True
  end.

(** How often the context block [p] is owned: by a tree, by a vector
    of trees, by the whole working state of the compiler. *)
Definition owned (e : expr) (p : nat) : nat :=
  count_occ Nat.eq_dec (expr_destroy_args e) p.

Definition owned_list (l : list expr) (p : nat) : nat :=
  list_sum (map (fun e => owned e p) l).

Definition owned_work (w : work) (p : nat) : nat :=
  (owned_list (w_es w) p
   + list_sum (map (fun a => owned_list (arg_args a) p) (w_as w))
   + list_sum (map (fun m => owned_list (macro_body m) p) (w_macros w)))%nat.

(** Every block is owned at most once, and only blocks that have been
    allocated are owned. *)
Definition owns_once (w : work) : Prop :=
  forall p, (owned_work w p <= if Nat.ltb p (w_heap w) then 1 else 0)%nat.

(** A piece of the compiler that, when it goes on, goes on with a value
    satisfying [Q]. *)
Definition flow_go {A : Type} (Q : A -> Prop) (m : flow A) : Prop :=
  match m with
  | Go a => Q a
  | _ => True
  end.

(** The cells of a list live at pairwise distinct addresses and carry
    pairwise distinct names. *)
Definition cells_distinct (vars : expr_var_list) : Prop :=
  NoDup (map var_addr vars) /\ NoDup (map var_name vars).

(** A piece of the compiler that goes on with a value satisfying [Q],
    or jumps to [cleanup] with a list satisfying [R]. *)
Definition flow_vars {A : Type} (Q : A -> Prop)
    (R : expr_var_list -> Prop) (m : flow A) : Prop :=
  match m with
  | Go a => Q a
  | Cleanup vars => R vars
  | Undef => True
  end.

(** The three unary operators of the source text. *)
Definition is_unary_byte (c : ascii) : bool :=
  Ascii.eqb c "-" || Ascii.eqb c "!" || Ascii.eqb c "^".

(** A space other than the newline. *)
Definition is_blank (c : ascii) : bool :=
  Chr.isspace c && negb (Ascii.eqb c Chr.newline).

(** More sample data: a function with a context block, a call of it
    inside a sum, and a list of two variables. *)
Definition fn_acc : expr_func_desc := mk_func "acc" 7 4.

Definition call_tree : expr :=
  Op OP_PLUS
    [Func fn_acc [Func fn_acc [Const one] (Some 0%nat)] (Some 1%nat);
     Const one].

Definition vars_xy : expr_var_list :=
  [mk_var 2%nat "y" one; mk_var 1%nat "x" (of_int 3)].

(** The three bytes [a], zero, [b]. *)
Definition name_a0b : string :=
  String "a" (String Ascii.zero (String "b" EmptyString)).

(** [x = (y = 2) + 1] *)
Definition nested_assign : expr :=
  Op OP_ASSIGN
    [Var 1%nat;
     Op OP_PLUS [Op OP_ASSIGN [Var 2%nat; Const (of_int 2)]; Const one]].

(** * Properties *)

(** ** The variable store *)

Lemma var_write_live vars h n :
  var_read vars h <> None -> exists vars', var_write vars h n = Some vars'.
Proof.
  induction vars as [|v rest IH]; simpl; [congruence|].
  destruct (Nat.eqb (var_addr v) h); [eauto|].
  intros Hlive. destruct (IH Hlive) as [vars' ->]. simpl. eauto.
Qed.

Lemma var_read_write_same vars h n vars' :
  var_write vars h n = Some vars' -> var_read vars' h = Some n.
Proof.
  revert vars'.
  induction vars as [|v rest IH]; simpl; intros vars'; [discriminate|].
  destruct (Nat.eqb (var_addr v) h) eqn:E.
  - intros [= <-]. simpl. now rewrite E.
  - destruct (var_write rest h n) as [r|]; simpl; [|discriminate].
    intros [= <-]. simpl. rewrite E. now apply IH.
Qed.

Lemma var_read_write_other vars h n vars' h' :
  var_write vars h n = Some vars' -> h' <> h ->
  var_read vars' h' = var_read vars h'.
Proof.
  revert vars'.
  induction vars as [|v rest IH]; simpl; intros vars'; [discriminate|].
  destruct (Nat.eqb (var_addr v) h) eqn:E.
  - intros [= <-] Hne. simpl. apply Nat.eqb_eq in E.
    destruct (Nat.eqb (var_addr v) h') eqn:E'; [|reflexivity].
    apply Nat.eqb_eq in E'. congruence.
  - destruct (var_write rest h n) as [r|]; simpl; [|discriminate].
    intros [= <-] Hne. simpl. destruct (Nat.eqb (var_addr v) h'); auto.
Qed.

(** ** The evaluator *)

Section EvalProperties.

Variable world : Type.
Variable powf fmodf : float -> float -> float.
Variable call : expr_func_desc -> list expr -> option nat -> M world float.

Local Abbreviation eval := (expr_eval world powf fmodf call).

(** C1. Logical AND short-circuits: once the left child [a] has
    evaluated to [n], the node is 0 in the state [a] left when [n] is
    0, the right child being left alone; otherwise the right child
    is evaluated from that state and the node is its value if
    nonzero, else 0. *)
Theorem logical_and_short_circuit (a b : expr) (st st1 : state world)
    (n : float) (Ha : eval a st = Some (n, st1)) :
  eval (Op OP_LOGICAL_AND [a; b]) st =
    if eq n zero then Some (zero, st1)
    else match eval b st1 with
         | Some (m, st2) => Some (if ne m zero then m else zero, st2)
         | None => None
         end.
Proof.
  cbn [expr_eval]. unfold bind at 1. rewrite Ha.
  unfold ne, eq. destruct (SFeqb n zero); cbn [negb]; [reflexivity|].
  unfold bind. destruct (eval b st1) as [[m st2]|]; [|reflexivity].
  destruct (SFeqb m zero); reflexivity.
Qed.

(** C4. Logical OR with its NaN guard: once the left child [a] has
    evaluated to [n], the node is [n] in the state [a] left when [n]
    is nonzero and not NaN, the right child being left alone;
    otherwise the right child is evaluated from that state and the
    node is its value if nonzero, else 0. *)
Theorem logical_or_nan_guard (a b : expr) (st st1 : state world)
    (n : float) (Ha : eval a st = Some (n, st1)) :
  eval (Op OP_LOGICAL_OR [a; b]) st =
    if ne n zero && negb (isnan n) then Some (n, st1)
    else match eval b st1 with
         | Some (m, st2) => Some (if ne m zero then m else zero, st2)
         | None => None
         end.
Proof.
  cbn [expr_eval]. unfold bind at 1. rewrite Ha.
  destruct (ne n zero && negb (isnan n)); [reflexivity|].
  unfold bind. destruct (eval b st1) as [[m st2]|]; [|reflexivity].
  destruct (ne m zero); reflexivity.
Qed.

(** C2. Assignment is a value: when the right child evaluates to [n]
    and the handle [h] of the left child is live, the node evaluates
    to [n], and afterwards the variable at [h] holds [n], every other
    variable and the host keep what the right child left. *)
Theorem assign_stores_and_returns (h : handle) (rhs : expr)
    (st st1 : state world) (n : float)
    (Hrhs : eval rhs st = Some (n, st1))
    (Hlive : var_read (st_vars st1) h <> None) :
  exists st2,
    eval (Op OP_ASSIGN [Var h; rhs]) st = Some (n, st2)
    /\ var_read (st_vars st2) h = Some n
    /\ (forall h', h' <> h ->
          var_read (st_vars st2) h' = var_read (st_vars st1) h')
    /\ st_world st2 = st_world st1.
Proof.
  destruct (var_write_live _ _ n Hlive) as [vars' Hw].
  exists (mk_state vars' (st_world st1)). split; [|split; [|split]].
  - cbn [expr_eval]. unfold bind at 1. rewrite Hrhs.
    unfold bind, store. rewrite Hw. reflexivity.
  - simpl. eapply var_read_write_same; eassumption.
  - intros h' Hne. simpl. eapply var_read_write_other; eassumption.
  - reflexivity.
Qed.

(** *** State preservation of the building blocks *)

Lemma preserves_ret A (a : A) : preserves_state (ret world a).
Proof. intros st a' st' [= _ <-]. reflexivity. Qed.

Lemma preserves_undefined A : preserves_state (@undefined world A).
Proof. intros st a st'. discriminate. Qed.

Lemma preserves_lift A (o : option A) : preserves_state (lift world o).
Proof. intros st a st'. unfold lift. destruct o; simpl; congruence. Qed.

Lemma preserves_load h : preserves_state (load world h).
Proof.
  intros st a st'. unfold load.
  destruct (var_read (st_vars st) h); simpl; congruence.
Qed.

Lemma preserves_bind A B (m : M world A) (k : A -> M world B) :
  preserves_state m -> (forall a, preserves_state (k a)) ->
  preserves_state (bind world m k).
Proof.
  intros Hm Hk st b st'. unfold bind.
  destruct (m st) as [[a st1]|] eqn:E; [|discriminate].
  intros Hb. apply Hm in E. apply Hk in Hb. congruence.
Qed.

Lemma preserves_if A (c : bool) (m1 m2 : M world A) :
  preserves_state m1 -> preserves_state m2 ->
  preserves_state (if c then m1 else m2).
Proof. destruct c; auto. Qed.

Create HintDb frame.

Hint Resolve preserves_ret preserves_undefined preserves_lift
  preserves_load preserves_bind preserves_if : frame.

Lemma preserves_float_op f (a b : M world float) :
  preserves_state a -> preserves_state b ->
  preserves_state (float_op world f a b).
Proof. unfold float_op. auto 6 with frame. Qed.

Lemma preserves_compare_op f (a b : M world float) :
  preserves_state a -> preserves_state b ->
  preserves_state (compare_op world f a b).
Proof. unfold compare_op. auto 6 with frame. Qed.

Lemma preserves_int_op f (a b : M world float) :
  preserves_state a -> preserves_state b ->
  preserves_state (int_op world f a b).
Proof. unfold int_op. auto 12 with frame. Qed.

Hint Resolve preserves_float_op preserves_compare_op preserves_int_op
  : frame.

Lemma preserves_eval (e : expr) :
  no_assign_no_func e = true -> preserves_state (eval e).
Proof.
  induction e as [t args IH| | |] using expr_children_ind.
  - intros Hpure. cbn [no_assign_no_func] in Hpure.
    apply andb_true_iff in Hpure as [Ht Hargs].
    assert (H0 : preserves_state
              (match args with a :: _ => eval a | _ => undefined world end)).
    { destruct args as [|a r]; [auto with frame|].
      simpl in Hargs. apply andb_true_iff in Hargs as [Ha _].
      inversion IH; auto. }
    assert (H1 : preserves_state
              (match args with
               | _ :: b :: _ => eval b
               | _ => undefined world
               end)).
    { destruct args as [|a [|b r]]; [auto with frame..|].
      simpl in Hargs. apply andb_true_iff in Hargs as [_ Hb].
      apply andb_true_iff in Hb as [Hb _].
      inversion IH as [|? ? _ IHr]; inversion IHr; auto. }
    cbn [expr_eval].
    destruct t; try discriminate Ht; auto 8 with frame.
  - intros _. apply preserves_ret.
  - intros _. apply preserves_load.
  - discriminate.
Qed.

(** C10. Frame property: a tree without [OP_ASSIGN] node and without
    [OP_FUNC] node, whenever it evaluates, leaves the state (every
    variable, and the host) exactly as it was. *)
Theorem eval_frame (e : expr) (st st' : state world) (v : float)
    (Hpure : no_assign_no_func e = true)
    (Hev : eval e st = Some (v, st')) :
  st' = st
  /\ forall h, var_read (st_vars st') h = var_read (st_vars st) h.
Proof.
  assert (st' = st) as -> by (eapply preserves_eval; eassumption).
  split; reflexivity.
Qed.

(** *** Values of the comparison and logical nodes *)

Lemma of_bool_canonical (b : bool) : of_bool b = zero \/ of_bool b = one.
Proof. destruct b; [right|left]; reflexivity. Qed.

(** C7, as the code has it. A comparison node and a [LogicalNot]
    node evaluate to exactly 0.0 or 1.0 whatever the values of the
    operands; a [LogicalAnd] node evaluates to 0.0 or to the value of
    its right operand, a [LogicalOr] node to 0.0 or to the value of
    one of its operands. *)
Theorem comparison_and_not_canonical :
  (forall t a b (st st1 st2 : state world) x y,
      is_comparison t = true ->
      eval a st = Some (x, st1) -> eval b st1 = Some (y, st2) ->
      exists c, (c = zero \/ c = one)
                /\ eval (Op t [a; b]) st = Some (c, st2))
  /\ (forall a (st st1 : state world) x,
         eval a st = Some (x, st1) ->
         exists c, (c = zero \/ c = one)
                   /\ eval (Op OP_UNARY_LOGICAL_NOT [a]) st = Some (c, st1))
  /\ (forall a b (st st' : state world) v,
         eval (Op OP_LOGICAL_AND [a; b]) st = Some (v, st') ->
         v = zero \/ exists st1, eval b st1 = Some (v, st'))
  /\ (forall a b (st st' : state world) v,
         eval (Op OP_LOGICAL_OR [a; b]) st = Some (v, st') ->
         v = zero \/ eval a st = Some (v, st')
         \/ exists st1, eval b st1 = Some (v, st')).
Proof.
  split; [|split; [|split]].
  - intros t a b st st1 st2 x y Ht Ha Hb.
    destruct t; try discriminate Ht;
      cbn [expr_eval]; unfold compare_op, bind, ret; rewrite Ha, Hb;
      eexists; (split; [apply of_bool_canonical | reflexivity]).
  - intros a st st1 x Ha. cbn [expr_eval]. unfold bind, ret. rewrite Ha.
    eexists; (split; [apply of_bool_canonical | reflexivity]).
  - intros a b st st' v. cbn [expr_eval]. unfold bind, ret.
    destruct (eval a st) as [[n st1]|] eqn:Ha; [|discriminate].
    destruct (ne n zero).
    + destruct (eval b st1) as [[m st2]|] eqn:Hb; [|discriminate].
      destruct (ne m zero); intros [= <- <-]; eauto.
    + intros [= <- <-]. auto.
  - intros a b st st' v. cbn [expr_eval]. unfold bind, ret.
    destruct (eval a st) as [[n st1]|] eqn:Ha; [|discriminate].
    destruct (ne n zero && negb (isnan n)).
    + intros [= <- <-]. auto.
    + destruct (eval b st1) as [[m st2]|] eqn:Hb; [|discriminate].
      destruct (ne m zero); intros [= <- <-]; eauto.
Qed.

(** *** The integer view *)

Lemma trunc_finite (s : bool) (m : positive) (e : Z) :
  (0 <= e -> trunc (S754_finite s m e) = cond_Zopp s (Zpos m * 2 ^ e))
  /\ (e < 0 ->
      trunc (S754_finite s m e) = Z.quot (cond_Zopp s (Zpos m)) (2 ^ (- e))).
Proof.
  split; intros He; unfold trunc.
  - destruct e as [|p|p]; try lia; rewrite Z.shiftl_mul_pow2; try lia;
      reflexivity.
  - destruct e as [|p|p]; try lia.
    rewrite Z.shiftr_div_pow2 by lia.
    change (- Z.neg p) with (Z.pos p).
    assert (Hpow : 0 < 2 ^ Z.pos p) by (apply Z.pow_pos_nonneg; lia).
    destruct s; simpl cond_Zopp.
    + change (Z.neg m) with (Z.opp (Z.pos m)).
      rewrite Z.quot_opp_l by lia.
      rewrite Z.quot_div_nonneg by lia. reflexivity.
    + rewrite Z.quot_div_nonneg by lia. reflexivity.
Qed.

(** C3, as the code has it. [to_int] maps NaN to 0, +infinity to
    [INT_MAX], -infinity to [-INT_MAX], and every other value whose
    integral part is an [int] to that part, the value rounded toward
    zero; the bitwise and shift nodes apply [to_int] to the value of
    each operand and operate on the two [int]s. *)
Theorem to_int_coercion :
  to_int nan = Some 0
  /\ to_int (S754_infinity false) = Some INT_MAX
  /\ to_int (S754_infinity true) = Some (- INT_MAX)
  /\ (forall sz, to_int (S754_zero sz) = Some 0)
  /\ (forall s m e,
         INT_MIN <= trunc (S754_finite s m e) <= INT_MAX ->
         to_int (S754_finite s m e) = Some (trunc (S754_finite s m e))
         /\ (0 <= e ->
             trunc (S754_finite s m e) = cond_Zopp s (Zpos m * 2 ^ e))
         /\ (e < 0 ->
             trunc (S754_finite s m e)
             = Z.quot (cond_Zopp s (Zpos m)) (2 ^ (- e))))
  /\ (forall t f a b (st st1 st2 : state world) x y,
         int_view_op t = Some f ->
         eval a st = Some (x, st1) -> eval b st1 = Some (y, st2) ->
         eval (Op t [a; b]) st =
           match to_int x, to_int y with
           | Some i, Some j => option_map (fun r => (of_int r, st2)) (f i j)
           | _, _ => None
           end)
  /\ (forall a (st st1 : state world) x,
         eval a st = Some (x, st1) ->
         eval (Op OP_UNARY_BITWISE_NOT [a]) st =
           option_map (fun i => (of_int (Z.lnot i), st1)) (to_int x)).
Proof.
  repeat split; try reflexivity.
  - unfold to_int, int_of_float, in_int. simpl isnan. simpl isinf.
    cbn [Z.eqb negb]. destruct H as [Hlo Hhi].
    apply Z.leb_le in Hlo. apply Z.leb_le in Hhi.
    rewrite Hlo, Hhi. reflexivity.
  - apply trunc_finite.
  - apply trunc_finite.
  - intros t f a b st st1 st2 x y Ht Ha Hb.
    destruct t; try discriminate Ht; injection Ht as <-;
      cbn [expr_eval]; unfold int_op, bind, lift, ret; rewrite Ha;
      (destruct (to_int x) as [i|]; [|reflexivity]); simpl; rewrite Hb;
      (destruct (to_int y) as [j|]; [|reflexivity]); simpl;
      try reflexivity;
      match goal with |- context [option_map _ ?o] => destruct o end;
      reflexivity.
  - intros a st st1 x Ha. cbn [expr_eval]. unfold bind, lift, ret.
    rewrite Ha. destruct (to_int x); reflexivity.
Qed.

End EvalProperties.

(** *** The evaluator on concrete trees *)

Lemma logical_and_short_circuit_witness :
  (eval0 (Const zero) st_b0 = Some (zero, st_b0)
   /\ eval0 (Op OP_LOGICAL_AND [Const zero; set_b]) st_b0
      = Some (zero, st_b0))
  /\ (eval0 (Const one) st_b0 = Some (one, st_b0)
      /\ eval0 (Op OP_LOGICAL_AND [Const one; set_b]) st_b0
         = Some (one, st_b1)).
Proof.
  split; (split; [reflexivity|]).
  - exact (logical_and_short_circuit unit powf_small no_fmodf no_call
             (Const zero) set_b st_b0 st_b0 zero eq_refl).
  - exact (logical_and_short_circuit unit powf_small no_fmodf no_call
             (Const one) set_b st_b0 st_b0 one eq_refl).
Defined.

Lemma logical_or_nan_guard_witness :
  (eval0 (Const one) st_b0 = Some (one, st_b0)
   /\ eval0 (Op OP_LOGICAL_OR [Const one; set_b]) st_b0 = Some (one, st_b0))
  /\ (eval0 (Const nan) st_b0 = Some (nan, st_b0)
      /\ eval0 (Op OP_LOGICAL_OR [Const nan; set_b]) st_b0
         = Some (one, st_b1)).
Proof.
  split; (split; [reflexivity|]).
  - exact (logical_or_nan_guard unit powf_small no_fmodf no_call
             (Const one) set_b st_b0 st_b0 one eq_refl).
  - exact (logical_or_nan_guard unit powf_small no_fmodf no_call
             (Const nan) set_b st_b0 st_b0 nan eq_refl).
Defined.

Lemma assign_stores_and_returns_witness :
  eval0 y_plus_4 st_xy = Some (of_int 5, st_xy)
  /\ var_read (st_vars st_xy) 1%nat <> None
  /\ exists st2,
       eval0 (Op OP_ASSIGN [Var 1%nat; y_plus_4]) st_xy = Some (of_int 5, st2)
       /\ var_read (st_vars st2) 1%nat = Some (of_int 5)
       /\ (forall h', h' <> 1%nat ->
             var_read (st_vars st2) h' = var_read (st_vars st_xy) h')
       /\ st_world st2 = st_world st_xy.
Proof.
  assert (Hrhs : eval0 y_plus_4 st_xy = Some (of_int 5, st_xy))
    by reflexivity.
  assert (Hlive : var_read (st_vars st_xy) 1%nat <> None) by discriminate.
  split; [exact Hrhs|]. split; [exact Hlive|].
  exact (assign_stores_and_returns unit powf_small no_fmodf no_call
           1%nat y_plus_4 st_xy st_xy (of_int 5) Hrhs Hlive).
Defined.

Lemma eval_frame_witness :
  no_assign_no_func pure_tree = true
  /\ eval0 pure_tree st_xy = Some (of_int 2, st_xy)
  /\ (st_xy = st_xy
      /\ forall h, var_read (st_vars st_xy) h = var_read (st_vars st_xy) h).
Proof.
  assert (Hpure : no_assign_no_func pure_tree = true) by reflexivity.
  assert (Hev : eval0 pure_tree st_xy = Some (of_int 2, st_xy))
    by reflexivity.
  split; [exact Hpure|]. split; [exact Hev|].
  exact (eval_frame unit powf_small no_fmodf no_call pure_tree st_xy st_xy
           (of_int 2) Hpure Hev).
Defined.

Lemma comparison_and_not_canonical_witness :
  is_comparison OP_GE = true
  /\ eval0 (Const (of_int 3)) st_empty = Some (of_int 3, st_empty)
  /\ exists c, (c = zero \/ c = one)
               /\ eval0 (Op OP_GE [Const (of_int 3); Const (of_int 3)])
                    st_empty
                  = Some (c, st_empty).
Proof.
  split; [reflexivity|]. split; [reflexivity|].
  exact (proj1 (comparison_and_not_canonical unit powf_small no_fmodf no_call)
           OP_GE (Const (of_int 3)) (Const (of_int 3))
           st_empty st_empty st_empty
           (of_int 3) (of_int 3) eq_refl eq_refl eq_refl).
Defined.

(** C7 as stated fails: [1 && 2] evaluates to 2.0, the value of the
    right operand, neither 0.0 nor 1.0. *)
Lemma logical_and_not_canonical :
  eval0 (Op OP_LOGICAL_AND [Const one; Const (of_int 2)]) st_empty
    = Some (of_int 2, st_empty)
  /\ of_int 2 <> zero /\ of_int 2 <> one.
Proof. repeat split; discriminate. Qed.

Lemma to_int_coercion_witness :
  INT_MIN <= trunc (neg (expr_parse_number "2.75")) <= INT_MAX
  /\ to_int (neg (expr_parse_number "2.75")) = Some (-2)
  /\ eval0 (Op OP_BITWISE_AND [Const (of_int 5); Const (of_int 3)]) st_empty
     = Some (one, st_empty).
Proof.
  split; [vm_compute; split; discriminate|].
  split.
  - refine (proj1 (proj1 (proj2 (proj2 (proj2 (proj2
              (to_int_coercion unit powf_small no_fmodf no_call)))))
              true 11534336%positive (-22) _)).
    vm_compute; split; discriminate.
  - exact (proj1 (proj2 (proj2 (proj2 (proj2 (proj2
             (to_int_coercion unit powf_small no_fmodf no_call))))))
             OP_BITWISE_AND _ (Const (of_int 5)) (Const (of_int 3))
             st_empty st_empty st_empty
             (of_int 5) (of_int 3) eq_refl eq_refl eq_refl).
Defined.

(** C3 as stated fails at -infinity: [INT_MAX * isinf(x)] is
    [-INT_MAX], one above [INT_MIN]. *)
Lemma to_int_neg_infinity :
  to_int (S754_infinity true) = Some (-2147483647)
  /\ to_int (S754_infinity true) <> Some INT_MIN.
Proof. split; [reflexivity | discriminate]. Qed.

(** ** Compiling and evaluating [2**3**2] *)

(** C5. Exponentiation is right-associative and binds tighter than
    addition.  In the operator loop, whatever the stacks hold below, a
    second [**] is pushed over a [**] and a [**] over a [+], while a
    [+] first binds the [**] on top of the stack to its two operands.
    So ["2**3**2"] compiles against the empty environment to
    [2**(3**2)], ["2**3+1"] to [(2**3)+1], ["1+2**3"] to [1+(2**3)],
    and ["1+2**3**2"] and ["2**3**2+1"] to the sums of 1 and
    [2**(3**2)], none creating a variable; with a [powf] that has
    [powf(3,2) = 9] and [powf(2,9) = 512] the first tree evaluates to
    512 and the last two to 513, leaving the environment empty. *)
Theorem power_right_assoc_512 (world : Type)
    (powf fmodf : float -> float -> float)
    (call : expr_func_desc -> list expr -> option nat -> M world float)
    (w : world)
    (H32 : powf (of_int 3) (of_int 2) = of_int 9)
    (H29 : powf (of_int 2) (of_int 9) = of_int 512) :
  expr_prec OP_POWER OP_POWER = false
  /\ expr_prec OP_PLUS OP_POWER = true
  /\ (exists tree,
       expr_create "2**3**2" [] [] = Some (mk_compiled (Some tree) [])
       /\ tree = Op OP_POWER [Const (of_int 2);
                              Op OP_POWER [Const (of_int 3); Const (of_int 2)]]
       /\ expr_eval world powf fmodf call tree (mk_state [] w)
          = Some (of_int 512, mk_state [] w))
  /\ expr_prec OP_POWER OP_PLUS = false
  /\ (forall below es as_ vars,
        push_operator "**" OP_POWER ("**"%string :: below) es as_ vars
        = Go (es, "**"%string :: "**"%string :: below, as_))
  /\ (forall below es as_ vars,
        push_operator "**" OP_POWER ("+"%string :: below) es as_ vars
        = Go (es, "**"%string :: "+"%string :: below, as_))
  /\ (forall below a b es as_ vars,
        push_operator "+" OP_PLUS ("**"%string :: below) (b :: a :: es) as_
          vars
        = push_operator "+" OP_PLUS below (Op OP_POWER [a; b] :: es) as_
            vars)
  /\ expr_create "2**3+1" [] []
     = Some (mk_compiled
               (Some (Op OP_PLUS
                        [Op OP_POWER [Const (of_int 2); Const (of_int 3)];
                         Const (of_int 1)])) [])
  /\ expr_create "1+2**3" [] []
     = Some (mk_compiled
               (Some (Op OP_PLUS
                        [Const (of_int 1);
                         Op OP_POWER [Const (of_int 2); Const (of_int 3)]]))
               [])
  /\ (exists tree,
       expr_create "1+2**3**2" [] [] = Some (mk_compiled (Some tree) [])
       /\ tree = Op OP_PLUS
                   [Const (of_int 1);
                    Op OP_POWER
                      [Const (of_int 2);
                       Op OP_POWER [Const (of_int 3); Const (of_int 2)]]]
       /\ expr_eval world powf fmodf call tree (mk_state [] w)
          = Some (of_int 513, mk_state [] w))
  /\ (exists tree,
       expr_create "2**3**2+1" [] [] = Some (mk_compiled (Some tree) [])
       /\ tree = Op OP_PLUS
                   [Op OP_POWER
                      [Const (of_int 2);
                       Op OP_POWER [Const (of_int 3); Const (of_int 2)]];
                    Const (of_int 1)]
       /\ expr_eval world powf fmodf call tree (mk_state [] w)
          = Some (of_int 513, mk_state [] w)).
Proof.
  split; [reflexivity|]. split; [reflexivity|].
  vm_compute in H32, H29.
  split.
  { eexists. split; [vm_compute; reflexivity|]. split; [reflexivity|].
    cbn [expr_eval]. unfold float_op, bind, ret.
    vm_compute (S754_finite _ _ _).
    rewrite H32, H29. reflexivity. }
  split; [reflexivity|].
  split; [intros below es as_ vars; reflexivity|].
  split; [intros below es as_ vars; reflexivity|].
  split; [intros below a b es as_ vars; reflexivity|].
  split; [vm_compute; reflexivity|].
  split; [vm_compute; reflexivity|].
  split.
  { eexists. split; [vm_compute; reflexivity|]. split; [reflexivity|].
    cbn [expr_eval]. unfold float_op, bind, ret.
    vm_compute (S754_finite _ _ _).
    rewrite H32, H29. reflexivity. }
  eexists. split; [vm_compute; reflexivity|]. split; [reflexivity|].
  cbn [expr_eval]. unfold float_op, bind, ret.
  vm_compute (S754_finite _ _ _).
  rewrite H32, H29. reflexivity.
Qed.

Lemma power_right_assoc_512_witness :
  powf_small (of_int 3) (of_int 2) = of_int 9
  /\ powf_small (of_int 2) (of_int 9) = of_int 512
  /\ (exists tree,
       expr_create "2**3**2" [] [] = Some (mk_compiled (Some tree) [])
       /\ tree = Op OP_POWER [Const (of_int 2);
                              Op OP_POWER [Const (of_int 3); Const (of_int 2)]]
       /\ eval0 tree st_empty = Some (of_int 512, st_empty))
  /\ exists tree,
       expr_create "2**3**2+1" [] [] = Some (mk_compiled (Some tree) [])
       /\ tree = Op OP_PLUS
                   [Op OP_POWER
                      [Const (of_int 2);
                       Op OP_POWER [Const (of_int 3); Const (of_int 2)]];
                    Const (of_int 1)]
       /\ eval0 tree st_empty = Some (of_int 513, st_empty).
Proof.
  assert (H32 : powf_small (of_int 3) (of_int 2) = of_int 9) by reflexivity.
  assert (H29 : powf_small (of_int 2) (of_int 9) = of_int 512) by reflexivity.
  split; [exact H32|]. split; [exact H29|].
  pose proof (power_right_assoc_512 unit powf_small no_fmodf no_call
                tt H32 H29) as H.
  split; [exact (proj1 (proj2 (proj2 H)))|].
  exact (proj2 (proj2 (proj2 (proj2 (proj2 (proj2 (proj2 (proj2 (proj2
           (proj2 H)))))))))).
Defined.

(** ** The tokenizer *)

Lemma span_take_all p s : all_chars p (take (span p s) s) = true.
Proof.
  induction s as [|c r IH]; simpl; [reflexivity|].
  destruct (p c) eqn:E; simpl; [now rewrite E|reflexivity].
Qed.

Lemma span_drop_stops p s c r :
  drop (span p s) s = String c r -> p c = false.
Proof.
  induction s as [|d t IH]; simpl; [discriminate|].
  destruct (p d) eqn:E; simpl; [exact IH|].
  intros [= <- _]. exact E.
Qed.

Lemma span_le_length p s : (span p s <= String.length s)%nat.
Proof.
  induction s as [|c r IH]; simpl; [lia|]. destruct (p c); lia.
Qed.

Lemma take_length n s :
  (n <= String.length s)%nat -> String.length (take n s) = n.
Proof.
  revert s. induction n as [|n IH]; intros [|c r]; simpl; try lia.
  intros H. rewrite IH; lia.
Qed.

Lemma has_flag_clear flags bit : has_flag (clear_flag flags bit) bit = false.
Proof.
  unfold has_flag, clear_flag.
  rewrite <- Z.land_assoc, (Z.land_comm (Z.lnot bit)), Z.land_lnot_diag.
  rewrite Z.land_0_r. reflexivity.
Qed.

(** C6, as the code has it. On a newline with [EXPR_TOP] set the
    tokenizer swallows the white space that follows; if the next byte
    is the end of the input or a closing paren it clears [EXPR_COMMA],
    otherwise it resets the flags to number, word, open paren and
    [EXPR_COMMA], so that the bit is set exactly in the second case;
    without [EXPR_TOP] the flags are kept.  The compiler replaces a
    newline token by a comma of length 1 exactly when [EXPR_COMMA] is
    set, and clears the bit. *)
Theorem newline_comma_mechanism :
  (forall rest flags,
      has_flag flags EXPR_TOP = true ->
      let s := String Chr.newline rest in
      let i := span Chr.isspace s in
      (1 <= i)%nat
      /\ all_chars Chr.isspace (take i s) = true
      /\ (forall c r, drop i s = String c r -> Chr.isspace c = false)
      /\ expr_next_token s flags
         = (Z.of_nat i,
            if at_end_or_close (drop i s) then clear_flag flags EXPR_COMMA
            else flag_or [EXPR_TNUMBER; EXPR_TWORD; EXPR_TOPEN; EXPR_COMMA])
      /\ has_flag (snd (expr_next_token s flags)) EXPR_COMMA
         = negb (at_end_or_close (drop i s)))
  /\ (forall rest flags,
         has_flag flags EXPR_TOP = false ->
         let s := String Chr.newline rest in
         expr_next_token s flags = (Z.of_nat (span Chr.isspace s), flags))
  /\ (forall tok flags,
         starts_with Chr.newline tok = true ->
         (has_flag flags EXPR_COMMA = true ->
          newline_comma tok flags = (","%string, clear_flag flags EXPR_COMMA)
          /\ String.length "," = 1%nat
          /\ has_flag (clear_flag flags EXPR_COMMA) EXPR_COMMA = false)
         /\ (has_flag flags EXPR_COMMA = false ->
             newline_comma tok flags = (tok, flags))).
Proof.
  split; [|split].
  - intros rest flags Htop s i.
    assert (Htok : expr_next_token s flags
                   = (Z.of_nat i,
                      if at_end_or_close (drop i s)
                      then clear_flag flags EXPR_COMMA
                      else flag_or [EXPR_TNUMBER; EXPR_TWORD; EXPR_TOPEN;
                                    EXPR_COMMA])).
    { unfold expr_next_token, s. change (Ascii.eqb Chr.newline "#") with false.
      rewrite Ascii.eqb_refl. cbv iota. rewrite Htop. fold s. fold i.
      unfold at_end_or_close. destruct (drop i s) as [|d r]; [reflexivity|].
      destruct (Ascii.eqb d ")"); reflexivity. }
    split; [unfold i, s; simpl; lia|].
    split; [apply span_take_all|].
    split; [intros c r; apply span_drop_stops|].
    split; [exact Htok|].
    rewrite Htok. cbn [snd].
    destruct (at_end_or_close (drop i s)); [apply has_flag_clear|reflexivity].
  - intros rest flags Htop s. unfold expr_next_token, s.
    change (Ascii.eqb Chr.newline "#") with false.
    rewrite Ascii.eqb_refl. cbv iota. rewrite Htop. reflexivity.
  - intros tok flags Hnl. unfold newline_comma. rewrite Hnl. split.
    + intros ->. split; [reflexivity|]. split; [reflexivity|].
      apply has_flag_clear.
    + intros ->. reflexivity.
Qed.

Lemma newline_comma_mechanism_witness :
  has_flag 5 EXPR_TOP = true
  /\ expr_next_token newline_space_assign 5 = (2, 90)
  /\ has_flag 90 EXPR_COMMA = true
  /\ newline_comma (take 2 newline_space_assign) 90 = (","%string, 26).
Proof.
  split; [reflexivity|].
  destruct (proj1 newline_comma_mechanism (String " " "b=2") 5 eq_refl)
    as (_ & _ & _ & Htok & _).
  split; [exact Htok|]. split; [reflexivity|].
  exact (proj1 (proj1 (proj2 (proj2 newline_comma_mechanism)
                         (take 2 newline_space_assign) 90 eq_refl) eq_refl)).
Defined.

(** C6 as stated fails: before a byte that is neither the end of the
    input nor a closing paren the tokenizer sets [EXPR_COMMA] instead
    of clearing it, and the compiler injects the comma for a newline
    token when the bit is set, not when it is clear. *)
Lemma newline_sets_comma_bit :
  has_flag (flag_or [EXPR_TOP; EXPR_TCLOSE]) EXPR_TOP = true
  /\ at_end_or_close
       (drop (span Chr.isspace newline_then_operand) newline_then_operand)
     = false
  /\ has_flag
       (snd (expr_next_token newline_then_operand
               (flag_or [EXPR_TOP; EXPR_TCLOSE]))) EXPR_COMMA = true
  /\ has_flag (flag_or [EXPR_TOP; EXPR_TCLOSE]) EXPR_COMMA = false
  /\ fst (newline_comma newline_token (flag_or [EXPR_TOP; EXPR_TCLOSE]))
     <> ","%string
  /\ fst (newline_comma newline_token
            (snd (expr_next_token newline_then_operand
                    (flag_or [EXPR_TOP; EXPR_TCLOSE])))) = ","%string.
Proof. repeat split; discriminate. Qed.

(** *** The cases of the tokenizer *)

Ltac each_byte c :=
  destruct c as [[] [] [] [] [] [] [] []].

Lemma lex_class_spec (c : ascii) :
  Chr.isdigit c = lex_class_eqb (lex_class_of c) L_digit
  /\ Chr.isfirstvarchr c = lex_class_eqb (lex_class_of c) L_word
  /\ Ascii.eqb c "(" = lex_class_eqb (lex_class_of c) L_open
  /\ Ascii.eqb c ")" = lex_class_eqb (lex_class_of c) L_close
  /\ is_operator_start c = lex_class_eqb (lex_class_of c) L_operator.
Proof. each_byte c; vm_compute; repeat split. Qed.

Lemma lex_class_first (c : ascii) :
  match lex_class_of c with
  | L_comment => negb (Ascii.eqb c Chr.newline) = true
  | L_newline => Chr.isspace c = true
  | L_space => Chr.isspace c && negb (Ascii.eqb c Chr.newline) = true
  | L_digit => Ascii.eqb c "." || Chr.isdigit c = true
  | L_word => Chr.isvarchr c = true
  | _ => True
  end.
Proof. each_byte c; vm_compute; auto. Qed.

Lemma unary_operator_bytes (c : ascii) :
  expr_type_eqb (expr_op (String c EmptyString) 1) OP_UNKNOWN
  = negb (Ascii.eqb c "-" || Ascii.eqb c "!" || Ascii.eqb c "^").
Proof. each_byte c; vm_compute; reflexivity. Qed.

Lemma next_token_by_class (c : ascii) (rest : string) (flags : Z) :
  let s := String c rest in
  fst (expr_next_token s flags) =
    match lex_class_of c with
    | L_comment =>
        Z.of_nat (span (fun d => negb (Ascii.eqb d Chr.newline)) s)
    | L_newline => Z.of_nat (span Chr.isspace s)
    | L_space =>
        Z.of_nat
          (span (fun d => Chr.isspace d && negb (Ascii.eqb d Chr.newline)) s)
    | L_digit =>
        if has_flag flags EXPR_TNUMBER
        then Z.of_nat (span (fun d => Ascii.eqb d "." || Chr.isdigit d) s)
        else -1
    | L_word =>
        if has_flag flags EXPR_TWORD then Z.of_nat (span Chr.isvarchr s)
        else -2
    | L_open => if has_flag flags EXPR_TOPEN then 1 else -3
    | L_close => if has_flag flags EXPR_TCLOSE then 1 else -3
    | L_operator =>
        if has_flag flags EXPR_TOP then
          if snd (operator_scan s s 0 false)
          then Z.of_nat (fst (operator_scan s s 0 false))
          else -5
        else if expr_type_eqb (expr_op (String c EmptyString) 1) OP_UNKNOWN
             then -4
             else 1
    end.
Proof.
  intros s. unfold expr_next_token, lex_class_of, s.
  destruct (Ascii.eqb c "#"); [reflexivity|].
  destruct (Ascii.eqb c Chr.newline); [reflexivity|].
  destruct (Chr.isspace c); [reflexivity|].
  destruct (Chr.isdigit c);
    [destruct (has_flag flags EXPR_TNUMBER); reflexivity|].
  destruct (Chr.isfirstvarchr c);
    [destruct (has_flag flags EXPR_TWORD); reflexivity|].
  destruct (Ascii.eqb c "(") eqn:Eo.
  { cbn [orb andb]. destruct (has_flag flags EXPR_TOPEN); [reflexivity|].
    apply Ascii.eqb_eq in Eo. subst c. reflexivity. }
  destruct (Ascii.eqb c ")").
  { cbn [orb andb]. destruct (has_flag flags EXPR_TCLOSE); reflexivity. }
  cbn [orb andb]. destruct (has_flag flags EXPR_TOP); cbn [negb].
  - destruct (operator_scan (String c rest) (String c rest) 0 false)
      as [i found]. destruct found; reflexivity.
  - destruct (expr_type_eqb (expr_op (String c EmptyString) 1) OP_UNKNOWN);
      reflexivity.
Qed.

Lemma span_first p c rest :
  p c = true -> (1 <= span p (String c rest))%nat.
Proof. intros H. simpl. rewrite H. lia. Qed.

(** What the operator loop found, and where it stopped. *)
Lemma operator_scan_bounds s rest i found :
  (i <= fst (operator_scan s rest i found) <= i + String.length rest)%nat.
Proof.
  revert i found.
  induction rest as [|c r IH]; intros i found;
    cbn [operator_scan String.length fst]; [lia|].
  destruct (ends_operator c); cbn [fst]; [lia|].
  destruct (negb (expr_type_eqb (expr_op (take (S i) s) 0) OP_UNKNOWN)).
  - specialize (IH (S i) true). lia.
  - destruct found; cbn [fst]; [lia|]. specialize (IH (S i) false). lia.
Qed.

Lemma operator_scan_found_stays s rest i :
  snd (operator_scan s rest i true) = true.
Proof.
  revert i.
  induction rest as [|c r IH]; intros i; cbn [operator_scan snd];
    [reflexivity|].
  destruct (ends_operator c); [reflexivity|].
  destruct (negb (expr_type_eqb (expr_op (take (S i) s) 0) OP_UNKNOWN));
    [apply IH|reflexivity].
Qed.

Lemma operator_scan_advances s rest i :
  snd (operator_scan s rest i false) = true ->
  (i < fst (operator_scan s rest i false))%nat.
Proof.
  revert i.
  induction rest as [|c r IH]; intros i; cbn [operator_scan snd fst];
    [discriminate|].
  destruct (ends_operator c); cbn [snd fst]; [discriminate|].
  destruct (negb (expr_type_eqb (expr_op (take (S i) s) 0) OP_UNKNOWN)).
  - intros _. pose proof (operator_scan_bounds s r (S i) true). lia.
  - intros H. apply IH in H. lia.
Qed.

Lemma operator_scan_not_found s rest i :
  snd (operator_scan s rest i false) = false <->
  forall k, (i < k <= i + operator_run rest)%nat ->
            expr_op (take k s) 0 = OP_UNKNOWN.
Proof.
  revert i. unfold operator_run.
  induction rest as [|c r IH]; intros i; cbn [operator_scan span snd].
  - split; [intros _ k Hk; lia | reflexivity].
  - destruct (ends_operator c); cbn [negb snd].
    + split; [intros _ k Hk; lia | reflexivity].
    + destruct (expr_type_eqb (expr_op (take (S i) s) 0) OP_UNKNOWN) eqn:E;
        cbn [negb].
      * rewrite IH. split.
        -- intros H k Hk. destruct (Nat.eq_dec k (S i)) as [->|Hne].
           ++ destruct (expr_op (take (S i) s) 0); try discriminate E;
                reflexivity.
           ++ apply H. lia.
        -- intros H k Hk. apply H. lia.
      * rewrite operator_scan_found_stays. split; [discriminate|].
        intros H. specialize (H (S i) ltac:(lia)). rewrite H in E.
        discriminate.
Qed.

Lemma operator_scan_known s rest i found :
  (found = true -> expr_op (take i s) 0 <> OP_UNKNOWN) ->
  snd (operator_scan s rest i found) = true ->
  expr_op (take (fst (operator_scan s rest i found)) s) 0 <> OP_UNKNOWN
  /\ (fst (operator_scan s rest i found) = (i + operator_run rest)%nat
      \/ expr_op (take (S (fst (operator_scan s rest i found))) s) 0
         = OP_UNKNOWN).
Proof.
  revert i found. unfold operator_run.
  induction rest as [|c r IH]; intros i found Hknown;
    cbn [operator_scan span fst snd].
  - intros ->. split; [auto | left; lia].
  - destruct (ends_operator c); cbn [negb fst snd].
    + intros ->. split; [auto | left; lia].
    + destruct (expr_type_eqb (expr_op (take (S i) s) 0) OP_UNKNOWN) eqn:E;
        cbn [negb].
      * destruct found; cbn [fst snd].
        -- intros _. split; [auto|]. right.
           destruct (expr_op (take (S i) s) 0); try discriminate E;
             reflexivity.
        -- intros Hf. destruct (IH (S i) false ltac:(discriminate) Hf)
             as [H1 H2].
           split; [exact H1|]. destruct H2 as [H2|H2]; [left; lia | now right].
      * intros Hf.
        assert (Hk : true = true -> expr_op (take (S i) s) 0 <> OP_UNKNOWN).
        { intros _ Hu. rewrite Hu in E. discriminate. }
        destruct (IH (S i) true Hk Hf) as [H1 H2].
        split; [exact H1|]. destruct H2 as [H2|H2]; [left; lia | now right].
Qed.

Lemma operator_scan_within s rest i found :
  (fst (operator_scan s rest i found) <= i + operator_run rest)%nat.
Proof.
  revert i found. unfold operator_run.
  induction rest as [|c r IH]; intros i found; cbn [operator_scan span fst];
    [lia|].
  destruct (ends_operator c); cbn [negb fst]; [lia|].
  destruct (negb (expr_type_eqb (expr_op (take (S i) s) 0) OP_UNKNOWN)).
  - specialize (IH (S i) true). lia.
  - destruct found; cbn [fst]; [lia|]. specialize (IH (S i) false). lia.
Qed.

Lemma ascii_eqb_false_ne (c d : ascii) : Ascii.eqb c d = false -> c <> d.
Proof. apply Ascii.eqb_neq. Qed.

Lemma ascii_eqb_true_eq (c d : ascii) : Ascii.eqb c d = true -> c = d.
Proof. apply Ascii.eqb_eq. Qed.

(** C8. The codes of the tokenizer: 0 exactly on the empty buffer;
    otherwise the length of the lexeme, at least 1 and within the
    buffer, or one of five negative codes.  The lexeme is selected by
    the first byte: a comment up to the end of its line, a run of
    spaces from a newline on, a run of spaces other than newline, the
    run of digits and dots, the run of bytes of a word, one paren, one
    unary operator byte when an operand is expected, and otherwise the
    prefix at which the operator loop stops, which spells a binary
    operator, lies within the run of operator bytes and is that whole
    run unless one more byte spells no operator; in each of the last
    five cases a code is returned instead when the flags forbid the
    lexeme or the loop finds no operator.  The codes are -1 exactly
    for a digit when
    [EXPR_TNUMBER] is clear, -2 exactly for a first byte of a word when
    [EXPR_TWORD] is clear, -3 exactly for an open paren when
    [EXPR_TOPEN] is clear or a closing one when [EXPR_TCLOSE] is clear,
    -4 exactly for an operator byte when [EXPR_TOP] is clear and the
    byte is none of the unary operators [-], [!] and [^], and -5 exactly
    for an operator byte when [EXPR_TOP] is set and no prefix of the
    run of operator bytes is a known binary operator. *)
Theorem tokenizer_codes :
  (forall flags, fst (expr_next_token EmptyString flags) = 0)
  /\ forall c rest flags,
       let s := String c rest in
       let r := fst (expr_next_token s flags) in
       r <> 0
       /\ -5 <= r <= Z.of_nat (String.length s)
       /\ (0 < r -> String.length (take (Z.to_nat r) s) = Z.to_nat r)
       /\ r = match lex_class_of c with
              | L_comment =>
                  Z.of_nat (span (fun d => negb (Ascii.eqb d Chr.newline)) s)
              | L_newline => Z.of_nat (span Chr.isspace s)
              | L_space =>
                  Z.of_nat
                    (span (fun d => Chr.isspace d
                                    && negb (Ascii.eqb d Chr.newline)) s)
              | L_digit =>
                  if has_flag flags EXPR_TNUMBER
                  then Z.of_nat
                         (span (fun d => Ascii.eqb d "." || Chr.isdigit d) s)
                  else -1
              | L_word =>
                  if has_flag flags EXPR_TWORD
                  then Z.of_nat (span Chr.isvarchr s)
                  else -2
              | L_open => if has_flag flags EXPR_TOPEN then 1 else -3
              | L_close => if has_flag flags EXPR_TCLOSE then 1 else -3
              | L_operator =>
                  if has_flag flags EXPR_TOP then
                    if snd (operator_scan s s 0 false)
                    then Z.of_nat (fst (operator_scan s s 0 false))
                    else -5
                  else if expr_type_eqb
                            (expr_op (String c EmptyString) 1) OP_UNKNOWN
                       then -4
                       else 1
              end
       /\ (is_operator_start c = true -> has_flag flags EXPR_TOP = true ->
           0 < r ->
           expr_op (take (Z.to_nat r) s) 0 <> OP_UNKNOWN
           /\ (Z.to_nat r <= operator_run s)%nat
           /\ (Z.to_nat r = operator_run s
               \/ expr_op (take (S (Z.to_nat r)) s) 0 = OP_UNKNOWN))
       /\ (r = -1 <->
           Chr.isdigit c = true /\ has_flag flags EXPR_TNUMBER = false)
       /\ (r = -2 <->
           Chr.isfirstvarchr c = true /\ has_flag flags EXPR_TWORD = false)
       /\ (r = -3 <->
           (c = "("%char /\ has_flag flags EXPR_TOPEN = false)
           \/ (c = ")"%char /\ has_flag flags EXPR_TCLOSE = false))
       /\ (r = -4 <->
           is_operator_start c = true /\ has_flag flags EXPR_TOP = false
           /\ c <> "-"%char /\ c <> "!"%char /\ c <> "^"%char)
       /\ (r = -5 <->
           is_operator_start c = true /\ has_flag flags EXPR_TOP = true
           /\ forall k, (1 <= k <= operator_run s)%nat ->
                        expr_op (take k s) 0 = OP_UNKNOWN).
Proof.
  split; [reflexivity|]. intros c rest flags s r.
  pose proof (next_token_by_class c rest flags) as Hr.
  cbv zeta in Hr. fold s in Hr. fold r in Hr. clearbody r.
  assert (Hlen : forall p, p c = true ->
            (1 <= span p s <= String.length s)%nat).
  { intros p Hp. split; [now apply span_first | apply span_le_length]. }
  pose proof (lex_class_first c) as Hfirst.
  assert (Hbound : -5 <= r <= Z.of_nat (String.length s) /\ r <> 0).
  { pose proof (operator_scan_bounds s s 0 false) as Hb.
    pose proof (operator_scan_advances s s 0) as Hadv.
    assert (1 <= String.length s)%nat by (unfold s; simpl; lia).
    destruct (lex_class_of c);
      try match type of Hr with
          | context [span ?p s] => specialize (Hlen p Hfirst)
          end;
      repeat match type of Hr with
             | context [if ?b then _ else _] => destruct b eqn:?
             end;
      try (specialize (Hadv eq_refl)); lia. }
  destruct Hbound as [Hbound Hnz].
  split; [exact Hnz|]. split; [exact Hbound|].
  split; [intros Hpos; apply take_length; lia|].
  split; [exact Hr|].
  pose proof (lex_class_spec c) as (Hd & Hw & Ho & Hc & Hop).
  split.
  { intros Hstart Htop Hpos. rewrite Hop in Hstart.
    destruct (lex_class_of c); try discriminate Hstart.
    rewrite Htop in Hr.
    destruct (snd (operator_scan s s 0 false)) eqn:Efound; [|lia].
    rewrite Hr, Nat2Z.id.
    destruct (operator_scan_known s s 0 false ltac:(discriminate) Efound)
      as [Hknown Hgreedy].
    split; [exact Hknown|].
    split; [exact (operator_scan_within s s 0 false) | exact Hgreedy]. }
  pose proof (unary_operator_bytes c) as Hun.
  pose proof (operator_scan_not_found s s 0) as Hscan.
  assert (Hpos : forall p, p c = true -> 0 < Z.of_nat (span p s)).
  { intros p Hp. specialize (Hlen p Hp). lia. }
  rewrite Hd, Hw, Hop. clear Hd Hw Hop Hlen Hbound Hnz.
  destruct (lex_class_of c) eqn:E; cbn [lex_class_eqb] in *.
  all: try match type of Hr with
           | context [span ?p _] => specialize (Hpos p Hfirst)
           end.
  all: try (apply ascii_eqb_false_ne in Ho).
  all: try (apply ascii_eqb_false_ne in Hc).
  all: try (apply ascii_eqb_true_eq in Ho).
  all: try (apply ascii_eqb_true_eq in Hc).
  all: repeat match type of Hr with
              | context [if ?b then _ else _] => destruct b eqn:?
              end.
  all: repeat split; intros; try lia; try discriminate; try tauto.
  all: try (intuition (try discriminate; try congruence; try lia); fail).
  - apply (proj1 Hscan eq_refl). lia.
  - symmetry in Hun. apply negb_true_iff in Hun.
    apply orb_false_iff in Hun as [Hun _].
    apply orb_false_iff in Hun as [Hun _].
    now apply Ascii.eqb_neq.
  - symmetry in Hun. apply negb_true_iff in Hun.
    apply orb_false_iff in Hun as [Hun _].
    apply orb_false_iff in Hun as [_ Hun].
    now apply Ascii.eqb_neq.
  - symmetry in Hun. apply negb_true_iff in Hun.
    apply orb_false_iff in Hun as [_ Hun].
    now apply Ascii.eqb_neq.
  - symmetry in Hun. apply negb_false_iff in Hun.
    destruct H as (_ & _ & Hm & Hb & Hx).
    apply orb_true_iff in Hun as [Hun|Hun];
      [apply orb_true_iff in Hun as [Hun|Hun]|];
      apply Ascii.eqb_eq in Hun; contradiction.
Qed.

Lemma tokenizer_codes_witness :
  fst (expr_next_token "123+4" EXPR_TDEFAULT) = 3
  /\ fst (expr_next_token "<=2" EXPR_TOP) = 2
  /\ expr_op "<=" 0 <> OP_UNKNOWN
  /\ fst (expr_next_token "7" EXPR_TOP) = -1
  /\ fst (expr_next_token "x" EXPR_TOP) = -2
  /\ fst (expr_next_token ")" EXPR_TDEFAULT) = -3
  /\ fst (expr_next_token "*2" EXPR_TDEFAULT) = -4
  /\ fst (expr_next_token "~~" EXPR_TOP) <> -5
  /\ fst (expr_next_token "!!2" EXPR_TOP) = -5.
Proof.
  pose proof (proj2 tokenizer_codes) as H.
  split; [exact (proj1 (proj2 (proj2 (proj2
            (H "1"%char "23+4"%string EXPR_TDEFAULT))))) |].
  split; [exact (proj1 (proj2 (proj2 (proj2
            (H "<"%char "=2"%string EXPR_TOP))))) |].
  split; [exact (proj1 (proj1 (proj2 (proj2 (proj2 (proj2
            (H "<"%char "=2"%string EXPR_TOP)))))
            eq_refl eq_refl eq_refl)) |].
  split; [apply (H "7"%char EmptyString EXPR_TOP); split; reflexivity|].
  split; [apply (H "x"%char EmptyString EXPR_TOP); split; reflexivity|].
  split; [apply (H ")"%char EmptyString EXPR_TDEFAULT); right; split;
          reflexivity|].
  split; [apply (H "*"%char "2"%string EXPR_TDEFAULT);
          repeat split; discriminate|].
  split; [discriminate|].
  apply (H "!"%char "!2"%string EXPR_TOP).
  split; [reflexivity|]. split; [reflexivity|].
  intros k Hk. change (operator_run "!!2") with 2%nat in Hk.
  assert (Hcases : k = 1%nat \/ k = 2%nat) by lia.
  destruct Hcases as [-> | ->]; reflexivity.
Defined.

(** ** Reading numbers *)

(** *** Rounding never yields NaN *)

Lemma shr_1_nonneg mrs : 0 <= shr_m mrs -> 0 <= shr_m (shr_1 mrs).
Proof.
  destruct mrs as [m r s]. simpl.
  destruct m as [|[p|p|]|[p|p|]]; simpl; lia.
Qed.

Lemma iter_pos_shr_1_nonneg p mrs :
  0 <= shr_m mrs -> 0 <= shr_m (iter_pos shr_1 p mrs).
Proof.
  revert mrs. induction p as [p IH|p IH|]; intros mrs H; simpl.
  - apply IH, IH, shr_1_nonneg, H.
  - apply IH, IH, H.
  - apply shr_1_nonneg, H.
Qed.

Lemma shr_nonneg mrs e n : 0 <= shr_m mrs -> 0 <= shr_m (fst (shr mrs e n)).
Proof.
  intros H. unfold shr. destruct n; simpl; auto.
  now apply iter_pos_shr_1_nonneg.
Qed.

Lemma shr_fexp_nonneg p e m ex l :
  0 <= m -> 0 <= shr_m (fst (shr_fexp p e m ex l)).
Proof.
  intros H. unfold shr_fexp. apply shr_nonneg.
  destruct l as [|[]]; exact H.
Qed.

Lemma round_nearest_even_nonneg m l : 0 <= m -> 0 <= round_nearest_even m l.
Proof.
  intros H. unfold round_nearest_even.
  destruct l as [|[]]; try destruct (Z.even m); lia.
Qed.

Lemma binary_round_aux_signed p e sx mx ex lx :
  0 <= mx -> signed_as sx (binary_round_aux p e sx mx ex lx).
Proof.
  intros H. unfold binary_round_aux.
  pose proof (shr_fexp_nonneg p e mx ex lx H) as H1.
  destruct (shr_fexp p e mx ex lx) as [mrs' e'].
  pose proof (shr_fexp_nonneg p e
                (round_nearest_even (shr_m mrs') (loc_of_shr_record mrs'))
                e' loc_Exact
                (round_nearest_even_nonneg _ _ H1)) as H2.
  destruct (shr_fexp p e _ e' loc_Exact) as [mrs'' e''].
  simpl in H2. destruct (shr_m mrs'') as [|m|m]; simpl; try lia; auto.
  destruct (Z.leb e'' (Z.sub e p)); reflexivity.
Qed.

Lemma binary_round_signed p e sx m ex :
  signed_as sx (binary_round p e sx m ex).
Proof.
  unfold binary_round.
  destruct (shl_align m ex _) as [mz ez].
  apply binary_round_aux_signed. lia.
Qed.

(** *** The arithmetic of [expr_parse_number] stays non-negative *)

Lemma of_digit_signed (c : ascii) :
  Chr.isdigit c = true ->
  match of_int (Chr.code c - Chr.code "0") with
  | S754_zero false | S754_finite false _ _ => True
  | _ => False
  end.
Proof. each_byte c; vm_compute; intros H; try discriminate H; exact I. Qed.

Lemma mul_ten_signed (x : float) :
  signed_as false x -> signed_as false (mul x (of_int 10)).
Proof.
  change (of_int 10) with (S754_finite false 10485760 (-20)).
  destruct x as [s|s| |s m e]; simpl; try (intros ->; reflexivity); auto.
  intros ->. apply (binary_round_aux_signed mant_bits exp_max false). lia.
Qed.

Lemma add_digit_signed (x d : float) :
  signed_as false x ->
  match d with
  | S754_zero false | S754_finite false _ _ => True
  | _ => False
  end ->
  signed_as false (add x d).
Proof.
  destruct x as [s|s| |s m e]; simpl; try contradiction;
    destruct d as [[]|[]| |[] m' e']; simpl; try contradiction; auto;
    intros -> _; try reflexivity.
  unfold add, SFadd.
  set (ez := Z.min e e').
  destruct (shl_align m e ez) as [m1 e1].
  destruct (shl_align m' e' ez) as [m2 e2]. simpl.
  apply binary_round_signed.
Qed.

Lemma div_ten_signed (x : float) :
  signed_as false x -> signed_as false (div x (of_int 10)).
Proof.
  change (of_int 10) with (S754_finite false 10485760 (-20)).
  destruct x as [s|s| |s m e]; simpl; try (intros ->; reflexivity); auto.
  intros ->. unfold div, SFdiv.
  destruct (SFdiv_core_binary mant_bits exp_max (Z.pos m) e
              (Z.pos 10485760) (-20)) as [[mz ez] lz] eqn:E.
  apply binary_round_aux_signed.
  unfold SFdiv_core_binary in E.
  set (m' := match _ with Z0 => Z.pos m | Zpos _ => _ | Zneg _ => Z0 end) in E.
  assert (Hm' : 0 <= m').
  { unfold m'. destruct (_ - _ - _)%Z; try lia.
    apply Z.shiftl_nonneg. lia. }
  pose proof (Z.div_pos m' (Z.pos 10485760) Hm' ltac:(lia)) as Hq.
  unfold Z.div in Hq.
  destruct (Z.div_eucl m' (Z.pos 10485760)) as [q r].
  injection E as <- _ _. exact Hq.
Qed.

Lemma signed_not_nan (x : float) : signed_as false x -> isnan x = false.
Proof. destruct x; simpl; auto; contradiction. Qed.

Lemma scale_down_signed (frac : nat) (x : float) :
  signed_as false x -> signed_as false (scale_down frac x).
Proof.
  revert x. induction frac as [|[|k] IH]; intros x H; simpl; auto.
  apply IH. now apply div_ten_signed.
Qed.

(** *** Which lexemes [expr_parse_number] accepts *)

Lemma digit_is_not_dot (c : ascii) :
  Chr.isdigit c = true -> Ascii.eqb c "." = false.
Proof.
  intros H. destruct (Ascii.eqb c ".") eqn:E; [|reflexivity].
  apply Ascii.eqb_eq in E. subst c. discriminate H.
Qed.

Lemma parse_number_loop_spec (s : string) :
  all_chars isnumchr s = true ->
  forall num frac digits,
    signed_as false num ->
    match parse_number_loop s num frac digits with
    | None =>
        (if Nat.eqb frac 0 then 2 <= count_dots s else 1 <= count_dots s)%nat
    | Some (num', _, digits') =>
        signed_as false num' /\ (digits <= digits')%nat
        /\ (if Nat.eqb frac 0 then count_dots s <= 1 else count_dots s = 0)%nat
    end.
Proof.
  induction s as [|c r IH]; intros Hall num frac digits Hnum.
  - simpl. destruct (Nat.eqb frac 0); auto.
  - cbn [all_chars] in Hall. apply andb_true_iff in Hall as [Hc Hr].
    specialize (IH Hr). cbn [parse_number_loop count_dots].
    destruct (Ascii.eqb c ".") eqn:Edot.
    + destruct frac as [|frac]; cbn [Nat.eqb andb].
      * specialize (IH num 1%nat digits Hnum). cbn [Nat.eqb] in IH.
        destruct (parse_number_loop r num 1 digits) as [[[n' f'] d']|];
          [destruct IH as (? & ? & ?); repeat split; auto; lia | lia].
      * apply Ascii.eqb_eq in Edot. subst c.
        change (Chr.isdigit ".") with false. cbv iota. lia.
    + cbn [andb]. unfold isnumchr in Hc. rewrite Edot in Hc. cbn [orb] in Hc.
      rewrite Hc.
      assert (Hnum' : signed_as false
                (add (mul num (of_int 10))
                   (of_int (Chr.code c - Chr.code "0")))).
      { apply add_digit_signed; [now apply mul_ten_signed|].
        now apply of_digit_signed. }
      specialize (IH _ (if Nat.ltb 0 frac then S frac else frac) (S digits)
                    Hnum').
      assert (Hfrac : Nat.eqb (if Nat.ltb 0 frac then S frac else frac) 0
                      = Nat.eqb frac 0).
      { destruct frac; reflexivity. }
      rewrite Hfrac in IH.
      destruct (parse_number_loop r _ _ (S digits)) as [[[n' f'] d']|].
      * destruct IH as (? & ? & ?). repeat split; auto. lia.
      * exact IH.
Qed.

Lemma parse_number_accepts (c : ascii) (rest : string) :
  Chr.isdigit c = true -> all_chars isnumchr rest = true ->
  (isnan (expr_parse_number (String c rest)) = false
   <-> (count_dots (String c rest) <= 1)%nat).
Proof.
  intros Hc Hrest. unfold expr_parse_number.
  cbn [parse_number_loop count_dots].
  rewrite (digit_is_not_dot c Hc), Hc. cbn [andb Nat.add].
  change (if Nat.ltb 0 0 then 1%nat else 0%nat) with 0%nat.
  assert (Hnum : signed_as false
            (add (mul zero (of_int 10)) (of_int (Chr.code c - Chr.code "0")))).
  { apply add_digit_signed; [now apply mul_ten_signed|].
    now apply of_digit_signed. }
  pose proof (parse_number_loop_spec rest Hrest _ 0%nat 1%nat Hnum) as H.
  cbn [Nat.eqb] in H.
  destruct (parse_number_loop rest _ 0 1) as [[[n' f'] d']|].
  - destruct H as (Hn' & Hd' & Hdots).
    assert (Nat.ltb 0 d' = true) as -> by (apply Nat.ltb_lt; lia).
    split; [intros _; exact Hdots|].
    intros _. apply signed_not_nan. now apply scale_down_signed.
  - split; [discriminate | lia].
Qed.

Lemma dot_is_no_operator (t : string) (unary : Z) :
  expr_op (String "." t) unary = OP_UNKNOWN.
Proof. reflexivity. Qed.

Lemma leading_dot_rejected (rest : string) (flags : Z) :
  fst (expr_next_token (String "." rest) flags)
  = if has_flag flags EXPR_TOP then -5 else -4.
Proof.
  pose proof (next_token_by_class "." rest flags) as H. cbv zeta in H.
  rewrite H. change (lex_class_of ".") with L_operator. cbv iota.
  destruct (has_flag flags EXPR_TOP); [|reflexivity].
  assert (Hscan : snd (operator_scan (String "." rest) (String "." rest) 0
                         false) = false).
  { apply operator_scan_not_found. intros k Hk.
    destruct k as [|k]; [lia|]. apply dot_is_no_operator. }
  rewrite Hscan. reflexivity.
Qed.

(** C9, as the code has it. A lexeme that starts with a digit is the
    longest run of digits and dots at the head of the buffer, however
    many dots it holds; [expr_parse_number] accepts such a lexeme
    exactly when it holds at most one dot.  No other byte, so no
    exponent, belongs to the lexeme, and a buffer that starts with a
    dot yields an error code, not a lexeme. *)
Theorem number_lexeme :
  (forall c rest flags,
      Chr.isdigit c = true -> has_flag flags EXPR_TNUMBER = true ->
      let s := String c rest in
      let n := span isnumchr s in
      expr_next_token s flags
      = (Z.of_nat n, flag_or [EXPR_TOP; EXPR_TCLOSE])
      /\ (1 <= n <= String.length s)%nat
      /\ all_chars isnumchr (take n s) = true
      /\ (forall d r, drop n s = String d r -> isnumchr d = false)
      /\ (isnan (expr_parse_number (take n s)) = false
          <-> (count_dots (take n s) <= 1)%nat))
  /\ (forall rest flags,
         fst (expr_next_token (String "." rest) flags) < 0).
Proof.
  split.
  - intros c rest flags Hc Hflag s n.
    assert (Hclass : lex_class_of c = L_digit).
    { pose proof (lex_class_spec c) as (Hd & _). rewrite Hc in Hd.
      destruct (lex_class_of c); try discriminate Hd; reflexivity. }
    assert (Hnum : isnumchr c = true).
    { unfold isnumchr. rewrite Hc. apply orb_true_r. }
    assert (Htake : take n s = String c (take (span isnumchr rest) rest)).
    { unfold n, s. cbn [span]. rewrite Hnum. reflexivity. }
    split.
    { unfold expr_next_token, s. unfold lex_class_of in Hclass.
      destruct (Ascii.eqb c "#"); [discriminate|].
      destruct (Ascii.eqb c Chr.newline); [discriminate|].
      destruct (Chr.isspace c); [discriminate|].
      rewrite Hc, Hflag. reflexivity. }
    split; [split; [now apply span_first | apply span_le_length]|].
    split; [apply span_take_all|].
    split; [intros d r; apply span_drop_stops|].
    rewrite Htake. apply parse_number_accepts; [exact Hc|].
    apply span_take_all.
  - intros rest flags. rewrite leading_dot_rejected.
    destruct (has_flag flags EXPR_TOP); lia.
Qed.

Lemma number_lexeme_witness :
  Chr.isdigit "1" = true
  /\ has_flag EXPR_TDEFAULT EXPR_TNUMBER = true
  /\ expr_next_token "12.5e3" EXPR_TDEFAULT = (4, 5)
  /\ take 4 "12.5e3" = "12.5"%string
  /\ isnan (expr_parse_number "12.5") = false
  /\ isnan (expr_parse_number "1.") = false.
Proof.
  assert (Hc : Chr.isdigit "1" = true) by reflexivity.
  assert (Hf : has_flag EXPR_TDEFAULT EXPR_TNUMBER = true) by reflexivity.
  split; [exact Hc|]. split; [exact Hf|].
  destruct (proj1 number_lexeme "1"%char "2.5e3"%string EXPR_TDEFAULT Hc Hf)
    as (Htok & _ & _ & _ & Hacc).
  split; [exact Htok|]. split; [reflexivity|].
  split; [apply (proj2 Hacc); vm_compute; lia|].
  destruct (proj1 number_lexeme "1"%char "."%string EXPR_TDEFAULT Hc Hf)
    as (_ & _ & _ & _ & Hacc').
  apply (proj2 Hacc'). vm_compute. lia.
Defined.

(** C9 as stated fails: the tokenizer returns the whole of ["1.2.3"]
    as one lexeme, with two dots (the compiler then rejects it), and a
    digit run ending in a dot is accepted as a number. *)
Lemma number_lexeme_with_two_dots :
  has_flag EXPR_TDEFAULT EXPR_TNUMBER = true
  /\ fst (expr_next_token "1.2.3+4" EXPR_TDEFAULT) = 5
  /\ take 5 "1.2.3+4" = "1.2.3"%string
  /\ count_dots "1.2.3" = 2%nat
  /\ fst (expr_next_token "1.+4" EXPR_TDEFAULT) = 2
  /\ expr_parse_number "1." = one
  /\ expr_create "1." [] [] = Some (mk_compiled (Some (Const one)) []).
Proof. repeat split. Qed.

(** ** The main loop of the compiler ends *)

Lemma next_token_range (s : string) (flags : Z) :
  (fst (expr_next_token s flags) = 0 -> s = EmptyString)
  /\ fst (expr_next_token s flags) <= Z.of_nat (String.length s).
Proof.
  destruct s as [|c rest]; [split; [reflexivity | simpl; lia]|].
  rewrite next_token_by_class.
  set (s := String c rest).
  pose proof (lex_class_first c) as Hfirst.
  pose proof (operator_scan_bounds s s 0 false) as Hb.
  pose proof (operator_scan_advances s s 0) as Hadv.
  assert (Hlen : forall p, p c = true ->
            (1 <= span p s <= String.length s)%nat).
  { intros p Hp. split; [now apply span_first | apply span_le_length]. }
  assert (1 <= String.length s)%nat by (unfold s; simpl; lia).
  destruct (lex_class_of c);
    try match goal with
        | |- context [span ?p s] => specialize (Hlen p Hfirst)
        end;
    repeat match goal with
           | |- context [if ?b then _ else _] => destruct b eqn:?
           end;
    try (specialize (Hadv eq_refl)); split; try discriminate; lia.
Qed.

Lemma drop_length (n : nat) (s : string) :
  String.length (drop n s) = (String.length s - n)%nat.
Proof.
  revert s. induction n as [|n IH]; intros [|c r]; simpl; auto.
Qed.

Lemma turn_of_consumes funcs p p' :
  turn_of funcs p = Go (Continue p') ->
  (String.length (p_src p') < String.length (p_src p))%nat.
Proof.
  unfold turn_of.
  pose proof (next_token_range (p_src p) (p_flags p)) as [Hz Hle].
  destruct (expr_next_token (p_src p) (p_flags p)) as [n flags].
  cbn [fst] in Hz, Hle.
  destruct (n =? 0) eqn:E0; [discriminate|].
  destruct (n <? 0) eqn:El; [discriminate|].
  apply Z.eqb_neq in E0. apply Z.ltb_ge in El.
  assert (Hdrop : (String.length (drop (Z.to_nat n) (p_src p))
                   < String.length (p_src p))%nat).
  { rewrite drop_length. lia. }
  destruct (starts_with "#" _); [intros [= <-]; exact Hdrop|].
  destruct (unary_rewrite _ flags) as [tok1|]; [|discriminate].
  destruct (newline_comma tok1 flags) as [tok2 flags2].
  destruct (match tok2 with String c _ => Chr.isspace c | _ => false end);
    [intros [= <-]; exact Hdrop|].
  destruct (resolve_word funcs tok2 (p_id p) (p_paren p) (p_work p))
    as [[paren w]| |]; cbn [flow_bind]; try discriminate.
  destruct (dispatch funcs tok2 paren w) as [[[id paren_next] w']| |];
    cbn [flow_bind]; try discriminate.
  intros [= <-]. exact Hdrop.
Qed.

(** With more fuel than bytes the loop never stops for lack of fuel. *)
Lemma main_loop_ends funcs fuel p :
  (String.length (p_src p) < fuel)%nat -> main_loop funcs fuel p <> None.
Proof.
  revert p. induction fuel as [|fuel IH]; intros p Hlt; [lia|].
  cbn [main_loop].
  destruct (turn_of funcs p) as [[p'|p']| |] eqn:E; try discriminate.
  apply IH. apply turn_of_consumes in E. lia.
Qed.

(** * Further properties *)

(** ** The list of variables *)

Lemma var_read_bound vars h :
  var_read vars h <> None ->
  (h <= fold_right (fun v m => Nat.max (var_addr v) m) 0 vars)%nat.
Proof.
  induction vars as [|v rest IH]; simpl; [congruence|].
  destruct (Nat.eqb (var_addr v) h) eqn:E.
  - apply Nat.eqb_eq in E. lia.
  - intros H. apply IH in H. lia.
Qed.

Lemma var_fresh_dead vars : var_read vars (var_fresh vars) = None.
Proof.
  destruct (var_read vars (var_fresh vars)) eqn:E; [|reflexivity].
  assert (H : var_read vars (var_fresh vars) <> None) by congruence.
  apply var_read_bound in H. unfold var_fresh in H. lia.
Qed.

Lemma var_find_live vars s h :
  var_find vars s = Some h -> var_read vars h <> None.
Proof.
  induction vars as [|v rest IH]; simpl; [discriminate|].
  destruct (String.eqb (var_name v) s).
  - intros [= <-]. rewrite Nat.eqb_refl. discriminate.
  - intros H. destruct (Nat.eqb (var_addr v) h); [discriminate | auto].
Qed.

Lemma var_read_front front vars h :
  Forall (fun v => var_read vars (var_addr v) = None) front ->
  var_read vars h <> None ->
  var_read (front ++ vars) h = var_read vars h.
Proof.
  induction 1 as [|v front Hv _ IH]; simpl; [reflexivity|].
  intros Hlive. destruct (Nat.eqb (var_addr v) h) eqn:E; [|auto].
  apply Nat.eqb_eq in E. congruence.
Qed.

Lemma var_read_app_dead front vars h :
  var_read (front ++ vars) h = None -> var_read vars h = None.
Proof.
  induction front as [|v front IH]; simpl; [auto|].
  destruct (Nat.eqb (var_addr v) h); [discriminate | auto].
Qed.

Lemma extends_refl vars : extends vars vars.
Proof. exists []. split; [reflexivity | constructor]. Qed.

Lemma extends_trans v3 v2 v1 : extends v3 v2 -> extends v2 v1 -> extends v3 v1.
Proof.
  intros (f2 & -> & H2) (f1 & -> & H1). exists (f2 ++ f1).
  split; [now rewrite app_assoc|].
  apply Forall_app. split; [|exact H1].
  eapply Forall_impl; [|exact H2]. intros v. apply var_read_app_dead.
Qed.

Lemma extends_read vars' vars h :
  extends vars' vars -> var_read vars h <> None ->
  var_read vars' h = var_read vars h.
Proof. intros (front & -> & H). now apply var_read_front. Qed.

Lemma expr_var_extends vars s : extends (snd (expr_var vars s)) vars.
Proof.
  unfold expr_var. destruct s as [|c r]; [apply extends_refl|].
  destruct (negb (Chr.isfirstvarchr c)); [apply extends_refl|].
  destruct (var_find vars (String c r)); [apply extends_refl|].
  exists [mk_var (var_fresh vars) (c_str (String c r)) zero].
  split; [reflexivity|]. constructor; [apply var_fresh_dead | constructor].
Qed.

Lemma expr_var_live vars s h :
  fst (expr_var vars s) = Some h ->
  var_read (snd (expr_var vars s)) h <> None.
Proof.
  unfold expr_var. destruct s as [|c r]; [discriminate|].
  destruct (negb (Chr.isfirstvarchr c)); [discriminate|].
  destruct (var_find vars (String c r)) as [h0|] eqn:E;
    cbn [fst snd var_read var_addr var_value].
  - intros [= <-]. eapply var_find_live; eassumption.
  - intros [= <-]. rewrite Nat.eqb_refl. discriminate.
Qed.

Lemma var_find_c_names vars s :
  c_names vars -> ~ zero_free s -> var_find vars s = None.
Proof.
  unfold c_names, zero_free. induction 1 as [|v rest Hv _ IH]; intros Hs;
    cbn [var_find]; [reflexivity|].
  destruct (String.eqb (var_name v) s) eqn:E; [|auto].
  apply String.eqb_eq in E. congruence.
Qed.

Lemma c_str_idempotent s : c_str (c_str s) = c_str s.
Proof.
  induction s as [|c r IH]; cbn [c_str]; [reflexivity|].
  destruct (Ascii.eqb c Ascii.zero) eqn:E; cbn [c_str]; [reflexivity|].
  now rewrite E, IH.
Qed.

(** X1. [expr_var] looks a name up or creates it.  A name that is
    empty or does not start like a word gives [NULL] and leaves the
    list alone.  A name that starts like a word and holds no zero byte
    gives a handle under which the name is found afterwards: either
    the cell was there and the list is unchanged, or a cell holding 0
    is put in front at an address that was not live; asking again
    changes nothing.  A name that starts like a word and holds a zero
    byte is never found among cells named by C strings: each call puts
    a new cell in front, named by the bytes before the zero byte, so
    asking again gives another handle.  In every case a handle that
    was live reads as before, and the cells stay named by C strings. *)
Theorem expr_var_lookup_or_create (vars : expr_var_list) (s : string) :
  (valid_name s = false -> expr_var vars s = (None, vars))
  /\ (valid_name s = true -> zero_free s ->
      exists h,
        fst (expr_var vars s) = Some h
        /\ var_find (snd (expr_var vars s)) s = Some h
        /\ ((var_find vars s = Some h /\ snd (expr_var vars s) = vars)
            \/ (var_find vars s = None
                /\ var_read vars h = None
                /\ snd (expr_var vars s) = mk_var h s zero :: vars
                /\ var_read (snd (expr_var vars s)) h = Some zero))
        /\ expr_var (snd (expr_var vars s)) s
           = (Some h, snd (expr_var vars s))
        /\ forall h', var_read vars h' <> None ->
                      var_read (snd (expr_var vars s)) h' = var_read vars h')
  /\ (valid_name s = true -> ~ zero_free s -> c_names vars ->
      exists h h2,
        expr_var vars s = (Some h, mk_var h (c_str s) zero :: vars)
        /\ var_read vars h = None
        /\ expr_var (mk_var h (c_str s) zero :: vars) s
           = (Some h2,
              mk_var h2 (c_str s) zero :: mk_var h (c_str s) zero :: vars)
        /\ h2 <> h)
  /\ (forall h', var_read vars h' <> None ->
                 var_read (snd (expr_var vars s)) h' = var_read vars h')
  /\ (c_names vars -> c_names (snd (expr_var vars s))).
Proof.
  assert (Hread : forall h', var_read vars h' <> None ->
            var_read (snd (expr_var vars s)) h' = var_read vars h').
  { intros h'. apply extends_read, expr_var_extends. }
  split; [|split; [|split; [|split; [exact Hread|]]]].
  - unfold valid_name, expr_var. destruct s as [|c r]; [reflexivity|].
    intros ->. reflexivity.
  - intros Hvalid Hs. revert Hread. unfold valid_name in Hvalid.
    unfold expr_var. destruct s as [|c r]; [discriminate|].
    rewrite Hvalid. cbn [negb]. unfold zero_free in Hs. rewrite Hs.
    destruct (var_find vars (String c r)) as [h|] eqn:E; cbn [fst snd];
      intros Hread.
    + exists h. rewrite E. repeat split; auto.
    + exists (var_fresh vars). cbn [var_find var_name var_addr].
      rewrite String.eqb_refl.
      repeat split; auto.
      right. repeat split; auto using var_fresh_dead.
      cbn [var_read var_addr var_value]. now rewrite Nat.eqb_refl.
  - intros Hvalid Hs Hnames.
    pose proof (var_find_c_names vars s Hnames Hs) as Hfind.
    assert (Hnames' : c_names (mk_var (var_fresh vars) (c_str s) zero :: vars)).
    { constructor; [apply c_str_idempotent | exact Hnames]. }
    pose proof (var_find_c_names _ s Hnames' Hs) as Hfind'.
    exists (var_fresh vars),
      (var_fresh (mk_var (var_fresh vars) (c_str s) zero :: vars)).
    unfold valid_name in Hvalid. unfold expr_var at 1 2.
    destruct s as [|c r]; [discriminate|]. rewrite Hvalid. cbn [negb].
    rewrite Hfind, Hfind'.
    split; [reflexivity|]. split; [apply var_fresh_dead|].
    split; [reflexivity|].
    unfold var_fresh. cbn [fold_right var_addr]. lia.
  - intros Hnames. unfold expr_var. destruct s as [|c r]; [exact Hnames|].
    destruct (negb (Chr.isfirstvarchr c)); [exact Hnames|].
    destruct (var_find vars (String c r)); [exact Hnames|].
    cbn [snd]. constructor; [apply c_str_idempotent | exact Hnames].
Qed.

Lemma expr_var_lookup_or_create_witness :
  valid_name "z" = true
  /\ expr_var vars_xy "z"
     = (Some 3%nat, mk_var 3%nat "z" zero :: vars_xy)
  /\ expr_var vars_xy "x" = (Some 1%nat, vars_xy)
  /\ (exists h,
        fst (expr_var vars_xy "x") = Some h
        /\ var_find (snd (expr_var vars_xy "x")) "x" = Some h)
  /\ exists h h2,
       expr_var vars_xy name_a0b = (Some h, mk_var h "a" zero :: vars_xy)
       /\ expr_var (mk_var h "a" zero :: vars_xy) name_a0b
          = (Some h2, mk_var h2 "a" zero :: mk_var h "a" zero :: vars_xy)
       /\ h2 <> h.
Proof.
  split; [reflexivity|]. split; [reflexivity|]. split; [reflexivity|].
  split.
  - destruct (proj1 (proj2 (expr_var_lookup_or_create vars_xy "x"))
                eq_refl eq_refl) as (h & Hfst & Hfind & _).
    exists h. split; assumption.
  - assert (Hz : ~ zero_free name_a0b) by (vm_compute; discriminate).
    assert (Hn : c_names vars_xy) by (repeat constructor).
    destruct (proj1 (proj2 (proj2 (expr_var_lookup_or_create vars_xy name_a0b)))
                eq_refl Hz Hn) as (h & h2 & H1 & _ & H2 & H3).
    exists h, h2. split; [exact H1|]. split; [exact H2 | exact H3].
Defined.

Lemma var_write_dead vars h n :
  var_write vars h n = None <-> var_read vars h = None.
Proof.
  induction vars as [|v rest IH]; simpl; [tauto|].
  destruct (Nat.eqb (var_addr v) h); [split; discriminate|].
  destruct (var_write rest h n); simpl; split; intros H;
    try discriminate; try (apply IH; assumption).
  apply IH in H. discriminate.
Qed.

Lemma var_write_shape vars h n vars' :
  var_write vars h n = Some vars' ->
  map var_addr vars' = map var_addr vars
  /\ map var_name vars' = map var_name vars.
Proof.
  revert vars'. induction vars as [|v rest IH]; simpl; intros vars';
    [discriminate|].
  destruct (Nat.eqb (var_addr v) h).
  - intros [= <-]. split; reflexivity.
  - destruct (var_write rest h n) as [r|]; simpl; [|discriminate].
    intros [= <-]. destruct (IH r eq_refl) as [Ha Hn]. simpl.
    now rewrite Ha, Hn.
Qed.

(** X2. Writing through a handle and reading back: the write is
    undefined exactly when nothing lives at the handle; otherwise the
    handle then reads the value written, every other handle reads as
    before, and no cell is added, removed, moved or renamed. *)
Theorem var_store_laws (vars : expr_var_list) (h : handle) (n : float) :
  (var_write vars h n = None <-> var_read vars h = None)
  /\ forall vars',
       var_write vars h n = Some vars' ->
       var_read vars' h = Some n
       /\ (forall h', h' <> h -> var_read vars' h' = var_read vars h')
       /\ map var_addr vars' = map var_addr vars
       /\ map var_name vars' = map var_name vars.
Proof.
  split; [apply var_write_dead|].
  intros vars' Hw. split; [eapply var_read_write_same; eassumption|].
  split; [intros h' Hne; eapply var_read_write_other; eassumption|].
  eapply var_write_shape; eassumption.
Qed.

Lemma var_store_laws_witness :
  var_write vars_xy 1%nat one
  = Some [mk_var 2%nat "y" one; mk_var 1%nat "x" one]
  /\ var_read [mk_var 2%nat "y" one; mk_var 1%nat "x" one] 1%nat = Some one
  /\ var_write vars_xy 5%nat one = None.
Proof.
  split; [reflexivity|].
  split.
  - exact (proj1 (proj2 (var_store_laws vars_xy 1%nat one) _ eq_refl)).
  - apply (proj1 (var_store_laws vars_xy 5%nat one)). reflexivity.
Defined.

(** ** What evaluation writes, and when it is defined *)

Lemma var_read_dead_shape vars vars' h :
  map var_addr vars = map var_addr vars' ->
  (var_read vars h = None <-> var_read vars' h = None).
Proof.
  revert vars'. induction vars as [|v rest IH]; intros [|v' rest']; simpl;
    try discriminate; [tauto|].
  intros [= Hv Hrest]. rewrite Hv.
  destruct (Nat.eqb (var_addr v') h); [split; discriminate | auto].
Qed.

Section EvalWrites.

Variable world : Type.
Variable powf fmodf : float -> float -> float.
Variable call : expr_func_desc -> list expr -> option nat -> M world float.

Local Abbreviation eval := (expr_eval world powf fmodf call).

Lemma writes_ret W A (a : A) : writes_only W (ret world a).
Proof. intros st a' st' [= _ <-]. auto. Qed.

Lemma writes_undefined W A : writes_only W (@undefined world A).
Proof. intros st a st'. discriminate. Qed.

Lemma writes_lift W A (o : option A) : writes_only W (lift world o).
Proof.
  intros st a st'. unfold lift. destruct o; simpl; [|discriminate].
  intros [= _ <-]. auto.
Qed.

Lemma writes_load W h : writes_only W (load world h).
Proof.
  intros st a st'. unfold load.
  destruct (var_read (st_vars st) h); simpl; [|discriminate].
  intros [= _ <-]. auto.
Qed.

Lemma writes_store (W : handle -> Prop) h n :
  W h -> writes_only W (store world h n).
Proof.
  intros HW st a st'. unfold store.
  destruct (var_write (st_vars st) h n) as [vs|] eqn:E; simpl; [|discriminate].
  intros [= _ <-]. cbn [st_vars st_world].
  destruct (var_write_shape _ _ _ _ E) as [Ha Hn].
  repeat split; auto.
  intros h' Hh'. eapply var_read_write_other; [eassumption|].
  intros ->. contradiction.
Qed.

Lemma writes_bind W A B (m : M world A) (k : A -> M world B) :
  writes_only W m -> (forall a, writes_only W (k a)) ->
  writes_only W (bind world m k).
Proof.
  intros Hm Hk st b st'. unfold bind.
  destruct (m st) as [[a st1]|] eqn:E; [|discriminate].
  intros Hb. destruct (Hm _ _ _ E) as (Hw1 & Ha1 & Hn1 & Hr1).
  destruct (Hk _ _ _ _ Hb) as (Hw2 & Ha2 & Hn2 & Hr2).
  repeat split; try congruence.
  intros h Hh. rewrite Hr2, Hr1; auto.
Qed.

Lemma writes_if W A (c : bool) (m1 m2 : M world A) :
  writes_only W m1 -> writes_only W m2 ->
  writes_only W (if c then m1 else m2).
Proof. destruct c; auto. Qed.

Lemma writes_weaken (W1 W2 : handle -> Prop) A (m : M world A) :
  (forall h, W1 h -> W2 h) -> writes_only W1 m -> writes_only W2 m.
Proof.
  intros Hsub Hm st a st' E. destruct (Hm _ _ _ E) as (? & ? & ? & Hr).
  repeat split; auto.
Qed.

Create HintDb writes.

Hint Resolve writes_ret writes_undefined writes_lift writes_load
  writes_bind writes_if : writes.

Lemma writes_float_op W f (a b : M world float) :
  writes_only W a -> writes_only W b ->
  writes_only W (float_op world f a b).
Proof. unfold float_op. auto 6 with writes. Qed.

Lemma writes_compare_op W f (a b : M world float) :
  writes_only W a -> writes_only W b ->
  writes_only W (compare_op world f a b).
Proof. unfold compare_op. auto 6 with writes. Qed.

Lemma writes_int_op W f (a b : M world float) :
  writes_only W a -> writes_only W b ->
  writes_only W (int_op world f a b).
Proof. unfold int_op. auto 12 with writes. Qed.

Hint Resolve writes_float_op writes_compare_op writes_int_op : writes.

Lemma writes_eval (e : expr) :
  no_func e = true -> writes_only (fun h => In h (assigned e)) (eval e).
Proof.
  induction e as [t args IH| | |] using expr_children_ind.
  - intros Hnf. cbn [no_func] in Hnf.
    set (W := fun h => In h (assigned (Op t args))).
    assert (H0 : writes_only W
              (match args with a :: _ => eval a | _ => undefined world end)).
    { destruct args as [|a r]; [auto with writes|].
      simpl in Hnf. apply andb_true_iff in Hnf as [Ha _].
      inversion IH as [|? ? IHa _]; subst.
      eapply writes_weaken; [|exact (IHa Ha)].
      intros h Hh. unfold W. cbn [assigned flat_map].
      apply in_or_app. right. apply in_or_app. now left. }
    assert (H1 : writes_only W
              (match args with
               | _ :: b :: _ => eval b
               | _ => undefined world
               end)).
    { destruct args as [|a [|b r]]; [auto with writes..|].
      simpl in Hnf. apply andb_true_iff in Hnf as [_ Hb].
      apply andb_true_iff in Hb as [Hb _].
      inversion IH as [|? ? _ IHr]; subst.
      inversion IHr as [|? ? IHb _]; subst.
      eapply writes_weaken; [|exact (IHb Hb)].
      intros h Hh. unfold W. cbn [assigned flat_map].
      apply in_or_app. right. apply in_or_app. right.
      apply in_or_app. now left. }
    cbn [expr_eval].
    destruct t; auto 8 with writes.
    apply writes_bind; [exact H1|]. intros n.
    destruct args as [|[t' args'|v|h|f args' ctx] r]; auto with writes.
    + destruct t'; auto with writes.
    + apply writes_bind; [|auto with writes].
      apply writes_store. unfold W. cbn. now left.
  - intros _. apply writes_ret.
  - intros _. apply writes_load.
  - discriminate.
Qed.

(** X3. What a tree without call may change: evaluating it leaves the
    host alone, adds, removes, moves and renames no variable, and
    changes the value of no variable other than those on the left of
    an assignment of the tree. *)
Theorem eval_writes_only_assigned (e : expr) (st st' : state world)
    (v : float)
    (Hnf : no_func e = true)
    (Hev : eval e st = Some (v, st')) :
  st_world st' = st_world st
  /\ map var_addr (st_vars st') = map var_addr (st_vars st)
  /\ map var_name (st_vars st') = map var_name (st_vars st)
  /\ forall h, ~ In h (assigned e) ->
               var_read (st_vars st') h = var_read (st_vars st) h.
Proof. exact (writes_eval e Hnf st v st' Hev). Qed.

End EvalWrites.

Lemma eval_writes_only_assigned_witness :
  no_func nested_assign = true
  /\ eval0 nested_assign st_xy
     = Some (of_int 3,
             mk_state [mk_var 2%nat "y" (of_int 2);
                       mk_var 1%nat "x" (of_int 3)] tt)
  /\ map var_name [mk_var 2%nat "y" (of_int 2); mk_var 1%nat "x" (of_int 3)]
     = map var_name (st_vars st_xy).
Proof.
  assert (Hnf : no_func nested_assign = true) by reflexivity.
  assert (Hev : eval0 nested_assign st_xy
                = Some (of_int 3,
                        mk_state [mk_var 2%nat "y" (of_int 2);
                                  mk_var 1%nat "x" (of_int 3)] tt))
    by reflexivity.
  split; [exact Hnf|]. split; [exact Hev|].
  exact (proj1 (proj2 (proj2
           (eval_writes_only_assigned unit powf_small no_fmodf no_call
              nested_assign st_xy _ _ Hnf Hev)))).
Defined.

Lemma forallb_ext_Forall {A} (f g : A -> bool) (l : list A) :
  Forall (fun x => f x = g x) l -> forallb f l = forallb g l.
Proof.
  induction 1 as [|x l Hx _ IH]; simpl; [reflexivity|].
  now rewrite Hx, IH.
Qed.

Lemma well_formed_shape vars vars' e :
  map var_addr vars = map var_addr vars' ->
  well_formed vars e = well_formed vars' e.
Proof.
  intros Hshape.
  induction e as [t args IH|v|h|f args ctx IH] using expr_children_ind;
    cbn [well_formed]; try reflexivity.
  - now rewrite (forallb_ext_Forall _ _ _ IH).
  - pose proof (var_read_dead_shape vars vars' h Hshape) as Hd.
    destruct (var_read vars h), (var_read vars' h); try reflexivity.
    + discriminate (proj2 Hd eq_refl).
    + destruct Hd as [Hd _]. discriminate (Hd eq_refl).
  - now rewrite (forallb_ext_Forall _ _ _ IH).
Qed.

Section EvalDefined.

Variable world : Type.
Variable powf fmodf : float -> float -> float.
Variable call : expr_func_desc -> list expr -> option nat -> M world float.

Local Abbreviation eval := (expr_eval world powf fmodf call).

Local Abbreviation runs_from := (runs_in world powf fmodf call).

Lemma runs_unary vars t a (f : float -> float) :
  (forall st, eval (Op t [a]) st
              = bind world (eval a) (fun x => ret world (f x)) st) ->
  runs_from vars a -> runs_from vars (Op t [a]).
Proof.
  intros Heq Ha st Hst. rewrite Heq. unfold bind, ret.
  destruct (Ha st Hst) as (x & st1 & -> & H1). eauto.
Qed.

Lemma runs_binary vars t a b (f : float -> float -> float) :
  (forall st, eval (Op t [a; b]) st
              = bind world (eval a)
                  (fun x => bind world (eval b)
                              (fun y => ret world (f x y))) st) ->
  runs_from vars a -> runs_from vars b -> runs_from vars (Op t [a; b]).
Proof.
  intros Heq Ha Hb st Hst. rewrite Heq. unfold bind, ret.
  destruct (Ha st Hst) as (x & st1 & -> & H1).
  destruct (Hb st1 H1) as (y & st2 & -> & H2). eauto.
Qed.

Lemma runs_eval (vars : expr_var_list) (e : expr) :
  well_formed vars e = true -> float_only e = true -> runs_from vars e.
Proof.
  induction e as [t args IH|v|h|f args ctx IH] using expr_children_ind.
  - cbn [well_formed float_only]. intros Hwf Hfl.
    apply andb_true_iff in Hwf as [Hargs Harity].
    apply andb_true_iff in Hfl as [Hview Hfargs].
    destruct (expr_is_unary t) eqn:Eun.
    + destruct args as [|a [|b r]]; try discriminate Harity.
      simpl in Hargs, Hfargs.
      rewrite andb_true_r in Hargs, Hfargs.
      inversion IH as [|? ? IHa _]; subst.
      specialize (IHa Hargs Hfargs).
      destruct t; try discriminate Eun; try discriminate Hview.
      * apply (runs_unary vars _ a neg); [reflexivity | exact IHa].
      * apply (runs_unary vars _ a (fun x => of_bool (eq x zero)));
          [reflexivity | exact IHa].
    + destruct (expr_is_binary t) eqn:Ebin; [|discriminate Harity].
      destruct args as [|a [|b [|c r]]]; try discriminate Harity.
      simpl in Hargs, Hfargs.
      apply andb_true_iff in Hargs as [Hwa Hwb].
      apply andb_true_iff in Hfargs as [Hfa Hfb].
      rewrite andb_true_r in Hwb, Hfb.
      inversion IH as [|? ? IHa IHr]; subst.
      inversion IHr as [|? ? IHb _]; subst.
      specialize (IHa Hwa Hfa). specialize (IHb Hwb Hfb).
      destruct t; try discriminate Ebin; try discriminate Hview;
        try (eapply runs_binary; [reflexivity | exact IHa | exact IHb]).
      * (* OP_LT ... OP_NE have been closed above; this is OP_LOGICAL_AND *)
        intros st Hst. cbn [expr_eval]. unfold bind, ret.
        destruct (IHa st Hst) as (x & st1 & -> & H1).
        destruct (IHb st1 H1) as (y & st2 & Hb & H2).
        destruct (ne x zero); [|eauto]. rewrite Hb.
        destruct (ne y zero); eauto.
      * intros st Hst. cbn [expr_eval]. unfold bind, ret.
        destruct (IHa st Hst) as (x & st1 & -> & H1).
        destruct (IHb st1 H1) as (y & st2 & Hb & H2).
        destruct (ne x zero && negb (isnan x)); [eauto|]. rewrite Hb.
        destruct (ne y zero); eauto.
      * intros st Hst. cbn [expr_eval]. unfold bind, ret.
        destruct (IHb st Hst) as (y & st1 & -> & H1).
        cbn [expr_type_eqb expr_type_index Nat.eqb andb] in Harity.
        destruct a as [ | |h|]; try discriminate Harity.
        cbn [well_formed] in Hwa.
        destruct (var_read vars h) eqn:Eh; [|discriminate Hwa].
        unfold store.
        destruct (var_write (st_vars st1) h y) as [vs|] eqn:Ew.
        -- simpl. do 2 eexists. split; [reflexivity|].
           cbn [st_vars]. destruct (var_write_shape _ _ _ _ Ew) as [-> _].
           exact H1.
        -- apply var_write_dead in Ew.
           apply (var_read_dead_shape _ vars h H1) in Ew. congruence.
      * intros st Hst. cbn [expr_eval]. unfold bind.
        destruct (IHa st Hst) as (x & st1 & -> & H1).
        exact (IHb st1 H1).
  - intros _ _ st Hst. do 2 eexists. split; [reflexivity | exact Hst].
  - cbn [well_formed]. intros Hwf _ st Hst. cbn [expr_eval]. unfold load.
    destruct (var_read vars h) eqn:Eh; [|discriminate Hwf].
    destruct (var_read (st_vars st) h) as [x|] eqn:Er.
    + simpl. eauto.
    + apply (var_read_dead_shape _ vars h Hst) in Er. congruence.
  - discriminate.
Qed.

(** X4. A well-formed tree without call and without node on the [int]
    view always evaluates: from any state in which its handles are
    live it returns a value, and its handles are live afterwards. *)
Theorem eval_defined_on_float_trees (e : expr) (st : state world)
    (Hwf : well_formed (st_vars st) e = true)
    (Hfl : float_only e = true) :
  exists v st',
    eval e st = Some (v, st')
    /\ map var_addr (st_vars st') = map var_addr (st_vars st)
    /\ well_formed (st_vars st') e = true.
Proof.
  destruct (runs_eval (st_vars st) e Hwf Hfl st eq_refl)
    as (v & st' & Hev & Hshape).
  exists v, st'. split; [exact Hev|]. split; [exact Hshape|].
  now rewrite (well_formed_shape _ _ e Hshape).
Qed.

End EvalDefined.

Lemma eval_defined_on_float_trees_witness :
  well_formed (st_vars st_xy) nested_assign = true
  /\ float_only nested_assign = true
  /\ exists v st',
       eval0 nested_assign st_xy = Some (v, st')
       /\ map var_addr (st_vars st') = map var_addr (st_vars st_xy)
       /\ well_formed (st_vars st') nested_assign = true.
Proof.
  split; [reflexivity|]. split; [reflexivity|].
  exact (eval_defined_on_float_trees unit powf_small no_fmodf no_call
           nested_assign st_xy eq_refl eq_refl).
Defined.

(** ** Copying and releasing trees *)

Lemma expr_copy_op t args heap :
  expr_copy (Op t args) heap
  = (let '(args', hp) := copy_list args heap in (Op t args', hp)).
Proof.
  revert heap. induction args as [|a r IH]; intros heap; [reflexivity|].
  cbn [expr_copy copy_list]. destruct (expr_copy a heap) as [tmp hp1].
  specialize (IH hp1). cbn [expr_copy] in IH.
  destruct (copy_list r hp1) as [rest' hp2].
  match type of IH with
  | (let '(_, _) := ?X in _) = _ => destruct X
  end.
  injection IH as -> ->. reflexivity.
Qed.

Lemma expr_copy_func f args ctx heap :
  expr_copy (Func f args ctx) heap
  = (let '(args', hp) := copy_list args heap in
     if Nat.ltb 0 (func_ctxsz f) then (Func f args' (Some hp), S hp)
     else (Func f args' None, hp)).
Proof.
  pose proof (expr_copy_op OP_UNKNOWN args heap) as H.
  cbn [expr_copy] in *. destruct (copy_list args heap) as [args' hp].
  match type of H with
  | (let '(_, _) := ?X in _) = _ => destruct X
  end.
  injection H as -> ->. reflexivity.
Qed.

Lemma expr_destroy_args_op t args :
  expr_destroy_args (Op t args) = flat_map expr_destroy_args args.
Proof.
  induction args as [|a r IH]; [reflexivity|].
  cbn [expr_destroy_args flat_map] in *. now rewrite IH.
Qed.

Lemma expr_destroy_args_func f args ctx :
  expr_destroy_args (Func f args ctx)
  = flat_map expr_destroy_args args
    ++ match ctx with Some p => [p] | None => [] end.
Proof.
  pose proof (expr_destroy_args_op OP_UNKNOWN args) as H.
  cbn [expr_destroy_args] in *. now rewrite H.
Qed.

Lemma seq_join (a b c : nat) :
  (a <= b)%nat -> (b <= c)%nat ->
  seq a (b - a) ++ seq b (c - b) = seq a (c - a).
Proof.
  intros Hab Hbc. replace (c - a)%nat with ((b - a) + (c - b))%nat by lia.
  rewrite seq_app. do 2 f_equal. lia.
Qed.

Lemma copy_list_ok (l : list expr) :
  Forall (fun e => forall heap,
            copy_ok e (fst (expr_copy e heap)) heap (snd (expr_copy e heap)))
    l ->
  forall heap,
    (heap <= snd (copy_list l heap))%nat
    /\ map forget_contexts (fst (copy_list l heap)) = map forget_contexts l
    /\ flat_map expr_destroy_args (fst (copy_list l heap))
       = seq heap (snd (copy_list l heap) - heap)
    /\ List.length (fst (copy_list l heap)) = List.length l
    /\ (forall vars, forallb (well_formed vars) l = true ->
          forallb (well_formed vars) (fst (copy_list l heap)) = true)
    /\ (forallb no_func l = true -> copy_list l heap = (l, heap)).
Proof.
  induction 1 as [|e l He _ IH]; intros heap.
  - simpl. rewrite Nat.sub_diag. repeat split; auto.
  - cbn [copy_list]. specialize (He heap).
    destruct (expr_copy e heap) as [tmp hp1]. cbn [fst snd] in He.
    destruct He as (Hle & Hforget & Hfree & Hwf & Hsame).
    specialize (IH hp1). destruct (copy_list l hp1) as [rest' hp2].
    cbn [fst snd] in *.
    destruct IH as (Hle' & Hforget' & Hfree' & Hlen' & Hwf' & Hsame').
    split; [lia|]. split; [simpl; congruence|].
    split; [simpl; rewrite Hfree, Hfree'; now apply seq_join|].
    split; [simpl; congruence|].
    split.
    + intros vars Hall. simpl in Hall.
      apply andb_true_iff in Hall as [H1 H2]. simpl.
      now rewrite (Hwf vars H1), (Hwf' vars H2).
    + intros Hall. simpl in Hall. apply andb_true_iff in Hall as [H1 H2].
      destruct (Hsame H1) as [-> ->]. specialize (Hsame' H2).
      now injection Hsame' as -> ->.
Qed.

Lemma expr_copy_ok (e : expr) (heap : nat) :
  copy_ok e (fst (expr_copy e heap)) heap (snd (expr_copy e heap)).
Proof.
  revert heap.
  induction e as [t args IH|v|h|f args ctx IH] using expr_children_ind;
    intros heap.
  - rewrite expr_copy_op.
    destruct (copy_list_ok args IH heap)
      as (Hle & Hforget & Hfree & Hlen & Hwf & Hsame).
    destruct (copy_list args heap) as [args' hp]. cbn [fst snd] in *.
    split; [exact Hle|]. split; [cbn [forget_contexts]; congruence|].
    split; [now rewrite expr_destroy_args_op|].
    split.
    + intros vars. cbn [well_formed]. intros Hw.
      apply andb_true_iff in Hw as [Hargs Harity].
      rewrite (Hwf vars Hargs), Hlen. cbn [andb].
      destruct (expr_is_unary t); [exact Harity|].
      destruct (expr_is_binary t); [|exact Harity].
      apply andb_true_iff in Harity as [H2 Hassign]. rewrite H2. cbn [andb].
      destruct (expr_type_eqb t OP_ASSIGN); [|reflexivity].
      destruct args as [|[ | |x|] r]; try discriminate Hassign.
      cbn [map forget_contexts] in Hforget.
      destruct args' as [|[ | |x'|] r']; try discriminate Hforget.
      reflexivity.
    + cbn [no_func]. intros Hnf. specialize (Hsame Hnf).
      injection Hsame as -> ->. split; reflexivity.
  - repeat split; auto. simpl. now rewrite Nat.sub_diag.
  - repeat split; auto. simpl. now rewrite Nat.sub_diag.
  - rewrite expr_copy_func.
    destruct (copy_list_ok args IH heap)
      as (Hle & Hforget & Hfree & Hlen & Hwf & Hsame).
    destruct (copy_list args heap) as [args' hp]. cbn [fst snd] in *.
    destruct (Nat.ltb 0 (func_ctxsz f)) eqn:Ectx; cbn [fst snd].
    + split; [lia|]. split; [cbn [forget_contexts]; congruence|].
      split.
      { rewrite expr_destroy_args_func, Hfree.
        replace (S hp - heap)%nat with ((hp - heap) + 1)%nat by lia.
        rewrite seq_app. simpl. do 3 f_equal. lia. }
      split; [|discriminate].
      intros vars. cbn [well_formed]. intros Hw.
      apply andb_true_iff in Hw as [Hargs _].
      now rewrite (Hwf vars Hargs), Ectx.
    + split; [lia|]. split; [cbn [forget_contexts]; congruence|].
      split; [rewrite expr_destroy_args_func, Hfree; apply app_nil_r|].
      split; [|discriminate].
      intros vars. cbn [well_formed]. intros Hw.
      apply andb_true_iff in Hw as [Hargs _].
      rewrite (Hwf vars Hargs). cbn [andb].
      apply Nat.ltb_ge in Ectx. apply Nat.eqb_eq. lia.
Qed.

(** X5. [expr_copy] makes a deep copy that shares no context block:
    the copy is the source up to its context pointers and is
    well-formed when the source is; it allocates the blocks numbered
    from [heap] up to the returned count, one per call node whose
    descriptor asks for a context, and [expr_destroy_args] on the copy
    frees exactly these blocks, each once, in that order.  A tree
    without call is copied as it is and nothing is allocated. *)
Theorem expr_copy_deep_and_fresh (e : expr) (heap : nat) :
  (heap <= snd (expr_copy e heap))%nat
  /\ forget_contexts (fst (expr_copy e heap)) = forget_contexts e
  /\ expr_destroy_args (fst (expr_copy e heap))
     = seq heap (snd (expr_copy e heap) - heap)
  /\ NoDup (expr_destroy_args (fst (expr_copy e heap)))
  /\ (forall vars, well_formed vars e = true ->
        well_formed vars (fst (expr_copy e heap)) = true)
  /\ (no_func e = true -> expr_copy e heap = (e, heap)).
Proof.
  destruct (expr_copy_ok e heap) as (Hle & Hforget & Hfree & Hwf & Hsame).
  split; [exact Hle|]. split; [exact Hforget|]. split; [exact Hfree|].
  split; [rewrite Hfree; apply seq_NoDup|]. split; [exact Hwf|].
  intros Hnf. destruct (Hsame Hnf) as [H1 H2].
  destruct (expr_copy e heap). simpl in *. congruence.
Qed.

Lemma expr_copy_deep_and_fresh_witness :
  well_formed [] call_tree = true
  /\ expr_destroy_args call_tree = [0%nat; 1%nat]
  /\ expr_destroy_args (fst (expr_copy call_tree 2)) = [2%nat; 3%nat]
  /\ well_formed [] (fst (expr_copy call_tree 2)) = true.
Proof.
  split; [reflexivity|]. split; [reflexivity|]. split; [reflexivity|].
  exact (proj1 (proj2 (proj2 (proj2 (proj2
           (expr_copy_deep_and_fresh call_tree 2))))) [] eq_refl).
Defined.

(** ** More on reading numbers *)

Lemma parse_number_loop_full (s : string) :
  forall num frac digits,
    signed_as false num ->
    match parse_number_loop s num frac digits with
    | None =>
        all_chars isnumchr s = false
        \/ (if Nat.eqb frac 0 then 2 <= count_dots s
            else 1 <= count_dots s)%nat
    | Some (num', _, digits') =>
        all_chars isnumchr s = true
        /\ signed_as false num'
        /\ digits' = (digits + count_digits s)%nat
        /\ (if Nat.eqb frac 0 then count_dots s <= 1
            else count_dots s = 0)%nat
    end.
Proof.
  induction s as [|c r IH]; intros num frac digits Hnum.
  - simpl. rewrite Nat.add_0_r. destruct (Nat.eqb frac 0); auto.
  - cbn [parse_number_loop count_dots count_digits all_chars].
    unfold isnumchr at 1 3.
    destruct (Ascii.eqb c ".") eqn:Edot.
    + apply Ascii.eqb_eq in Edot. subst c.
      change (Chr.isdigit ".") with false. cbn [orb andb Nat.add].
      destruct frac as [|frac]; cbn [Nat.eqb andb].
      * specialize (IH num 1%nat digits Hnum). cbn [Nat.eqb] in IH.
        destruct (parse_number_loop r num 1 digits) as [[[n' f'] d']|].
        -- destruct IH as (? & ? & ? & ?). repeat split; auto. lia.
        -- destruct IH as [?|?]; [now left | right; lia].
      * right. lia.
    + cbn [orb andb]. destruct (Chr.isdigit c) eqn:Edig; cbn [andb].
      * assert (Hnum' : signed_as false
                  (add (mul num (of_int 10))
                     (of_int (Chr.code c - Chr.code "0")))).
        { apply add_digit_signed; [now apply mul_ten_signed|].
          now apply of_digit_signed. }
        specialize (IH _ (if Nat.ltb 0 frac then S frac else frac)
                      (S digits) Hnum').
        assert (Hfrac : Nat.eqb (if Nat.ltb 0 frac then S frac else frac) 0
                        = Nat.eqb frac 0).
        { destruct frac; reflexivity. }
        rewrite Hfrac in IH.
        destruct (parse_number_loop r _ _ (S digits)) as [[[n' f'] d']|].
        -- destruct IH as (? & ? & ? & ?). repeat split; auto. lia.
        -- exact IH.
      * now left.
Qed.

(** X6. The strings [expr_parse_number] reads as a number, that is for
    which it does not return NaN, are exactly those made of digits and
    at most one dot, with at least one digit: an empty string, a lone
    dot, a second dot, a sign, an exponent or any other byte give
    NaN. *)
Theorem parse_number_grammar (s : string) :
  isnan (expr_parse_number s) = false
  <-> all_chars isnumchr s = true
      /\ (count_dots s <= 1)%nat
      /\ (1 <= count_digits s)%nat.
Proof.
  unfold expr_parse_number.
  pose proof (parse_number_loop_full s zero 0%nat 0%nat eq_refl) as H.
  cbn [Nat.eqb Nat.add] in H.
  destruct (parse_number_loop s zero 0 0) as [[[num frac] digits]|].
  - destruct H as (Hall & Hnum & -> & Hdots).
    destruct (Nat.ltb 0 (count_digits s)) eqn:E.
    + apply Nat.ltb_lt in E. split; [auto with arith|].
      intros _. apply signed_not_nan. now apply scale_down_signed.
    + apply Nat.ltb_ge in E. split; [discriminate|]. intros (_ & _ & ?). lia.
  - split; [discriminate|]. intros (Hall & Hdots & _).
    destruct H as [H|H]; [congruence | lia].
Qed.

Lemma parse_number_grammar_witness :
  isnan (expr_parse_number ".5") = false
  /\ isnan (expr_parse_number ".") = true
  /\ isnan (expr_parse_number "1e5") = true
  /\ isnan (expr_parse_number "-1") = true.
Proof.
  split; [apply (proj2 (parse_number_grammar ".5")); repeat split;
          simpl; lia|].
  repeat split.
Defined.

(** ** More on the tokenizer *)

Lemma expr_op_from_in ops s unary :
  expr_op_from ops s unary = OP_UNKNOWN
  \/ (In (s, expr_op_from ops s unary) ops
      /\ (unary = -1
          \/ Z.b2z (expr_is_unary (expr_op_from ops s unary)) = unary)).
Proof.
  induction ops as [|[name op] rest IH]; cbn [expr_op_from]; [now left|].
  destruct (String.eqb name s) eqn:En; cbn [andb].
  - apply String.eqb_eq in En. subst name.
    destruct (unary =? -1) eqn:Eu; cbn [orb].
    + right. split; [now left|]. left. now apply Z.eqb_eq.
    + destruct (Z.b2z (expr_is_unary op) =? unary) eqn:Ea.
      * right. split; [now left|]. right. now apply Z.eqb_eq.
      * destruct IH as [IH|[IH1 IH2]]; [now left|].
        right. split; [now right | exact IH2].
  - destruct IH as [IH|[IH1 IH2]]; [now left|].
    right. split; [now right | exact IH2].
Qed.

Lemma expr_op_from_unknown ops s :
  expr_op_from ops s (-1) = OP_UNKNOWN ->
  Forall (fun entry => snd entry <> OP_UNKNOWN) ops ->
  forall entry, In entry ops -> fst entry <> s.
Proof.
  induction ops as [|[name op] rest IH]; cbn [expr_op_from];
    [intros _ _ entry []|].
  change (-1 =? -1) with true. cbn [orb].
  rewrite andb_true_r. intros H Hall. inversion Hall as [|? ? Hop Hrest]; subst.
  destruct (String.eqb name s) eqn:En; [contradiction|].
  intros entry [<-|Hin]; [now apply String.eqb_neq | now apply IH].
Qed.

Lemma OPS_arities :
  Forall (fun entry =>
            snd entry <> OP_UNKNOWN
            /\ xorb (expr_is_unary (snd entry)) (expr_is_binary (snd entry))
               = true)
    OPS.
Proof. unfold OPS. repeat constructor; discriminate. Qed.

(** X7. [expr_op] names an operator of the table or nothing: asked for
    a unary operator it returns a unary one or [OP_UNKNOWN], asked for
    a binary one it returns a binary one or [OP_UNKNOWN], and asked
    for either it returns [OP_UNKNOWN] exactly when no entry of [OPS]
    is spelled like the string.  It never returns the tag of a
    constant, a variable or a call. *)
Theorem expr_op_arity (s : string) :
  (expr_op s 1 = OP_UNKNOWN \/ expr_is_unary (expr_op s 1) = true)
  /\ (expr_op s 0 = OP_UNKNOWN \/ expr_is_binary (expr_op s 0) = true)
  /\ (expr_op s (-1) = OP_UNKNOWN
      <-> forall entry, In entry OPS -> fst entry <> s)
  /\ (forall unary,
        expr_op s unary = OP_UNKNOWN
        \/ xorb (expr_is_unary (expr_op s unary))
                (expr_is_binary (expr_op s unary)) = true).
Proof.
  pose proof OPS_arities as Hall. rewrite Forall_forall in Hall.
  assert (Hgen : forall unary,
            expr_op s unary = OP_UNKNOWN
            \/ xorb (expr_is_unary (expr_op s unary))
                    (expr_is_binary (expr_op s unary)) = true).
  { intros unary. unfold expr_op.
    destruct (expr_op_from_in OPS s unary) as [H|[Hin _]]; [now left|].
    right. exact (proj2 (Hall _ Hin)). }
  split; [|split; [|split]].
  - unfold expr_op.
    destruct (expr_op_from_in OPS s 1) as [H|[_ [H|H]]];
      [now left | discriminate |].
    right. destruct (expr_is_unary (expr_op_from OPS s 1));
      [reflexivity | discriminate].
  - destruct (Hgen 0) as [H|H]; [now left|]. right. revert H. unfold expr_op.
    destruct (expr_op_from_in OPS s 0) as [H|[_ [H|H]]];
      [rewrite H; discriminate | discriminate |].
    destruct (expr_is_unary (expr_op_from OPS s 0)); [discriminate|].
    cbn [xorb]. auto.
  - split.
    + intros H. apply expr_op_from_unknown; [exact H|].
      apply Forall_forall. intros entry Hin. exact (proj1 (Hall _ Hin)).
    + intros Hno. unfold expr_op.
      destruct (expr_op_from_in OPS s (-1)) as [H|[Hin _]]; [exact H|].
      destruct (Hno _ Hin). reflexivity.
  - exact Hgen.
Qed.

Lemma expr_op_known_binary (s : string) :
  expr_op s 0 <> OP_UNKNOWN -> expr_is_binary (expr_op s 0) = true.
Proof.
  intros Hk. unfold expr_op in *.
  pose proof OPS_arities as Hall. rewrite Forall_forall in Hall.
  destruct (expr_op_from_in OPS s 0) as [H|[Hin [H|H]]];
    [contradiction | discriminate |].
  pose proof (proj2 (Hall _ Hin)) as Hx. cbn [snd] in Hx.
  destruct (expr_is_unary (expr_op_from OPS s 0)); [discriminate|].
  exact Hx.
Qed.

Lemma expr_op_known_unary (s : string) :
  expr_op s 1 <> OP_UNKNOWN -> expr_is_unary (expr_op s 1) = true.
Proof.
  intros Hk. unfold expr_op in *.
  destruct (expr_op_from_in OPS s 1) as [H|[_ [H|H]]];
    [contradiction | discriminate |].
  destruct (expr_is_unary (expr_op_from OPS s 1));
    [reflexivity | discriminate].
Qed.

Lemma operator_start_tests (c : ascii) :
  is_operator_start c = true ->
  Ascii.eqb c "#" = false /\ Ascii.eqb c Chr.newline = false
  /\ Chr.isspace c = false /\ Chr.isdigit c = false
  /\ Chr.isfirstvarchr c = false /\ Ascii.eqb c "(" = false
  /\ Ascii.eqb c ")" = false.
Proof.
  unfold is_operator_start. intros H.
  repeat (apply andb_true_iff in H as [H ?]).
  repeat match goal with
         | Hn : negb _ = true |- _ => apply negb_true_iff in Hn
         end.
  assert (Ascii.eqb c Chr.newline = false).
  { destruct (Ascii.eqb c Chr.newline) eqn:E; [|reflexivity].
    apply Ascii.eqb_eq in E. subst c. discriminate. }
  repeat split; assumption.
Qed.

(** X8. An operator lexeme is an operator.  On a byte that starts an
    operator, when an operator is expected ([EXPR_TOP] set) a lexeme
    that is returned is spelled like a binary operator of the table,
    lies within the run of operator bytes, and is greedy: either it is
    the whole run or one more byte would not spell an operator; the
    flags then ask for an operand.  When an operand is expected
    ([EXPR_TOP] clear) a lexeme that is returned is one byte, one of
    the unary operators [-], [!], [^], and [EXPR_UNARY] is raised. *)
Theorem operator_lexeme_known (c : ascii) (rest : string) (flags : Z)
    (Hop : is_operator_start c = true)
    (Hpos : 0 < fst (expr_next_token (String c rest) flags)) :
  (has_flag flags EXPR_TOP = true ->
   exists n,
     expr_next_token (String c rest) flags
     = (Z.of_nat n, flag_or [EXPR_TNUMBER; EXPR_TWORD; EXPR_TOPEN])
     /\ (1 <= n <= operator_run (String c rest))%nat
     /\ expr_is_binary (expr_op (take n (String c rest)) 0) = true
     /\ (n = operator_run (String c rest)
         \/ expr_op (take (S n) (String c rest)) 0 = OP_UNKNOWN))
  /\ (has_flag flags EXPR_TOP = false ->
      expr_next_token (String c rest) flags
      = (1, flag_or [EXPR_TNUMBER; EXPR_TWORD; EXPR_TOPEN; EXPR_UNARY])
      /\ is_unary_byte c = true
      /\ expr_is_unary (expr_op (String c EmptyString) 1) = true).
Proof.
  destruct (operator_start_tests c Hop)
    as (H1 & H2 & H3 & H4 & H5 & H6 & H7).
  revert Hpos. unfold expr_next_token.
  rewrite H1, H2, H3, H4, H5, H6, H7. cbn [orb].
  set (s := String c rest).
  destruct (has_flag flags EXPR_TOP); cbn [negb].
  - pose proof (operator_scan_known s s 0 false ltac:(discriminate)) as Hk.
    pose proof (operator_scan_within s s 0 false) as Hw.
    pose proof (operator_scan_advances s s 0) as Ha.
    destruct (operator_scan s s 0 false) as [i found]. cbn [fst snd] in *.
    destruct found; cbn [negb fst]; [|intros; lia].
    intros _. split; [|discriminate]. intros _.
    destruct (Hk eq_refl) as [Hknown Hgreedy]. specialize (Ha eq_refl).
    exists i. split; [reflexivity|]. split; [lia|].
    split; [now apply expr_op_known_binary|].
    destruct Hgreedy as [Hg|Hg]; [left; lia | now right].
  - pose proof (unary_operator_bytes c) as Hun.
    destruct (expr_type_eqb (expr_op (String c EmptyString) 1) OP_UNKNOWN)
      eqn:E; cbn [fst]; [intros; lia|].
    intros _. split; [discriminate|]. intros _.
    split; [reflexivity|].
    split; [unfold is_unary_byte; now apply negb_false_iff|].
    apply expr_op_known_unary. intros Hu. rewrite Hu in E. discriminate.
Qed.

Lemma operator_lexeme_known_witness :
  is_operator_start "<" = true
  /\ 0 < fst (expr_next_token "<=>" EXPR_TOP)
  /\ exists n,
       expr_next_token "<=>" EXPR_TOP
       = (Z.of_nat n, flag_or [EXPR_TNUMBER; EXPR_TWORD; EXPR_TOPEN])
       /\ (1 <= n <= operator_run "<=>")%nat
       /\ expr_is_binary (expr_op (take n "<=>") 0) = true
       /\ (n = operator_run "<=>"
           \/ expr_op (take (S n) "<=>") 0 = OP_UNKNOWN).
Proof.
  assert (Hop : is_operator_start "<" = true) by reflexivity.
  assert (Hpos : 0 < fst (expr_next_token "<=>" EXPR_TOP))
    by (vm_compute; reflexivity).
  split; [exact Hop|]. split; [exact Hpos|].
  exact (proj1 (operator_lexeme_known "<" "=>" EXPR_TOP Hop Hpos) eq_refl).
Defined.

(** X9. A comment is skipped up to, not including, the end of its line:
    on a buffer that starts with [#] a turn of the compiler's loop
    moves past the bytes before the next newline and changes nothing
    else, neither the flags nor the stacks nor the buffered word; what
    is left is empty or starts with that newline. *)
Theorem comment_is_skipped (funcs : list expr_func_desc) (p : parser)
    (rest : string) (Hsrc : p_src p = String "#" rest) :
  let n := span (fun d => negb (Ascii.eqb d Chr.newline)) (p_src p) in
  (1 <= n <= String.length (p_src p))%nat
  /\ all_chars (fun d => negb (Ascii.eqb d Chr.newline)) (take n (p_src p))
     = true
  /\ (drop n (p_src p) = EmptyString
      \/ starts_with Chr.newline (drop n (p_src p)) = true)
  /\ turn_of funcs p
     = Go (Continue (mk_parser (drop n (p_src p)) (p_flags p) (p_paren p)
                       (p_id p) (p_work p))).
Proof.
  intros n.
  assert (Hn : (1 <= n <= String.length (p_src p))%nat).
  { split; [|apply span_le_length]. unfold n. rewrite Hsrc.
    now apply span_first. }
  split; [exact Hn|]. split; [apply span_take_all|].
  split.
  { destruct (drop n (p_src p)) as [|d r] eqn:E; [now left|]. right.
    apply span_drop_stops in E. apply negb_false_iff in E. exact E. }
  unfold turn_of.
  assert (Htok : expr_next_token (p_src p) (p_flags p)
                 = (Z.of_nat n, p_flags p)).
  { unfold n. rewrite Hsrc. reflexivity. }
  rewrite Htok.
  destruct (Z.of_nat n =? 0) eqn:E0; [apply Z.eqb_eq in E0; lia|].
  destruct (Z.of_nat n <? 0) eqn:E1; [apply Z.ltb_lt in E1; lia|].
  rewrite Nat2Z.id.
  assert (Hhash : starts_with "#" (take n (p_src p)) = true).
  { rewrite Hsrc. destruct n as [|k]; [lia|]. reflexivity. }
  rewrite Hhash. reflexivity.
Qed.

Lemma comment_is_skipped_witness :
  turn_of []
    (mk_parser (String "#" (String "x" newline_then_operand)) 5
       EXPR_PAREN_FORBIDDEN EmptyString (mk_work [Const one] [] [] [] [] 0))
  = Go (Continue
          (mk_parser newline_then_operand 5 EXPR_PAREN_FORBIDDEN EmptyString
             (mk_work [Const one] [] [] [] [] 0))).
Proof.
  exact (proj2 (proj2 (proj2
           (comment_is_skipped []
              (mk_parser (String "#" (String "x" newline_then_operand)) 5
                 EXPR_PAREN_FORBIDDEN EmptyString
                 (mk_work [Const one] [] [] [] [] 0))
              (String "x" newline_then_operand) eq_refl)))).
Defined.

(** ** The precedence table *)

(** X10. Associativity and precedence as [expr_prec] decides them,
    [a] being the incoming operator and [b] the one on the stack: a
    stacked operator that binds tighter is always bound first and one
    that binds looser never; at equal precedence every binary operator
    binds the stacked one, that is associates to the left, except
    [**], [=] and [,], which do not, and no unary operator does. *)
Theorem expr_prec_associativity (a b : expr_type) :
  (prec b < prec a -> expr_prec a b = true)
  /\ (prec a < prec b -> expr_prec a b = false)
  /\ (prec a = prec b ->
      expr_prec a b
      = expr_is_binary a
        && negb (expr_type_eqb a OP_POWER || expr_type_eqb a OP_ASSIGN
                 || expr_type_eqb a OP_COMMA)).
Proof.
  unfold expr_prec.
  destruct (prec b <? prec a) eqn:Elt, (prec b <=? prec a) eqn:Ele.
  - apply Z.ltb_lt in Elt.
    repeat split; intros; lia.
  - apply Z.ltb_lt in Elt. apply Z.leb_gt in Ele. lia.
  - apply Z.ltb_ge in Elt. apply Z.leb_le in Ele.
    repeat split; intros; try lia.
    rewrite andb_true_r, orb_false_r.
    destruct a; reflexivity.
  - apply Z.ltb_ge in Elt. apply Z.leb_gt in Ele.
    repeat split; intros; lia.
Qed.

Lemma expr_prec_associativity_witness :
  expr_prec OP_MINUS OP_PLUS = true
  /\ expr_prec OP_ASSIGN OP_ASSIGN = false
  /\ expr_prec OP_PLUS OP_MULTIPLY = true
  /\ expr_prec OP_MULTIPLY OP_PLUS = false.
Proof.
  split; [rewrite (proj2 (proj2 (expr_prec_associativity OP_MINUS OP_PLUS))
                     eq_refl); reflexivity|].
  split; [rewrite (proj2 (proj2
                     (expr_prec_associativity OP_ASSIGN OP_ASSIGN)) eq_refl);
          reflexivity|].
  split; [apply (proj1 (expr_prec_associativity OP_PLUS OP_MULTIPLY));
          reflexivity|].
  apply (proj1 (proj2 (expr_prec_associativity OP_MULTIPLY OP_PLUS))).
  reflexivity.
Defined.

(** ** Functions, macros and their parameters *)

Lemma leading_digit_fuel (f1 : nat) :
  forall f2 k, (k <= f1)%nat -> (k <= f2)%nat ->
               leading_digit f1 k = leading_digit f2 k.
Proof.
  induction f1 as [|f1 IH]; intros f2 k H1 H2.
  - assert (k = 0%nat) as -> by lia. destruct f2; reflexivity.
  - destruct f2 as [|f2]; cbn [leading_digit].
    + assert (k = 0%nat) as -> by lia. reflexivity.
    + destruct (Nat.ltb k 10) eqn:E; [reflexivity|].
      apply Nat.ltb_ge in E.
      assert (Hdiv : (k / 10 < k)%nat) by (apply Nat.div_lt; lia).
      apply IH; lia.
Qed.

Lemma leading_digit_small (fuel k : nat) :
  (leading_digit fuel k <= Nat.max k 9)%nat
  /\ ((k <= fuel)%nat -> (leading_digit fuel k < 10)%nat).
Proof.
  revert k. induction fuel as [|fuel IH]; intros k; cbn [leading_digit].
  - split; lia.
  - destruct (Nat.ltb k 10) eqn:E.
    + apply Nat.ltb_lt in E. split; lia.
    + apply Nat.ltb_ge in E.
      assert (Hdiv : (k / 10 < k)%nat) by (apply Nat.div_lt; lia).
      destruct (IH (k / 10)%nat) as [H1 H2]. split; [lia|].
      intros Hk. apply H2. lia.
Qed.

(** X11. The name of a macro parameter is always two bytes, a dollar
    and one digit, because [snprintf] is given room for two: the
    parameters 1 to 9 have the names [$1] to [$9], and from the tenth
    on the name is that of the parameter whose number is the tenth
    part, so that the tenth actual argument of a macro is assigned to
    [$1] again. *)
Theorem macro_varname_truncated (k : nat) :
  String.length (macro_varname k) = 2%nat
  /\ valid_name (macro_varname k) = true
  /\ (exists d, (d < 10)%nat
                /\ macro_varname k
                   = String "$" (String (ascii_of_nat (48 + d)) EmptyString)
                /\ ((k < 10)%nat -> d = k))
  /\ ((10 <= k)%nat -> macro_varname k = macro_varname (k / 10)).
Proof.
  split; [reflexivity|]. split; [reflexivity|]. split.
  - exists (leading_digit k k). split; [|split; [reflexivity|]].
    + now apply leading_digit_small.
    + intros Hk. destruct k as [|k]; [reflexivity|]. cbn [leading_digit].
      apply Nat.ltb_lt in Hk. now rewrite Hk.
  - intros Hk. unfold macro_varname. do 4 f_equal.
    destruct k as [|k]; [lia|]. cbn [leading_digit].
    assert (E : Nat.ltb (S k) 10 = false) by (apply Nat.ltb_ge; lia).
    rewrite E.
    assert (Hdiv : (S k / 10 < S k)%nat) by (apply Nat.div_lt; lia).
    apply leading_digit_fuel; lia.
Qed.

Lemma macro_varname_truncated_witness :
  macro_varname 10 = macro_varname 1
  /\ macro_varname 1 = "$1"%string
  /\ macro_varname 27 = "$2"%string.
Proof.
  split; [exact (proj2 (proj2 (proj2 (macro_varname_truncated 10)))
                   ltac:(lia))|].
  split; reflexivity.
Defined.

(** X12. Which entry a name finds.  [expr_func] returns the first
    descriptor of the table with the name, and nothing exactly when no
    descriptor has it; the search for a macro returns the last macro
    defined with the name, so that a later definition replaces an
    earlier one, and nothing exactly when no macro has it. *)
Theorem lookup_first_function_last_macro :
  (forall funcs s,
      match expr_func funcs s with
      | Some f =>
          exists before after,
            funcs = before ++ f :: after
            /\ func_name f = s
            /\ Forall (fun g => func_name g <> s) before
      | None => Forall (fun g => func_name g <> s) funcs
      end)
  /\ (forall macros s,
         match macro_find macros s with
         | Some m =>
             exists before after,
               macros = before ++ m :: after
               /\ macro_name m = s
               /\ Forall (fun g => macro_name g <> s) after
         | None => Forall (fun g => macro_name g <> s) macros
         end).
Proof.
  split.
  - intros funcs s. induction funcs as [|f rest IH]; cbn [expr_func];
      [constructor|].
    destruct (String.eqb (func_name f) s) eqn:E.
    + apply String.eqb_eq in E. exists [], rest. repeat split; auto.
    + apply String.eqb_neq in E.
      destruct (expr_func rest s) as [g|].
      * destruct IH as (before & after & -> & Hname & Hbefore).
        exists (f :: before), after. repeat split; auto.
      * constructor; assumption.
  - intros macros s. induction macros as [|m rest IH]; cbn [macro_find];
      [constructor|].
    destruct (macro_find rest s) as [m'|].
    + destruct IH as (before & after & -> & Hname & Hafter).
      exists (m :: before), after. repeat split; auto.
    + destruct (String.eqb (macro_name m) s) eqn:E.
      * apply String.eqb_eq in E. exists [], rest. repeat split; auto.
      * apply String.eqb_neq in E. constructor; assumption.
Qed.

(** ** What the compiler keeps true *)

Lemma well_formed_extends vars' vars e :
  extends vars' vars -> well_formed vars e = true ->
  well_formed vars' e = true.
Proof.
  intros Hext.
  induction e as [t args IH|v|h|f args ctx IH] using expr_children_ind;
    cbn [well_formed]; auto.
  - intros H. apply andb_true_iff in H as [Hargs Harity].
    rewrite Harity, andb_true_r.
    apply forallb_forall. intros x Hx. rewrite Forall_forall in IH.
    apply IH; [exact Hx|]. rewrite forallb_forall in Hargs. now apply Hargs.
  - destruct (var_read vars h) eqn:E; [|discriminate]. intros _.
    rewrite (extends_read vars' vars h Hext) by congruence. now rewrite E.
  - intros H. apply andb_true_iff in H as [Hargs Hctx].
    rewrite Hctx, andb_true_r.
    apply forallb_forall. intros x Hx. rewrite Forall_forall in IH.
    apply IH; [exact Hx|]. rewrite forallb_forall in Hargs. now apply Hargs.
Qed.

Lemma wf_list_extends vars' vars l :
  extends vars' vars -> wf_list vars l -> wf_list vars' l.
Proof.
  intros Hext. unfold wf_list. apply Forall_impl. intros e.
  now apply well_formed_extends.
Qed.

Lemma wf_work_extends vars' w :
  extends vars' (w_vars w) -> wf_work w ->
  wf_work (mk_work (w_es w) (w_os w) (w_as w) (w_macros w) vars' (w_heap w)).
Proof.
  intros Hext (Hes & Has & Hm). unfold wf_work. cbn.
  split; [eapply wf_list_extends; eassumption|].
  split; (eapply Forall_impl; [|eassumption]); intros x;
    now apply wf_list_extends.
Qed.

Lemma flow_inv_bind {A B} vars0 (Q : A -> Prop) (R : B -> Prop)
    (m : flow A) (k : A -> flow B) :
  flow_inv vars0 Q m -> (forall a, Q a -> flow_inv vars0 R (k a)) ->
  flow_inv vars0 R (flow_bind m k).
Proof. destruct m; simpl; auto. Qed.

Lemma flow_inv_or_undef {A} vars0 (Q : A -> Prop) (o : option A) :
  (forall a, o = Some a -> Q a) -> flow_inv vars0 Q (or_undef o).
Proof. destruct o; simpl; auto. Qed.

Lemma expr_op_any_arity (s : string) :
  expr_op s (-1) <> OP_UNKNOWN ->
  expr_is_unary (expr_op s (-1)) = false ->
  expr_is_binary (expr_op s (-1)) = true.
Proof.
  intros Hk Hun. unfold expr_op in *.
  pose proof OPS_arities as Hall. rewrite Forall_forall in Hall.
  destruct (expr_op_from_in OPS s (-1)) as [H|[Hin _]]; [contradiction|].
  pose proof (proj2 (Hall _ Hin)) as Hx. cbn [snd] in Hx.
  rewrite Hun in Hx. exact Hx.
Qed.

Lemma expr_bind_wf vars s es es' :
  expr_bind s es = Some es' -> wf_list vars es -> wf_list vars es'.
Proof.
  unfold expr_bind, stack_pop, stack_push, wf_list.
  destruct (expr_type_eqb (expr_op s (-1)) OP_UNKNOWN) eqn:Eu; [discriminate|].
  assert (Hk : expr_op s (-1) <> OP_UNKNOWN).
  { intros H. rewrite H in Eu. discriminate. }
  destruct (expr_is_unary (expr_op s (-1))) eqn:Eun.
  - destruct es as [|arg es1]; [discriminate|]. intros [= <-] Hes.
    inversion Hes as [|? ? Harg Hes1]; subst.
    constructor; [|exact Hes1].
    cbn [well_formed forallb List.length]. now rewrite Harg, Eun.
  - destruct es as [|b [|a es2]]; try discriminate.
    pose proof (expr_op_any_arity s Hk Eun) as Ebin.
    destruct (expr_type_eqb (expr_op s (-1)) OP_ASSIGN
              && negb (expr_type_eqb (expr_tag a) OP_VAR)) eqn:Ea;
      [discriminate|].
    intros [= <-] Hes.
    inversion Hes as [|? ? Hb Hes1]; subst.
    inversion Hes1 as [|? ? Ha Hes2]; subst.
    constructor; [|exact Hes2].
    cbn [well_formed forallb List.length]. rewrite Ha, Hb, Eun, Ebin.
    cbn [andb Nat.eqb].
    destruct (expr_type_eqb (expr_op s (-1)) OP_ASSIGN); [|reflexivity].
    cbn [andb] in Ea. apply negb_false_iff in Ea.
    destruct a as [t args| | |]; try discriminate Ea; [|reflexivity].
    cbn [expr_tag] in Ea. destruct t; try discriminate Ea.
    cbn [well_formed] in Ha. cbn in Ha. rewrite andb_false_r in Ha.
    discriminate Ha.
Qed.

Lemma unwind_inv vars0 vars minlen os es :
  extends vars vars0 -> wf_list vars es ->
  flow_inv vars0 (fun r => wf_list vars (fst r)) (unwind minlen os es vars).
Proof.
  intros Hext. revert es. induction os as [|str below IH]; intros es Hes;
    cbn [unwind]; [exact Hes|].
  destruct (Nat.ltb minlen (List.length (str :: below))
            && negb (starts_with "(" str) && negb (starts_with "{" str));
    [|exact Hes].
  destruct (expr_bind str es) as [es'|] eqn:E; [|exact Hext].
  apply IH. eapply expr_bind_wf; eassumption.
Qed.

Lemma drain_inv vars0 vars os es :
  extends vars vars0 -> wf_list vars es ->
  flow_inv vars0 (wf_list vars) (drain os es vars).
Proof.
  intros Hext. revert es. induction os as [|str below IH]; intros es Hes;
    cbn [drain]; [exact Hes|].
  destruct (String.eqb str "(" || String.eqb str ")"); [exact Hext|].
  destruct (expr_bind str es) as [es'|] eqn:E; [|exact Hext].
  apply IH. eapply expr_bind_wf; eassumption.
Qed.

Lemma push_operator_inv vars0 vars tok op os es as_ :
  extends vars vars0 -> wf_list vars es ->
  Forall (fun a => wf_list vars (arg_args a)) as_ ->
  flow_inv vars0
    (fun r => wf_list vars (fst (fst r))
              /\ Forall (fun a => wf_list vars (arg_args a)) (snd r))
    (push_operator tok op os es as_ vars).
Proof.
  intros Hext. revert es. induction os as [|o2 below IH]; intros es Hes Has;
    cbn [push_operator]; [split; assumption|].
  destruct (String.eqb tok "," && String.eqb o2 "{").
  - destruct es as [|e es']; [exact I|]. cbn [stack_pop or_undef flow_bind].
    destruct as_ as [|frame as']; [exact I|].
    cbn [stack_pop or_undef flow_bind flow_inv fst snd stack_push].
    inversion Hes as [|? ? He Hes']; subst.
    inversion Has as [|? ? Hf Has']; subst.
    split; [exact Hes'|]. constructor; [|exact Has'].
    cbn [arg_args]. unfold vec_push, wf_list.
    apply Forall_app. split; [exact Hf | now constructor].
  - destruct (negb (negb (expr_type_eqb (expr_op o2 (-1)) OP_UNKNOWN)
                    && expr_prec op (expr_op o2 (-1))));
      [split; assumption|].
    destruct (expr_bind o2 es) as [es'|] eqn:E; [|exact Hext].
    apply IH; [|exact Has]. eapply expr_bind_wf; eassumption.
Qed.

Lemma macro_params_inv vars0 args : forall j vars,
  extends vars vars0 -> wf_list vars args ->
  flow_inv vars0
    (fun r => extends (snd r) vars /\ wf_list (snd r) (fst r))
    (macro_params args j vars).
Proof.
  induction args as [|actual rest IH]; intros j vars Hext Hargs;
    cbn [macro_params].
  - split; [apply extends_refl | constructor].
  - inversion Hargs as [|? ? Hactual Hrest]; subst.
    pose proof (expr_var_extends vars (macro_varname (S j))) as Hext1.
    pose proof (expr_var_live vars (macro_varname (S j))) as Hlive.
    destruct (expr_var vars (macro_varname (S j))) as [v vars1].
    cbn [fst snd] in *.
    destruct v as [h|]; [|exact I]. cbn [or_undef flow_bind].
    specialize (Hlive h eq_refl).
    assert (Hext01 : extends vars1 vars0) by (eapply extends_trans; eassumption).
    specialize (IH (S j) vars1 Hext01
                  (wf_list_extends _ _ _ Hext1 Hrest)).
    destruct (macro_params rest (S j) vars1) as [[assigns vars2]| |];
      cbn [flow_bind flow_inv fst snd] in *; auto.
    destruct IH as [Hext2 Hassigns].
    split; [eapply extends_trans; eassumption|].
    constructor; [|exact Hassigns].
    unfold expr_binary, expr_varref. cbn [well_formed forallb].
    change (expr_is_unary OP_ASSIGN) with false.
    change (expr_is_binary OP_ASSIGN) with true.
    change (expr_type_eqb OP_ASSIGN OP_ASSIGN) with true.
    cbn [List.length Nat.eqb andb].
    assert (Hact2 : well_formed vars2 actual = true).
    { apply (well_formed_extends vars2 vars);
        [eapply extends_trans; eassumption | exact Hactual]. }
    rewrite Hact2, (extends_read vars2 vars1 h Hext2 Hlive).
    destruct (var_read vars1 h); [reflexivity | contradiction].
Qed.

Lemma macro_tail_wf vars body : forall heap,
  wf_list vars body -> well_formed vars (fst (macro_tail body heap)) = true.
Proof.
  induction body as [|e rest IH]; intros heap Hbody; [reflexivity|].
  inversion Hbody as [|? ? He Hrest]; subst.
  pose proof (expr_copy_ok e heap) as (_ & _ & _ & Hwf & _).
  specialize (Hwf vars He).
  cbn [macro_tail]. destruct rest as [|e2 rest2]; [exact Hwf|].
  destruct (expr_copy e heap) as [c hp1]. cbn [fst] in Hwf.
  specialize (IH hp1 Hrest).
  destruct (macro_tail (e2 :: rest2) hp1) as [r hp2]. cbn [fst] in *.
  unfold expr_binary. cbn [well_formed forallb].
  now rewrite Hwf, IH.
Qed.

Lemma macro_root_wf vars assigns tail :
  wf_list vars assigns -> well_formed vars tail = true ->
  well_formed vars (macro_root assigns tail) = true.
Proof.
  intros Hassigns Htail.
  induction Hassigns as [|a l Ha _ IH]; [exact Htail|].
  change (macro_root (a :: l) tail)
    with (expr_binary OP_COMMA a (macro_root l tail)).
  unfold expr_binary. cbn [well_formed forallb]. now rewrite Ha, IH.
Qed.

Lemma wf_list_tl vars l : wf_list vars l -> wf_list vars (List.tl l).
Proof. intros H. destruct H; [constructor | assumption]. Qed.

Lemma macro_find_in macros s m :
  macro_find macros s = Some m -> In m macros.
Proof.
  induction macros as [|m0 rest IH]; cbn [macro_find]; [discriminate|].
  destruct (macro_find rest s) as [m'|].
  - intros [= <-]. right. now apply IH.
  - destruct (String.eqb (macro_name m0) s); [|discriminate].
    intros [= <-]. now left.
Qed.

Lemma close_call_inv vars0 funcs str arg w :
  compile_inv vars0 w -> wf_list (w_vars w) (arg_args arg) ->
  flow_inv vars0 (compile_inv vars0) (close_call funcs str arg w).
Proof.
  intros [Hext (Hes & Has & Hm)] Harg. unfold close_call.
  assert (Hpop : wf_list (w_vars w)
                   (fst (if Nat.ltb (eslen arg) (List.length (w_es w)) then
                           match stack_pop (w_es w) with
                           | Some (e, es') => (vec_push (arg_args arg) e, es')
                           | None => (arg_args arg, w_es w)
                           end
                         else (arg_args arg, w_es w)))
                 /\ wf_list (w_vars w)
                      (snd (if Nat.ltb (eslen arg) (List.length (w_es w)) then
                              match stack_pop (w_es w) with
                              | Some (e, es') =>
                                  (vec_push (arg_args arg) e, es')
                              | None => (arg_args arg, w_es w)
                              end
                            else (arg_args arg, w_es w)))).
  { destruct (Nat.ltb (eslen arg) (List.length (w_es w))); [|now split].
    destruct (w_es w) as [|e es']; [now split|]. cbn [stack_pop fst snd].
    inversion Hes; subst. split; [|assumption].
    unfold vec_push. apply Forall_app. split; [assumption | now constructor]. }
  destruct (if Nat.ltb (eslen arg) (List.length (w_es w)) then _ else _)
    as [args es]. cbn [fst snd] in Hpop. destruct Hpop as [Hargs Hes'].
  destruct (String.eqb str "$").
  - destruct args as [|u args']; [exact Hext|].
    destruct u as [t uargs|v|h|f uargs ctx]; try exact Hext.
    + destruct t; try exact Hext. exact I.
    + cbn [flow_inv]. split; [exact Hext|].
      split; [|split]; cbn [w_es w_as w_macros w_vars].
      * constructor; [reflexivity | exact Hes'].
      * exact Has.
      * destruct (var_name_at (w_vars w) h); [|exact Hm].
        unfold vec_push. apply Forall_app. split; [exact Hm|].
        constructor; [exact Hargs | constructor].
  - destruct (macro_find (w_macros w) str) as [m|] eqn:Efind.
    + apply macro_find_in in Efind.
      rewrite Forall_forall in Hm. pose proof (Hm m Efind) as Hbody.
      apply flow_inv_bind with
        (Q := fun r => extends (snd r) (w_vars w) /\ wf_list (snd r) (fst r));
        [now apply macro_params_inv|].
      intros [assigns vars] [Hext' Hassigns]. cbn [fst snd] in *.
      pose proof (macro_tail_wf vars (List.tl (macro_body m)) (w_heap w)
                    (wf_list_tl _ _ (wf_list_extends _ _ _ Hext' Hbody)))
        as Htail.
      destruct (macro_tail (List.tl (macro_body m)) (w_heap w))
        as [tail heap]. cbn [fst] in Htail. cbn [flow_inv].
      split; [eapply extends_trans; eassumption|].
      split; [|split]; cbn [w_es w_as w_macros w_vars].
      * constructor; [now apply macro_root_wf|].
        eapply wf_list_extends; eassumption.
      * eapply Forall_impl; [|exact Has]. intros a.
        now apply wf_list_extends.
      * apply Forall_forall. intros m' Hin.
        eapply wf_list_extends; [eassumption | now apply Hm].
    + destruct (expr_func funcs str) as [f|]; [|exact I].
      cbn [or_undef flow_bind].
      assert (Hall : forallb (well_formed (w_vars w)) args = true).
      { apply forallb_forall. unfold wf_list in Hargs.
        rewrite Forall_forall in Hargs. exact Hargs. }
      destruct (Nat.ltb 0 (func_ctxsz f)) eqn:Ectx; cbn [flow_inv];
        (split; [exact Hext|]);
        (split; [|split; [exact Has | exact Hm]]);
        cbn [w_es w_vars]; (constructor; [|exact Hes']);
        cbn [well_formed]; rewrite Hall; cbn [andb]; [exact Ectx|].
      apply Nat.ltb_ge in Ectx. apply Nat.eqb_eq. lia.
Qed.

Lemma close_paren_inv vars0 funcs w :
  compile_inv vars0 w ->
  flow_inv vars0 (compile_inv vars0) (close_paren funcs w).
Proof.
  intros [Hext (Hes & Has & Hm)]. unfold close_paren.
  apply flow_inv_bind with (Q := fun r => wf_list (w_vars w) (fst r));
    [now apply unwind_inv|].
  intros [es os] Hes'. cbn [fst] in Hes'.
  destruct (stack_pop os) as [[str os1]|]; [|exact Hext].
  destruct (String.eqb str "{").
  - destruct (stack_pop os1) as [[name os2]|]; [|exact I].
    cbn [or_undef flow_bind].
    destruct (w_as w) as [|arg as1] eqn:Eas; [exact I|].
    cbn [stack_pop or_undef flow_bind].
    inversion Has as [|? ? Harg Has1]; subst.
    apply close_call_inv; [|exact Harg].
    split; [exact Hext|]. split; [exact Hes'|]. split; assumption.
  - cbn [flow_inv]. split; [exact Hext|]. split; [exact Hes'|]. now split.
Qed.

Lemma resolve_word_inv vars0 funcs tok id paren w :
  compile_inv vars0 w ->
  flow_inv vars0 (fun r => compile_inv vars0 (snd r))
    (resolve_word funcs tok id paren w).
Proof.
  intros [Hext Hwf]. unfold resolve_word.
  destruct (Nat.ltb 0 (String.length id)); [|now split].
  destruct (String.eqb tok "(").
  - destruct (String.eqb id "$"
              || existsb (fun m => String.eqb (macro_name m) id) (w_macros w)
              || match expr_func funcs id with
                 | Some _ => true
                 | None => false
                 end); [|exact Hext].
    cbn [flow_inv snd]. split; [exact Hext|]. exact Hwf.
  - pose proof (expr_var_extends (w_vars w) id) as Hext1.
    pose proof (expr_var_live (w_vars w) id) as Hlive.
    destruct (expr_var (w_vars w) id) as [[v|] vars]; cbn [fst snd] in *;
      cbn [flow_inv snd].
    + split; [eapply extends_trans; eassumption|].
      destruct (wf_work_extends vars w Hext1 Hwf) as (Hes & Has & Hm).
      cbn [w_es w_as w_macros w_vars] in *.
      split; [|now split]. cbn [w_es w_vars].
      constructor; [|exact Hes]. unfold expr_varref. cbn [well_formed].
      specialize (Hlive v eq_refl).
      destruct (var_read vars v); [reflexivity | contradiction].
    + split; [eapply extends_trans; eassumption|].
      exact (wf_work_extends vars w Hext1 Hwf).
Qed.

Lemma dispatch_inv vars0 funcs tok paren w :
  compile_inv vars0 w ->
  flow_inv vars0 (fun r => compile_inv vars0 (snd r))
    (dispatch funcs tok paren w).
Proof.
  intros Hinv. pose proof Hinv as [Hext (Hes & Has & Hm)]. unfold dispatch.
  destruct (String.eqb tok "(").
  - destruct paren; cbn [flow_inv snd]; try exact Hext.
    + split; [exact Hext|]. split; [exact Hes|]. now split.
    + split; [exact Hext|]. split; [exact Hes|]. split; [|exact Hm].
      cbn [w_as w_vars]. constructor; [constructor | exact Has].
  - assert (Hrest :
      flow_inv vars0
        (fun r : string * paren_state * work => compile_inv vars0 (snd r))
        (if String.eqb tok ")" then
           w' <~ close_paren funcs w ;;
           Go (EmptyString, EXPR_PAREN_FORBIDDEN, w')
         else
           let num := expr_parse_number tok in
           if negb (isnan num) then
             Go (EmptyString, EXPR_PAREN_FORBIDDEN,
                 mk_work (stack_push (w_es w) (expr_const num)) (w_os w)
                   (w_as w) (w_macros w) (w_vars w) (w_heap w))
           else if negb (expr_type_eqb (expr_op tok (-1)) OP_UNKNOWN) then
             ' (es, os, as_) <~
               push_operator tok (expr_op tok (-1)) (w_os w) (w_es w)
                 (w_as w) (w_vars w) ;;
             Go (EmptyString, EXPR_PAREN_ALLOWED,
                 mk_work es os as_ (w_macros w) (w_vars w) (w_heap w))
           else if Nat.ltb 0 (String.length tok)
                   && negb (match tok with
                            | String c _ => Chr.isdigit c
                            | EmptyString => false
                            end)
           then Go (tok, EXPR_PAREN_ALLOWED, w)
           else Cleanup (w_vars w))).
    { destruct (String.eqb tok ")").
      - eapply flow_inv_bind; [now apply close_paren_inv|].
        intros w' Hw'. exact Hw'.
      - cbv zeta. destruct (negb (isnan (expr_parse_number tok))).
        + cbn [flow_inv snd]. split; [exact Hext|].
          split; [|now split]. cbn [w_es w_vars].
          constructor; [reflexivity | exact Hes].
        + destruct (negb (expr_type_eqb (expr_op tok (-1)) OP_UNKNOWN)).
          * eapply flow_inv_bind;
              [apply push_operator_inv; eassumption|].
            intros [[es os] as_] [Hes' Has']. cbn [fst snd] in *.
            cbn [flow_inv snd]. split; [exact Hext|].
            split; [exact Hes'|]. now split.
          * destruct (Nat.ltb 0 (String.length tok) && _);
              [exact Hinv | exact Hext]. }
    destruct paren; [exact Hrest | exact Hext | exact Hrest].
Qed.

Lemma turn_of_inv vars0 funcs p :
  compile_inv vars0 (p_work p) ->
  flow_inv vars0
    (fun t => match t with
              | Continue p' | Break p' => compile_inv vars0 (p_work p')
              end)
    (turn_of funcs p).
Proof.
  intros Hinv. pose proof Hinv as [Hext _]. unfold turn_of.
  destruct (expr_next_token (p_src p) (p_flags p)) as [n flags].
  destruct (n =? 0); [exact Hinv|].
  destruct (n <? 0); [exact Hext|].
  destruct (starts_with "#" _); [exact Hinv|].
  destruct (unary_rewrite _ flags) as [tok1|]; [|exact Hext].
  destruct (newline_comma tok1 flags) as [tok2 flags2].
  destruct (match tok2 with String c _ => Chr.isspace c | _ => false end);
    [exact Hinv|].
  eapply flow_inv_bind; [now apply resolve_word_inv|].
  intros [paren w] Hw. cbn [snd] in Hw.
  eapply flow_inv_bind; [now apply dispatch_inv|].
  intros [[id paren_next] w'] Hw'. exact Hw'.
Qed.

Lemma main_loop_inv vars0 funcs fuel : forall p r,
  compile_inv vars0 (p_work p) ->
  main_loop funcs fuel p = Some r ->
  flow_inv vars0 (fun p' => compile_inv vars0 (p_work p')) r.
Proof.
  induction fuel as [|fuel IH]; intros p r Hinv; cbn [main_loop];
    [discriminate|].
  pose proof (turn_of_inv vars0 funcs p Hinv) as Ht.
  destruct (turn_of funcs p) as [[p'|p']| |]; cbn [flow_inv] in Ht.
  - now apply IH.
  - intros [= <-]. exact Ht.
  - intros [= <-]. exact Ht.
  - intros [= <-]. exact I.
Qed.

Lemma finish_inv vars0 p :
  compile_inv vars0 (p_work p) ->
  flow_inv vars0
    (fun c => extends (c_vars c) vars0
              /\ match c_result c with
                 | Some e => well_formed (c_vars c) e = true
                 | None => False
                 end)
    (finish p).
Proof.
  intros [Hext Hwf]. unfold finish.
  apply flow_inv_bind with
    (Q := fun r => extends (snd r) vars0 /\ wf_list (snd r) (fst r)).
  - destruct (Nat.ltb 0 (String.length (p_id p))).
    + pose proof (expr_var_extends (w_vars (p_work p)) (p_id p)) as Hext1.
      pose proof (expr_var_live (w_vars (p_work p)) (p_id p)) as Hlive.
      destruct (expr_var (w_vars (p_work p)) (p_id p)) as [[v|] vars];
        [|exact I].
      cbn [fst snd flow_inv] in *.
      split; [eapply extends_trans; eassumption|].
      constructor.
      * unfold expr_varref. cbn [well_formed]. specialize (Hlive v eq_refl).
        destruct (var_read vars v); [reflexivity | contradiction].
      * eapply wf_list_extends; [eassumption | exact (proj1 Hwf)].
    + cbn [flow_inv fst snd]. split; [exact Hext | exact (proj1 Hwf)].
  - intros [es vars] [Hext' Hes]. cbn [fst snd] in *.
    apply flow_inv_bind with (Q := wf_list vars);
      [now apply drain_inv|].
    intros es' Hes'. destruct es' as [|e rest]; cbn [stack_pop flow_inv].
    + cbn [c_vars c_result]. now split.
    + cbn [c_vars c_result]. split; [exact Hext'|].
      now inversion Hes'.
Qed.

Lemma expr_create_inv s vars funcs c :
  expr_create s vars funcs = Some c ->
  extends (c_vars c) vars
  /\ match c_result c with
     | Some e => well_formed (c_vars c) e = true
     | None => True
     end.
Proof.
  unfold expr_create.
  destruct (main_loop funcs (S (String.length s)) _) as [r|] eqn:Eloop;
    [|discriminate].
  assert (Hstart : compile_inv vars (mk_work [] [] [] [] vars 0)).
  { split; [apply extends_refl|]. repeat split; constructor. }
  pose proof (main_loop_inv vars funcs _
                (mk_parser s EXPR_TDEFAULT EXPR_PAREN_ALLOWED EmptyString
                   (mk_work [] [] [] [] vars 0))
                r Hstart Eloop) as Hr.
  assert (Hfin : flow_inv vars
            (fun c => extends (c_vars c) vars
                      /\ match c_result c with
                         | Some e => well_formed (c_vars c) e = true
                         | None => False
                         end)
            (flow_bind r finish)).
  { eapply flow_inv_bind; [exact Hr|]. intros p'. apply finish_inv. }
  destruct (flow_bind r finish) as [c'|vars'|]; cbn [flow_inv] in Hfin.
  - intros [= <-]. destruct Hfin as [H1 H2]. split; [exact H1|].
    destruct (c_result c'); [exact H2 | exact I].
  - intros [= <-]. cbn [c_vars c_result]. now split.
  - discriminate.
Qed.

(** Sources outside the reach of the statements on [expr_create]
    that follow: after the [(] of a call and an empty pair of parens,
    the comma of the argument list pops the empty stack [es] (the
    [vec_pop] of the operator loop), which is undefined behaviour. *)
Lemma empty_argument_undefined :
  expr_create "acc((),1)" [] [fn_acc] = None
  /\ expr_create "$((),1)" [] [] = None.
Proof. split; vm_compute; reflexivity. Qed.

(** X13. Variable handles are stable across a compilation.  On every
    source on which [expr_create] has defined behaviour (the result is
    not [None]; a source like ["acc((),1)"], which pops the empty stack
    of operands, is not covered), whether a tree or [NULL] is
    returned, [expr_create] only puts new cells in front of the
    caller's list, at addresses that were not live, so that every
    handle that was live before reads the same value afterwards. *)
Theorem expr_create_keeps_variables (s : string) (vars : expr_var_list)
    (funcs : list expr_func_desc) (c : compiled)
    (Hc : expr_create s vars funcs = Some c) :
  extends (c_vars c) vars
  /\ forall h, var_read vars h <> None ->
               var_read (c_vars c) h = var_read vars h.
Proof.
  destruct (expr_create_inv s vars funcs c Hc) as [Hext _].
  split; [exact Hext|]. intros h. now apply extends_read.
Qed.

Lemma expr_create_keeps_variables_witness :
  expr_create "y = x + z, (" vars_xy []
  = Some (mk_compiled None (mk_var 3%nat "z" zero :: vars_xy))
  /\ extends (mk_var 3%nat "z" zero :: vars_xy) vars_xy.
Proof.
  assert (Hc : expr_create "y = x + z, (" vars_xy []
               = Some (mk_compiled None (mk_var 3%nat "z" zero :: vars_xy)))
    by (vm_compute; reflexivity).
  split; [exact Hc|].
  exact (proj1 (expr_create_keeps_variables _ _ _ _ Hc)).
Defined.

(** X14. Every tree [expr_create] returns is well-formed in the list of
    variables it leaves: each unary node has one child and each binary
    node two, the left child of each assignment is a variable, each
    handle is live, and each call has a context block exactly when its
    descriptor asks for one. *)
Theorem expr_create_well_formed (s : string) (vars : expr_var_list)
    (funcs : list expr_func_desc) (c : compiled) (e : expr)
    (Hc : expr_create s vars funcs = Some c)
    (He : c_result c = Some e) :
  well_formed (c_vars c) e = true.
Proof.
  destruct (expr_create_inv s vars funcs c Hc) as [_ Hwf].
  rewrite He in Hwf. exact Hwf.
Qed.

Lemma expr_create_well_formed_witness :
  exists c e,
    expr_create "$(sq, $1*$1), y = sq(x + 2)" vars_xy [] = Some c
    /\ c_result c = Some e
    /\ well_formed (c_vars c) e = true.
Proof.
  destruct (expr_create "$(sq, $1*$1), y = sq(x + 2)" vars_xy [])
    as [c|] eqn:Hc; [|vm_compute in Hc; discriminate Hc].
  destruct (c_result c) as [e|] eqn:He.
  - exists c, e. split; [reflexivity|]. split; [exact He|].
    exact (expr_create_well_formed _ _ _ c e Hc He).
  - vm_compute in Hc. injection Hc as <-. discriminate He.
Defined.

Section CompiledTrees.

Variable world : Type.
Variable powf fmodf : float -> float -> float.
Variable call : expr_func_desc -> list expr -> option nat -> M world float.

(** X15. Compiling and then evaluating: a tree that [expr_create]
    returned and that holds no call and no bitwise or shift operator
    evaluates to a value from the variables the compilation left,
    whatever their values and whatever the host state, and can be
    evaluated again afterwards. *)
Theorem compiled_float_tree_evaluates (s : string) (vars : expr_var_list)
    (funcs : list expr_func_desc) (c : compiled) (e : expr)
    (st : state world)
    (Hc : expr_create s vars funcs = Some c)
    (He : c_result c = Some e)
    (Hfl : float_only e = true)
    (Hst : map var_addr (st_vars st) = map var_addr (c_vars c)) :
  exists v st',
    expr_eval world powf fmodf call e st = Some (v, st')
    /\ map var_addr (st_vars st') = map var_addr (c_vars c)
    /\ exists v' st'',
         expr_eval world powf fmodf call e st' = Some (v', st'').
Proof.
  destruct (expr_create_inv s vars funcs c Hc) as [_ Hwf].
  rewrite He in Hwf.
  pose proof (runs_eval world powf fmodf call (c_vars c) e Hwf Hfl) as Hrun.
  destruct (Hrun st Hst) as (v & st' & Hev & Hst').
  exists v, st'. split; [exact Hev|]. split; [exact Hst'|].
  destruct (Hrun st' Hst') as (v' & st'' & Hev' & _). eauto.
Qed.

End CompiledTrees.

Lemma compiled_float_tree_evaluates_witness :
  exists c e,
    expr_create "x = 5, x*x" [] [] = Some c
    /\ c_result c = Some e
    /\ float_only e = true
    /\ exists v st',
         eval0 e (mk_state (c_vars c) tt) = Some (v, st').
Proof.
  destruct (expr_create "x = 5, x*x" [] []) as [c|] eqn:Hc;
    [|vm_compute in Hc; discriminate Hc].
  destruct (c_result c) as [e|] eqn:He;
    [|vm_compute in Hc; injection Hc as <-; discriminate He].
  assert (Hfl : float_only e = true).
  { vm_compute in Hc. injection Hc as <-. injection He as <-. reflexivity. }
  exists c, e. split; [reflexivity|]. split; [exact He|]. split; [exact Hfl|].
  destruct (compiled_float_tree_evaluates unit powf_small no_fmodf no_call
              _ _ _ c e (mk_state (c_vars c) tt) Hc He Hfl eq_refl)
    as (v & st' & Hev & _).
  exists v, st'. exact Hev.
Defined.

(** ** Sources the compiler rejects, and the end of its loop *)

Lemma digit_tests (c : ascii) :
  Chr.isdigit c = true ->
  Ascii.eqb c "#" = false /\ Ascii.eqb c Chr.newline = false
  /\ Chr.isspace c = false /\ Ascii.eqb c "(" = false
  /\ Ascii.eqb c ")" = false.
Proof.
  each_byte c; vm_compute; intros H; try discriminate H; repeat split.
Qed.

Lemma word_start_tests (c : ascii) :
  Chr.isfirstvarchr c = true ->
  Ascii.eqb c "#" = false /\ Ascii.eqb c Chr.newline = false
  /\ Chr.isspace c = false /\ Chr.isdigit c = false.
Proof.
  each_byte c; vm_compute; intros H; try discriminate H; repeat split.
Qed.

Lemma blank_tests (c : ascii) :
  is_blank c = true ->
  Ascii.eqb c "#" = false /\ Ascii.eqb c Chr.newline = false
  /\ Chr.isspace c = true /\ Ascii.eqb c "-" = false
  /\ Ascii.eqb c "^" = false /\ Ascii.eqb c "!" = false.
Proof.
  each_byte c; vm_compute; intros H; try discriminate H; repeat split.
Qed.

Lemma digit_is_no_operator (c : ascii) (t : string) (unary : Z) :
  Chr.isdigit c = true -> expr_op (String c t) unary = OP_UNKNOWN.
Proof.
  each_byte c; vm_compute Chr.isdigit; intros H; try discriminate H;
    reflexivity.
Qed.

Lemma string_eqb_head (c d : ascii) (t : string) :
  Ascii.eqb c d = false -> String.eqb (String c t) (String d EmptyString) = false.
Proof. intros H. cbn [String.eqb]. now rewrite H. Qed.

Lemma take_head (k : nat) (c : ascii) (rest : string) :
  (1 <= k)%nat -> take k (String c rest) = String c (take (k - 1) rest).
Proof.
  destruct k as [|k]; [lia|]. intros _. cbn [take].
  now replace (S k - 1)%nat with k by lia.
Qed.

Lemma next_token_digit (c : ascii) (rest : string) (flags : Z) :
  Chr.isdigit c = true -> has_flag flags EXPR_TNUMBER = true ->
  expr_next_token (String c rest) flags
  = (Z.of_nat (span isnumchr (String c rest)),
     flag_or [EXPR_TOP; EXPR_TCLOSE]).
Proof.
  intros Hc Hflag. destruct (digit_tests c Hc) as (H1 & H2 & H3 & _).
  unfold expr_next_token. now rewrite H1, H2, H3, Hc, Hflag.
Qed.

(** X16. A number directly followed by a word does not compile.  When
    the source starts with a digit and the byte after its run of
    digits and dots is a first byte of a word, as in ["4ever"] or
    ["2x"], [expr_create] returns [NULL] and the list of variables is
    left as it was. *)
Theorem number_then_word_rejected (c : ascii) (rest : string)
    (vars : expr_var_list) (funcs : list expr_func_desc)
    (d : ascii) (r : string)
    (Hc : Chr.isdigit c = true)
    (Hnext : drop (span isnumchr (String c rest)) (String c rest)
             = String d r)
    (Hd : Chr.isfirstvarchr d = true) :
  expr_create (String c rest) vars funcs = Some (mk_compiled None vars).
Proof.
  set (s := String c rest) in *. set (n := span isnumchr s) in *.
  assert (Hnum : isnumchr c = true) by (unfold isnumchr; rewrite Hc;
                                          apply orb_true_r).
  assert (Hn : (1 <= n <= String.length s)%nat).
  { split; [now apply span_first | apply span_le_length]. }
  assert (Hlen : (n < String.length s)%nat).
  { pose proof (drop_length n s) as Hl. rewrite Hnext in Hl.
    change (String.length (String d r)) with (S (String.length r)) in Hl.
    lia. }
  destruct (digit_tests c Hc) as (H1 & H2 & H3 & H4 & H5).
  destruct (word_start_tests d Hd) as (D1 & D2 & D3 & D4).
  assert (Htake : take n s = String c (take (n - 1) rest)).
  { apply take_head. lia. }
  unfold expr_create.
  destruct (String.length s) as [|[|len]] eqn:El; try lia.
  cbn [main_loop]. unfold turn_of at 1. cbn [p_src p_flags p_work p_id p_paren].
  pose proof (next_token_digit c rest EXPR_TDEFAULT Hc eq_refl) as Htok.
  fold s in Htok. fold n in Htok. rewrite Htok.
  destruct (Z.of_nat n =? 0) eqn:E0; [apply Z.eqb_eq in E0; lia|].
  destruct (Z.of_nat n <? 0) eqn:E1; [apply Z.ltb_lt in E1; lia|].
  rewrite Nat2Z.id, Hnext, Htake.
  cbn [starts_with]. rewrite H1.
  unfold unary_rewrite. change (has_flag (flag_or [EXPR_TOP; EXPR_TCLOSE])
                                  EXPR_UNARY) with false. cbn [andb].
  unfold newline_comma. cbn [starts_with]. rewrite H2. cbn [andb].
  rewrite H3. unfold resolve_word. cbn [String.length Nat.ltb Nat.leb].
  cbn [flow_bind]. unfold dispatch.
  rewrite (string_eqb_head c "(" _ H4), (string_eqb_head c ")" _ H5).
  cbv zeta.
  destruct (negb (isnan (expr_parse_number (String c (take (n - 1) rest))))).
  - cbn [flow_bind main_loop]. unfold turn_of.
    cbn [p_src p_flags p_work w_vars].
    unfold expr_next_token. rewrite D1, D2, D3, D4, Hd.
    change (has_flag (flag_or [EXPR_TOP; EXPR_TCLOSE]) EXPR_TWORD) with false.
    reflexivity.
  - rewrite (digit_is_no_operator c _ (-1) Hc).
    change (expr_type_eqb OP_UNKNOWN OP_UNKNOWN) with true. cbn [negb].
    rewrite Hc. rewrite andb_false_r. reflexivity.
Qed.

Lemma number_then_word_rejected_witness :
  Chr.isdigit "4" = true
  /\ drop (span isnumchr "4ever") "4ever" = "ever"%string
  /\ Chr.isfirstvarchr "e" = true
  /\ expr_create "4ever" vars_xy [] = Some (mk_compiled None vars_xy).
Proof.
  split; [reflexivity|]. split; [reflexivity|]. split; [reflexivity|].
  exact (number_then_word_rejected "4" "ever" vars_xy [] "e" "ver"
           eq_refl eq_refl eq_refl).
Defined.

Lemma span_blank_one (b : ascii) (rest : string) :
  is_blank b = true ->
  match rest with
  | EmptyString => True
  | String c _ => is_blank c = false
  end ->
  span (fun d => Chr.isspace d && negb (Ascii.eqb d Chr.newline))
    (String b rest) = 1%nat.
Proof.
  intros Hb Hrest. cbn [span]. fold (is_blank b). rewrite Hb.
  destruct rest as [|c r]; [reflexivity|]. cbn [span]. fold (is_blank c).
  now rewrite Hrest.
Qed.

(** X17. A unary operator must touch its operand unless two or more
    blanks separate them: when the source starts with [-], [!] or [^]
    followed by exactly one blank (a space other than the newline),
    [expr_create] returns [NULL] and leaves the list of variables as
    it was, whatever follows. *)
Theorem unary_then_one_blank_rejected (u b : ascii) (rest : string)
    (vars : expr_var_list) (funcs : list expr_func_desc)
    (Hu : is_unary_byte u = true)
    (Hb : is_blank b = true)
    (Hrest : match rest with
             | EmptyString => True
             | String c _ => is_blank c = false
             end) :
  expr_create (String u (String b rest)) vars funcs
  = Some (mk_compiled None vars).
Proof.
  destruct (blank_tests b Hb) as (B1 & B2 & B3 & B4 & B5 & B6).
  pose proof (span_blank_one b rest Hb Hrest) as Hspan.
  assert (Hturn2 : forall w,
            w_vars w = vars ->
            turn_of funcs
              (mk_parser (String b rest) 58 EXPR_PAREN_ALLOWED EmptyString w)
            = Cleanup vars).
  { intros w Hw. unfold turn_of. cbn [p_src p_flags p_work].
    unfold expr_next_token. rewrite B1, B2, B3, Hspan.
    change (Z.of_nat 1 =? 0) with false. change (Z.of_nat 1 <? 0) with false.
    cbv iota. change (Z.to_nat (Z.of_nat 1)) with 1%nat.
    cbn [take starts_with]. rewrite B1.
    unfold unary_rewrite. cbn [String.length starts_with Nat.eqb].
    change (has_flag 58 EXPR_UNARY) with true.
    cbn [andb]. rewrite B4, B5, B6. now rewrite Hw. }
  assert (Hturn1 : forall op tok,
            (op, tok) = ("-"%char, "-u"%string)
            \/ (op, tok) = ("!"%char, "!u"%string)
            \/ (op, tok) = ("^"%char, "^u"%string) ->
            turn_of funcs
              (mk_parser (String op (String b rest)) EXPR_TDEFAULT
                 EXPR_PAREN_ALLOWED EmptyString
                 (mk_work [] [] [] [] vars 0))
            = Go (Continue
                    (mk_parser (String b rest) 58 EXPR_PAREN_ALLOWED
                       EmptyString (mk_work [] [tok] [] [] vars 0)))).
  { intros op tok [H|[H|H]]; injection H as -> ->; vm_compute; reflexivity. }
  unfold is_unary_byte in Hu.
  unfold expr_create. cbn [String.length main_loop].
  apply orb_true_iff in Hu as [Hu|Hu];
    [apply orb_true_iff in Hu as [Hu|Hu]|];
    apply Ascii.eqb_eq in Hu; subst u.
  - rewrite (Hturn1 "-"%char "-u"%string) by auto.
    rewrite Hturn2 by reflexivity. reflexivity.
  - rewrite (Hturn1 "!"%char "!u"%string) by auto.
    rewrite Hturn2 by reflexivity. reflexivity.
  - rewrite (Hturn1 "^"%char "^u"%string) by auto.
    rewrite Hturn2 by reflexivity. reflexivity.
Qed.

Lemma unary_then_one_blank_rejected_witness :
  is_unary_byte "-" = true
  /\ is_blank " " = true
  /\ expr_create "- 1" vars_xy [] = Some (mk_compiled None vars_xy)
  /\ expr_create "-  1" vars_xy []
     = Some (mk_compiled
               (Some (Op OP_UNARY_MINUS [Const one])) vars_xy).
Proof.
  split; [reflexivity|]. split; [reflexivity|].
  split; [|vm_compute; reflexivity].
  exact (unary_then_one_blank_rejected "-" " " "1" vars_xy []
           eq_refl eq_refl eq_refl).
Defined.

(** X18. The loop of [expr_create] ends: a turn that goes on to the
    next leaves a strictly shorter unread buffer, a suffix of the one
    it found, so that the loop makes at most as many turns as the
    source has bytes, plus the one that sees its end. *)
Theorem compile_loop_progress (funcs : list expr_func_desc) :
  (forall p p',
      turn_of funcs p = Go (Continue p') ->
      (String.length (p_src p') < String.length (p_src p))%nat
      /\ exists k, p_src p' = drop k (p_src p))
  /\ (forall p fuel,
         (String.length (p_src p) < fuel)%nat ->
         exists r, main_loop funcs fuel p = Some r).
Proof.
  split.
  - intros p p' Hturn. split; [eapply turn_of_consumes; eassumption|].
    revert Hturn. unfold turn_of.
    destruct (expr_next_token (p_src p) (p_flags p)) as [n flags].
    destruct (n =? 0); [discriminate|].
    destruct (n <? 0); [discriminate|].
    destruct (starts_with "#" _);
      [intros [= <-]; exists (Z.to_nat n); reflexivity|].
    destruct (unary_rewrite _ flags) as [tok1|]; [|discriminate].
    destruct (newline_comma tok1 flags) as [tok2 flags2].
    destruct (match tok2 with String c _ => Chr.isspace c | _ => false end);
      [intros [= <-]; exists (Z.to_nat n); reflexivity|].
    destruct (resolve_word funcs tok2 (p_id p) (p_paren p) (p_work p))
      as [[paren w]| |]; cbn [flow_bind]; try discriminate.
    destruct (dispatch funcs tok2 paren w) as [[[id paren_next] w']| |];
      cbn [flow_bind]; try discriminate.
    intros [= <-]. exists (Z.to_nat n). reflexivity.
  - intros p fuel Hfuel. pose proof (main_loop_ends funcs fuel p Hfuel) as H.
    destruct (main_loop funcs fuel p) as [r|]; [eauto | contradiction].
Qed.

Lemma compile_loop_progress_witness :
  exists r,
    main_loop []
      4 (mk_parser "1+2" EXPR_TDEFAULT EXPR_PAREN_ALLOWED EmptyString
           (mk_work [] [] [] [] [] 0))
    = Some r.
Proof.
  exact (proj2 (compile_loop_progress [])
           (mk_parser "1+2" EXPR_TDEFAULT EXPR_PAREN_ALLOWED EmptyString
              (mk_work [] [] [] [] [] 0))
           4%nat ltac:(simpl; lia)).
Defined.

(** ** Small integers through the [int] view *)

Lemma digits2_pos_bounds (m : positive) :
  2 ^ (Zpos (digits2_pos m) - 1) <= Zpos m < 2 ^ Zpos (digits2_pos m).
Proof.
  induction m as [p IH|p IH|]; cbn [digits2_pos].
  - rewrite Pos2Z.inj_succ.
    replace (Z.succ (Zpos (digits2_pos p)) - 1)
      with (Z.succ (Zpos (digits2_pos p) - 1)) by lia.
    rewrite !Z.pow_succ_r by lia. lia.
  - rewrite Pos2Z.inj_succ.
    replace (Z.succ (Zpos (digits2_pos p)) - 1)
      with (Z.succ (Zpos (digits2_pos p) - 1)) by lia.
    rewrite !Z.pow_succ_r by lia. lia.
  - simpl. lia.
Qed.

Lemma iter_xO_value (m p : positive) :
  Zpos (Pos.iter xO m p) = Zpos m * 2 ^ Zpos p.
Proof.
  induction p as [|p IH] using Pos.peano_ind.
  - simpl. lia.
  - rewrite Pos.iter_succ, Pos2Z.inj_succ, Z.pow_succ_r by lia.
    rewrite Pos2Z.inj_xO, IH. lia.
Qed.

Lemma iter_xO_digits (m p : positive) :
  Zpos (digits2_pos (Pos.iter xO m p)) = Zpos (digits2_pos m) + Zpos p.
Proof.
  induction p as [|p IH] using Pos.peano_ind.
  - simpl. lia.
  - rewrite Pos.iter_succ. cbn [digits2_pos].
    rewrite !Pos2Z.inj_succ, IH. lia.
Qed.

Lemma binary_round_aux_exact (sx : bool) (mz : positive) (ez : Z) :
  Zpos (digits2_pos mz) = 24 -> -149 <= ez <= 104 ->
  binary_round_aux mant_bits exp_max sx (Zpos mz) ez loc_Exact
  = S754_finite sx mz ez.
Proof.
  intros Hd He.
  assert (Hshift : shr_fexp mant_bits exp_max (Zpos mz) ez loc_Exact
                   = (Build_shr_record (Zpos mz) false false, ez)).
  { unfold shr_fexp, fexp, emin, Zdigits2, mant_bits, exp_max.
    rewrite Hd.
    replace (Z.sub (Z.max (Z.sub (Z.add 24 ez) 24)
                      (Z.sub (Z.sub 3 128) 24)) ez) with 0 by lia.
    reflexivity. }
  unfold binary_round_aux. rewrite Hshift.
  cbn [shr_m loc_of_shr_record round_nearest_even]. rewrite Hshift.
  cbn [shr_m]. unfold mant_bits, exp_max.
  assert (Hle : Z.leb ez (Z.sub 128 24) = true) by (apply Z.leb_le; lia).
  now rewrite Hle.
Qed.

Lemma binary_round_small (sx : bool) (m : positive) :
  Zpos m < 2 ^ 24 ->
  exists mz ez,
    binary_round mant_bits exp_max sx m 0 = S754_finite sx mz ez
    /\ -23 <= ez <= 0
    /\ Zpos mz = Zpos m * 2 ^ (- ez).
Proof.
  intros Hm. pose proof (digits2_pos_bounds m) as [Hlo Hhi].
  assert (Hd : 1 <= Zpos (digits2_pos m) <= 24).
  { split; [lia|].
    destruct (Z_le_gt_dec (Zpos (digits2_pos m)) 24) as [|Hgt]; [assumption|].
    assert (2 ^ 24 <= 2 ^ (Zpos (digits2_pos m) - 1))
      by (apply Z.pow_le_mono_r; lia).
    lia. }
  unfold binary_round, shl_align, fexp, emin, mant_bits, exp_max.
  replace (Z.max (Z.sub (Z.add (Zpos (digits2_pos m)) 0) 24)
             (Z.sub (Z.sub 3 128) 24))
    with (Zpos (digits2_pos m) - 24) by lia.
  destruct (Z.sub (Zpos (digits2_pos m) - 24) 0) as [|q|q] eqn:Eq; try lia.
  - exists m, 0. split; [|split; [lia | simpl; lia]].
    apply (binary_round_aux_exact sx m 0); lia.
  - assert (Hq : Zpos q = 24 - Zpos (digits2_pos m)) by lia.
    exists (Pos.iter xO m q), (Zpos (digits2_pos m) - 24).
    split; [|split; [lia|]].
    + apply binary_round_aux_exact; [|lia]. rewrite iter_xO_digits. lia.
    + rewrite iter_xO_value. f_equal. f_equal. lia.
Qed.

Lemma of_int_small_trunc (z : Z) :
  - 2 ^ 24 < z < 2 ^ 24 ->
  isnan (of_int z) = false /\ isinf (of_int z) = 0 /\ trunc (of_int z) = z.
Proof.
  intros Hz. unfold of_int, binary_normalize. destruct z as [|m|m].
  - repeat split.
  - destruct (binary_round_small false m ltac:(lia))
      as (mz & ez & -> & Hez & Hmz).
    split; [reflexivity|]. split; [reflexivity|].
    destruct (trunc_finite false mz ez) as [Hpos Hneg].
    destruct (Z.eq_dec ez 0) as [->|Hne].
    + rewrite Hpos by lia. cbn [cond_Zopp]. change (- 0) with 0 in Hmz.
      lia.
    + rewrite Hneg by lia. cbn [cond_Zopp]. rewrite Hmz.
      apply Z.quot_mul. apply Z.pow_nonzero; lia.
  - destruct (binary_round_small true m ltac:(lia))
      as (mz & ez & -> & Hez & Hmz).
    split; [reflexivity|]. split; [reflexivity|].
    destruct (trunc_finite true mz ez) as [Hpos Hneg].
    destruct (Z.eq_dec ez 0) as [->|Hne].
    + rewrite Hpos by lia. cbn [cond_Zopp]. change (- 0) with 0 in Hmz.
      lia.
    + rewrite Hneg by lia. cbn [cond_Zopp].
      change (Z.opp (Zpos mz)) with (- Zpos mz).
      rewrite Z.quot_opp_l by (apply Z.pow_nonzero; lia).
      rewrite Hmz, Z.quot_mul by (apply Z.pow_nonzero; lia). lia.
Qed.

Lemma to_int_of_int (z : Z) :
  - 2 ^ 24 < z < 2 ^ 24 -> to_int (of_int z) = Some z.
Proof.
  intros Hz. destruct (of_int_small_trunc z Hz) as (Hnan & Hinf & Ht).
  unfold to_int, int_of_float, in_int, INT_MIN, INT_MAX.
  rewrite Hnan, Hinf, Ht. cbn [Z.eqb negb].
  assert (H1 : (-2147483648 <=? z) = true) by (apply Z.leb_le; lia).
  assert (H2 : (z <=? 2147483647) = true) by (apply Z.leb_le; lia).
  now rewrite H1, H2.
Qed.

(** X19. Integers of magnitude below 2^24 pass through the value type
    unchanged: converted to [float] and back by [to_int] they are
    themselves. *)
Theorem to_int_of_int_small (z : Z) (Hz : - 2 ^ 24 < z < 2 ^ 24) :
  to_int (of_int z) = Some z
  /\ INT_MIN < z < INT_MAX
  /\ trunc (of_int z) = z.
Proof.
  destruct (of_int_small_trunc z Hz) as (Hnan & Hinf & Ht).
  split; [|split; [unfold INT_MIN, INT_MAX; lia | exact Ht]].
  unfold to_int. rewrite Hnan, Hinf. cbn [Z.eqb negb].
  unfold int_of_float. rewrite Ht.
  assert (Hin : in_int z = true).
  { unfold in_int, INT_MIN, INT_MAX. apply andb_true_iff.
    split; apply Z.leb_le; lia. }
  now rewrite Hin.
Qed.

Lemma to_int_of_int_small_witness :
  - 2 ^ 24 < -12345678 < 2 ^ 24
  /\ to_int (of_int (-12345678)) = Some (-12345678).
Proof.
  assert (Hz : - 2 ^ 24 < -12345678 < 2 ^ 24) by (simpl; lia).
  split; [exact Hz|]. exact (proj1 (to_int_of_int_small (-12345678) Hz)).
Defined.

Section BitwiseExact.

Variable world : Type.
Variable powf fmodf : float -> float -> float.
Variable call : expr_func_desc -> list expr -> option nat -> M world float.

Local Abbreviation eval := (expr_eval world powf fmodf call).

(** X20. The bitwise operators are exact on small integers: when two
    children evaluate to the floats of integers [i] and [j] of
    magnitude below 2^24, the nodes [&], [|] and [^] evaluate to the
    float of the bitwise and, or and exclusive or of [i] and [j] in
    two's complement, and [~] to the float of the complement. *)
Theorem bitwise_exact_on_small_integers (a b : expr)
    (st st1 st2 : state world) (i j : Z)
    (Hi : - 2 ^ 24 < i < 2 ^ 24) (Hj : - 2 ^ 24 < j < 2 ^ 24)
    (Ha : eval a st = Some (of_int i, st1))
    (Hb : eval b st1 = Some (of_int j, st2)) :
  eval (Op OP_BITWISE_AND [a; b]) st = Some (of_int (Z.land i j), st2)
  /\ eval (Op OP_BITWISE_OR [a; b]) st = Some (of_int (Z.lor i j), st2)
  /\ eval (Op OP_BITWISE_XOR [a; b]) st = Some (of_int (Z.lxor i j), st2)
  /\ eval (Op OP_UNARY_BITWISE_NOT [a]) st = Some (of_int (- i - 1), st1).
Proof.
  pose proof (to_int_of_int i Hi) as Ti.
  pose proof (to_int_of_int j Hj) as Tj.
  repeat split; cbn [expr_eval]; unfold int_op, bind, lift, ret;
    rewrite Ha, Ti; cbn [option_map]; try rewrite Hb, Tj;
    cbn [option_map]; reflexivity.
Qed.

End BitwiseExact.

Lemma bitwise_exact_on_small_integers_witness :
  - 2 ^ 24 < 5 < 2 ^ 24
  /\ - 2 ^ 24 < -4 < 2 ^ 24
  /\ eval0 (Op OP_BITWISE_AND [Const (of_int 5); Const (of_int (-4))])
       st_empty
     = Some (of_int 4, st_empty).
Proof.
  assert (H5 : - 2 ^ 24 < 5 < 2 ^ 24) by (simpl; lia).
  assert (H4 : - 2 ^ 24 < -4 < 2 ^ 24) by (simpl; lia).
  split; [exact H5|]. split; [exact H4|].
  exact (proj1 (bitwise_exact_on_small_integers unit powf_small no_fmodf
                  no_call (Const (of_int 5)) (Const (of_int (-4)))
                  st_empty st_empty st_empty 5 (-4) H5 H4 eq_refl eq_refl)).
Defined.

(** ** Who owns a context block *)

Lemma count_occ_flat_map (l : list expr) (p : nat) :
  count_occ Nat.eq_dec (flat_map expr_destroy_args l) p = owned_list l p.
Proof.
  unfold owned_list, owned. induction l as [|e r IH]; [reflexivity|].
  cbn [flat_map map list_sum]. now rewrite count_occ_app, IH.
Qed.

Lemma owned_op t args p : owned (Op t args) p = owned_list args p.
Proof.
  unfold owned at 1. rewrite expr_destroy_args_op. apply count_occ_flat_map.
Qed.

Lemma owned_func f args ctx p :
  owned (Func f args ctx) p
  = (owned_list args p
     + match ctx with
       | Some q => if Nat.eqb q p then 1 else 0
       | None => 0
       end)%nat.
Proof.
  unfold owned at 1. rewrite expr_destroy_args_func, count_occ_app.
  rewrite count_occ_flat_map. f_equal.
  destruct ctx as [q|]; [|reflexivity]. cbn [count_occ].
  destruct (Nat.eq_dec q p) as [->|Hne].
  - now rewrite Nat.eqb_refl.
  - apply Nat.eqb_neq in Hne. now rewrite Hne.
Qed.

Lemma owned_list_app l1 l2 p :
  owned_list (l1 ++ l2) p = (owned_list l1 p + owned_list l2 p)%nat.
Proof. unfold owned_list. now rewrite map_app, list_sum_app. Qed.

Lemma owned_list_cons e l p :
  owned_list (e :: l) p = (owned e p + owned_list l p)%nat.
Proof. reflexivity. Qed.

Lemma count_occ_seq (a n p : nat) :
  count_occ Nat.eq_dec (seq a n) p
  = if Nat.leb a p && Nat.ltb p (a + n) then 1%nat else 0%nat.
Proof.
  revert a. induction n as [|n IH]; intros a; cbn [seq count_occ].
  - destruct (Nat.leb a p) eqn:E1; [|reflexivity].
    destruct (Nat.ltb p (a + 0)) eqn:E2; [|reflexivity].
    apply Nat.leb_le in E1. apply Nat.ltb_lt in E2. lia.
  - rewrite IH. destruct (Nat.eq_dec a p) as [->|Hne].
    + assert (Nat.leb (S p) p = false) as -> by (apply Nat.leb_gt; lia).
      assert (Nat.leb p p = true) as -> by (apply Nat.leb_le; lia).
      assert (Nat.ltb p (p + S n) = true) as -> by (apply Nat.ltb_lt; lia).
      reflexivity.
    + destruct (Nat.leb (S a) p) eqn:E1, (Nat.leb a p) eqn:E2,
        (Nat.ltb p (S a + n)) eqn:E3, (Nat.ltb p (a + S n)) eqn:E4;
        try reflexivity;
        repeat match goal with
               | H : Nat.leb _ _ = true |- _ => apply Nat.leb_le in H
               | H : Nat.leb _ _ = false |- _ => apply Nat.leb_gt in H
               | H : Nat.ltb _ _ = true |- _ => apply Nat.ltb_lt in H
               | H : Nat.ltb _ _ = false |- _ => apply Nat.ltb_ge in H
               end; lia.
Qed.

Lemma owned_copy e heap p :
  (heap <= snd (expr_copy e heap))%nat
  /\ owned (fst (expr_copy e heap)) p
     = if Nat.leb heap p && Nat.ltb p (snd (expr_copy e heap)) then 1%nat
       else 0%nat.
Proof.
  destruct (expr_copy_ok e heap) as (Hle & _ & Hfree & _).
  split; [exact Hle|]. unfold owned. rewrite Hfree, count_occ_seq.
  now replace (heap + (snd (expr_copy e heap) - heap))%nat
    with (snd (expr_copy e heap)) by lia.
Qed.

Lemma owned_macro_tail body : forall heap p,
  (heap <= snd (macro_tail body heap))%nat
  /\ owned (fst (macro_tail body heap)) p
     = if Nat.leb heap p && Nat.ltb p (snd (macro_tail body heap)) then 1%nat
       else 0%nat.
Proof.
  induction body as [|e rest IH]; intros heap p.
  - cbn [macro_tail fst snd]. split; [lia|].
    destruct (Nat.leb heap p) eqn:E1, (Nat.ltb p heap) eqn:E2;
      try reflexivity.
    apply Nat.leb_le in E1. apply Nat.ltb_lt in E2. lia.
  - cbn [macro_tail]. destruct rest as [|e2 rest2]; [apply owned_copy|].
    pose proof (owned_copy e heap p) as [Hle Hown].
    destruct (expr_copy e heap) as [c hp1]. cbn [fst snd] in *.
    specialize (IH hp1 p).
    destruct (macro_tail (e2 :: rest2) hp1) as [r hp2]. cbn [fst snd] in *.
    destruct IH as [Hle' Hown']. split; [lia|].
    unfold expr_binary. rewrite owned_op.
    rewrite !owned_list_cons, Hown, Hown'. unfold owned_list.
    cbn [map list_sum]. clear Hown Hown'.
    destruct (Nat.leb_spec heap p), (Nat.ltb_spec p hp1),
      (Nat.leb_spec hp1 p), (Nat.ltb_spec p hp2); cbn; lia.
Qed.

Lemma owned_macro_root assigns tail p :
  owned (macro_root assigns tail) p
  = (owned_list assigns p + owned tail p)%nat.
Proof.
  induction assigns as [|a l IH]; [reflexivity|].
  change (macro_root (a :: l) tail)
    with (expr_binary OP_COMMA a (macro_root l tail)).
  unfold expr_binary. rewrite owned_op, !owned_list_cons, IH.
  change (owned_list [] p) with 0%nat. lia.
Qed.

Lemma owned_macro_params args : forall j vars,
  flow_go (fun r => forall p, owned_list (fst r) p = owned_list args p)
    (macro_params args j vars).
Proof.
  induction args as [|actual rest IH]; intros j vars; cbn [macro_params].
  - intros p. reflexivity.
  - destruct (expr_var vars (macro_varname (S j))) as [[h|] vars1];
      [|exact I].
    cbn [or_undef flow_bind]. specialize (IH (S j) vars1).
    destruct (macro_params rest (S j) vars1) as [[assigns vars2]| |];
      cbn [flow_bind flow_go fst] in *; auto.
    intros p. rewrite !owned_list_cons, IH. unfold expr_binary, expr_varref.
    rewrite owned_op, !owned_list_cons.
    change (owned_list [] p) with 0%nat.
    change (owned (Var h) p) with 0%nat. lia.
Qed.

Lemma owned_expr_bind s es es' p :
  expr_bind s es = Some es' -> owned_list es' p = owned_list es p.
Proof.
  unfold expr_bind, stack_pop, stack_push.
  destruct (expr_type_eqb (expr_op s (-1)) OP_UNKNOWN); [discriminate|].
  destruct (expr_is_unary (expr_op s (-1))).
  - destruct es as [|arg es1]; [discriminate|]. intros [= <-].
    rewrite !owned_list_cons, owned_op, owned_list_cons.
    change (owned_list [] p) with 0%nat. lia.
  - destruct es as [|b [|a es2]]; try discriminate.
    destruct (expr_type_eqb (expr_op s (-1)) OP_ASSIGN
              && negb (expr_type_eqb (expr_tag a) OP_VAR)); [discriminate|].
    intros [= <-]. rewrite !owned_list_cons, owned_op, !owned_list_cons.
    change (owned_list [] p) with 0%nat. lia.
Qed.

Lemma owned_unwind minlen os vars p : forall es,
  flow_go (fun r => owned_list (fst r) p = owned_list es p)
    (unwind minlen os es vars).
Proof.
  induction os as [|str below IH]; intros es; cbn [unwind]; [reflexivity|].
  destruct (Nat.ltb minlen (List.length (str :: below))
            && negb (starts_with "(" str) && negb (starts_with "{" str));
    [|reflexivity].
  destruct (expr_bind str es) as [es'|] eqn:E; [|exact I].
  specialize (IH es'). apply owned_expr_bind with (p := p) in E.
  destruct (unwind minlen below es' vars); cbn [flow_go] in *; congruence.
Qed.

Lemma owned_drain os vars p : forall es,
  flow_go (fun es' => owned_list es' p = owned_list es p) (drain os es vars).
Proof.
  induction os as [|str below IH]; intros es; cbn [drain]; [reflexivity|].
  destruct (String.eqb str "(" || String.eqb str ")"); [exact I|].
  destruct (expr_bind str es) as [es'|] eqn:E; [|exact I].
  specialize (IH es'). apply owned_expr_bind with (p := p) in E.
  destruct (drain below es' vars); cbn [flow_go] in *; congruence.
Qed.

Lemma owned_push_operator tok op vars p : forall os es as_,
  flow_go
    (fun r =>
       (owned_list (fst (fst r)) p
        + list_sum (map (fun a => owned_list (arg_args a) p) (snd r)))%nat
       = (owned_list es p
          + list_sum (map (fun a => owned_list (arg_args a) p) as_))%nat)
    (push_operator tok op os es as_ vars).
Proof.
  induction os as [|o2 below IH]; intros es as_; cbn [push_operator];
    [reflexivity|].
  destruct (String.eqb tok "," && String.eqb o2 "{").
  - destruct es as [|e es']; [exact I|]. cbn [stack_pop or_undef flow_bind].
    destruct as_ as [|frame as']; [exact I|].
    cbn [stack_pop or_undef flow_bind flow_go fst snd stack_push map
         list_sum fold_right arg_args].
    unfold vec_push. rewrite owned_list_app, !owned_list_cons.
    change (owned_list [] p) with 0%nat. lia.
  - destruct (negb (negb (expr_type_eqb (expr_op o2 (-1)) OP_UNKNOWN)
                    && expr_prec op (expr_op o2 (-1))));
      [reflexivity|].
    destruct (expr_bind o2 es) as [es'|] eqn:E; [|exact I].
    specialize (IH es' as_). apply owned_expr_bind with (p := p) in E.
    destruct (push_operator tok op below es' as_ vars); cbn [flow_go] in *;
      auto. lia.
Qed.

Lemma flow_go_bind {A B : Type} (P : A -> Prop) (Q : B -> Prop)
    (m : flow A) (k : A -> flow B) :
  flow_go P m -> (forall a, P a -> flow_go Q (k a)) ->
  flow_go Q (flow_bind m k).
Proof. destruct m; cbn [flow_go flow_bind]; auto. Qed.

Lemma list_sum_snoc (l : list nat) (n : nat) :
  list_sum (l ++ [n]) = (list_sum l + n)%nat.
Proof. rewrite list_sum_app. cbn. lia. Qed.

Lemma owns_close_call funcs str arg w :
  (forall p, (owned_work w p + owned_list (arg_args arg) p
              <= if Nat.ltb p (w_heap w) then 1 else 0)%nat) ->
  flow_go owns_once (close_call funcs str arg w).
Proof.
  intros Hw. unfold close_call.
  assert (Hpop : forall p,
            (owned_list
               (fst (if Nat.ltb (eslen arg) (List.length (w_es w)) then
                       match stack_pop (w_es w) with
                       | Some (e, es') => (vec_push (arg_args arg) e, es')
                       | None => (arg_args arg, w_es w)
                       end
                     else (arg_args arg, w_es w))) p
             + owned_list
                 (snd (if Nat.ltb (eslen arg) (List.length (w_es w)) then
                         match stack_pop (w_es w) with
                         | Some (e, es') => (vec_push (arg_args arg) e, es')
                         | None => (arg_args arg, w_es w)
                         end
                       else (arg_args arg, w_es w))) p)%nat
            = (owned_list (arg_args arg) p + owned_list (w_es w) p)%nat).
  { intros p.
    destruct (Nat.ltb (eslen arg) (List.length (w_es w))); [|reflexivity].
    destruct (w_es w) as [|e es']; [reflexivity|]. cbn [stack_pop fst snd].
    unfold vec_push. rewrite owned_list_app, !owned_list_cons.
    change (owned_list [] p) with 0%nat. lia. }
  destruct (if Nat.ltb (eslen arg) (List.length (w_es w)) then _ else _)
    as [args es]. cbn [fst snd] in Hpop.
  assert (Hsum : forall p,
            (owned_list args p + owned_list es p
             + list_sum (map (fun a => owned_list (arg_args a) p) (w_as w))
             + list_sum (map (fun m => owned_list (macro_body m) p)
                           (w_macros w))
             <= if Nat.ltb p (w_heap w) then 1 else 0)%nat).
  { intros p. specialize (Hw p). specialize (Hpop p).
    unfold owned_work in Hw. lia. }
  clear Hw Hpop.
  destruct (String.eqb str "$").
  - destruct args as [|u args']; [exact I|].
    destruct u as [t uargs|v|h|f uargs ctx]; try exact I.
    + destruct t; exact I.
    + cbn [flow_go]. intros p. specialize (Hsum p). unfold owned_work.
      cbn [w_es w_as w_macros w_heap]. unfold stack_push.
      rewrite owned_list_cons. change (owned (expr_const zero) p) with 0%nat.
      destruct (var_name_at (w_vars w) h).
      * unfold vec_push. rewrite map_app. cbn [map macro_body].
        rewrite list_sum_snoc. lia.
      * lia.
  - destruct (macro_find (w_macros w) str) as [m|].
    + apply flow_go_bind with
        (P := fun r : list expr * expr_var_list =>
                forall p, owned_list (fst r) p = owned_list args p);
        [apply owned_macro_params|].
      intros [assigns vars] Hassigns. cbn [fst] in Hassigns.
      pose proof (owned_macro_tail (List.tl (macro_body m)) (w_heap w))
        as Htail.
      destruct (macro_tail (List.tl (macro_body m)) (w_heap w))
        as [tail heap]. cbn [fst snd] in Htail. cbn [flow_go].
      intros p. specialize (Hsum p). destruct (Htail p) as [Hle Hown].
      unfold owned_work.
      cbn [w_es w_as w_macros w_heap]. unfold stack_push.
      rewrite owned_list_cons, owned_macro_root, Hassigns, Hown.
      destruct (Nat.leb_spec (w_heap w) p), (Nat.ltb_spec p heap),
        (Nat.ltb_spec p (w_heap w)); cbn [andb]; lia.
    + destruct (expr_func funcs str) as [f|]; [|exact I].
      cbn [or_undef flow_bind].
      destruct (Nat.ltb 0 (func_ctxsz f)); cbn [flow_go]; intros p;
        specialize (Hsum p); unfold owned_work;
        cbn [w_es w_as w_macros w_heap]; unfold stack_push;
        rewrite owned_list_cons, owned_func.
      * destruct (Nat.eqb_spec (w_heap w) p), (Nat.ltb_spec p (w_heap w)),
          (Nat.ltb_spec p (S (w_heap w))); lia.
      * lia.
Qed.

Lemma owns_close_paren funcs w :
  owns_once w -> flow_go owns_once (close_paren funcs w).
Proof.
  intros Hw. unfold close_paren.
  apply flow_go_bind with
    (P := fun r : list expr * list string =>
            forall p, owned_list (fst r) p = owned_list (w_es w) p).
  { pose proof (fun p => owned_unwind
                  match stack_peek (w_as w) with
                  | Some a => oslen a
                  | None => 0%nat
                  end (w_os w) (w_vars w) p (w_es w)) as Hu.
    destruct (unwind _ (w_os w) (w_es w) (w_vars w)); cbn [flow_go] in *;
      auto. }
  intros [es os] Hes. cbn [fst] in Hes.
  destruct (stack_pop os) as [[str os1]|]; [|exact I].
  destruct (String.eqb str "{").
  - destruct (stack_pop os1) as [[name os2]|]; [|exact I].
    cbn [or_undef flow_bind].
    destruct (w_as w) as [|arg as1] eqn:Eas; [exact I|].
    cbn [stack_pop or_undef flow_bind]. apply owns_close_call.
    intros p. specialize (Hw p). specialize (Hes p).
    unfold owned_work in *. rewrite Eas in Hw.
    cbn [w_es w_as w_macros w_heap map] in *. unfold list_sum in *.
    cbn [fold_right] in *. lia.
  - cbn [flow_go]. intros p. specialize (Hw p). specialize (Hes p).
    unfold owned_work in *. cbn [w_es w_as w_macros w_heap]. lia.
Qed.

Lemma owns_resolve_word funcs tok id paren w :
  owns_once w ->
  flow_go (fun r => owns_once (snd r)) (resolve_word funcs tok id paren w).
Proof.
  intros Hw. unfold resolve_word.
  destruct (Nat.ltb 0 (String.length id)); [|exact Hw].
  destruct (String.eqb tok "(").
  - destruct (String.eqb id "$"
              || existsb (fun m => String.eqb (macro_name m) id) (w_macros w)
              || match expr_func funcs id with
                 | Some _ => true
                 | None => false
                 end); [|exact I].
    exact Hw.
  - destruct (expr_var (w_vars w) id) as [[v|] vars]; cbn [flow_go snd];
      [|exact Hw].
    intros p. specialize (Hw p). unfold owned_work in *.
    cbn [w_es w_as w_macros w_heap]. unfold stack_push.
    rewrite owned_list_cons. change (owned (expr_varref v) p) with 0%nat.
    lia.
Qed.

Lemma owns_dispatch funcs tok paren w :
  owns_once w ->
  flow_go (fun r => owns_once (snd r)) (dispatch funcs tok paren w).
Proof.
  intros Hw. unfold dispatch.
  destruct (String.eqb tok "(").
  - destruct paren; cbn [flow_go snd]; try exact I; [exact Hw|].
    intros p. specialize (Hw p). unfold owned_work in *.
    cbn [w_es w_as w_macros w_heap map arg_args]. unfold stack_push.
    cbn [map arg_args]. unfold list_sum in *. cbn [fold_right].
    change (owned_list [] p) with 0%nat. lia.
  - assert (Hrest :
      flow_go
        (fun r : string * paren_state * work => owns_once (snd r))
        (if String.eqb tok ")" then
           w' <~ close_paren funcs w ;;
           Go (EmptyString, EXPR_PAREN_FORBIDDEN, w')
         else
           let num := expr_parse_number tok in
           if negb (isnan num) then
             Go (EmptyString, EXPR_PAREN_FORBIDDEN,
                 mk_work (stack_push (w_es w) (expr_const num)) (w_os w)
                   (w_as w) (w_macros w) (w_vars w) (w_heap w))
           else if negb (expr_type_eqb (expr_op tok (-1)) OP_UNKNOWN) then
             ' (es, os, as_) <~
               push_operator tok (expr_op tok (-1)) (w_os w) (w_es w)
                 (w_as w) (w_vars w) ;;
             Go (EmptyString, EXPR_PAREN_ALLOWED,
                 mk_work es os as_ (w_macros w) (w_vars w) (w_heap w))
           else if Nat.ltb 0 (String.length tok)
                   && negb (match tok with
                            | String c _ => Chr.isdigit c
                            | EmptyString => false
                            end)
           then Go (tok, EXPR_PAREN_ALLOWED, w)
           else Cleanup (w_vars w))).
    { destruct (String.eqb tok ")").
      - eapply flow_go_bind; [now apply owns_close_paren|].
        intros w' Hw'. exact Hw'.
      - cbv zeta. destruct (negb (isnan (expr_parse_number tok))).
        + cbn [flow_go snd]. intros p. specialize (Hw p).
          unfold owned_work in *. cbn [w_es w_as w_macros w_heap].
          unfold stack_push. rewrite owned_list_cons.
          change (owned (expr_const (expr_parse_number tok)) p) with 0%nat.
          lia.
        + destruct (negb (expr_type_eqb (expr_op tok (-1)) OP_UNKNOWN)).
          * apply flow_go_bind with
              (P := fun r : list expr * list string * list expr_arg =>
                 forall p,
                   (owned_list (fst (fst r)) p
                    + list_sum (map (fun a => owned_list (arg_args a) p)
                                  (snd r)))%nat
                   = (owned_list (w_es w) p
                      + list_sum (map (fun a => owned_list (arg_args a) p)
                                    (w_as w)))%nat).
            { pose proof (fun p => owned_push_operator tok
                            (expr_op tok (-1)) (w_vars w) p (w_os w) (w_es w)
                            (w_as w)) as Hp.
              destruct (push_operator tok _ (w_os w) (w_es w) (w_as w)
                          (w_vars w)); cbn [flow_go] in *; auto. }
            intros [[es os] as_] Hsum. cbn [fst snd] in Hsum.
            cbn [flow_go snd]. intros p. specialize (Hw p).
            specialize (Hsum p). unfold owned_work in *.
            cbn [w_es w_as w_macros w_heap]. lia.
          * destruct (Nat.ltb 0 (String.length tok) && _);
              [exact Hw | exact I]. }
    destruct paren; [exact Hrest | exact I | exact Hrest].
Qed.

Lemma owns_turn_of funcs p :
  owns_once (p_work p) ->
  flow_go
    (fun t => match t with
              | Continue p' | Break p' => owns_once (p_work p')
              end)
    (turn_of funcs p).
Proof.
  intros Hw. unfold turn_of.
  destruct (expr_next_token (p_src p) (p_flags p)) as [n flags].
  destruct (n =? 0); [exact Hw|].
  destruct (n <? 0); [exact I|].
  destruct (starts_with "#" _); [exact Hw|].
  destruct (unary_rewrite _ flags) as [tok1|]; [|exact I].
  destruct (newline_comma tok1 flags) as [tok2 flags2].
  destruct (match tok2 with String c _ => Chr.isspace c | _ => false end);
    [exact Hw|].
  eapply flow_go_bind; [now apply owns_resolve_word|].
  intros [paren w] Hw'. cbn [snd] in Hw'.
  eapply flow_go_bind; [now apply owns_dispatch|].
  intros [[id paren_next] w'] Hw''. exact Hw''.
Qed.

Lemma owns_main_loop funcs fuel : forall p r,
  owns_once (p_work p) ->
  main_loop funcs fuel p = Some r ->
  flow_go (fun p' => owns_once (p_work p')) r.
Proof.
  induction fuel as [|fuel IH]; intros p r Hw; cbn [main_loop];
    [discriminate|].
  pose proof (owns_turn_of funcs p Hw) as Ht.
  destruct (turn_of funcs p) as [[p'|p']| |]; cbn [flow_go] in Ht.
  - now apply IH.
  - intros [= <-]. exact Ht.
  - intros [= <-]. exact I.
  - intros [= <-]. exact I.
Qed.

Lemma owns_finish p :
  owns_once (p_work p) ->
  flow_go
    (fun c => match c_result c with
              | Some e => forall q, (owned e q <= 1)%nat
              | None => True
              end)
    (finish p).
Proof.
  intros Hw. unfold finish.
  apply flow_go_bind with
    (P := fun r : list expr * expr_var_list =>
            forall q, (owned_list (fst r) q <= 1)%nat).
  - assert (Hes : forall q, (owned_list (w_es (p_work p)) q <= 1)%nat).
    { intros q. specialize (Hw q). unfold owned_work in Hw.
      destruct (Nat.ltb q (w_heap (p_work p))); lia. }
    destruct (Nat.ltb 0 (String.length (p_id p))); [|exact Hes].
    destruct (expr_var (w_vars (p_work p)) (p_id p)) as [[v|] vars];
      [|exact I].
    cbn [flow_go fst]. intros q. unfold stack_push.
    rewrite owned_list_cons. change (owned (expr_varref v) q) with 0%nat.
    specialize (Hes q). lia.
  - intros [es vars] Hes. cbn [fst] in Hes.
    apply flow_go_bind with
      (P := fun es' : list expr => forall q, (owned_list es' q <= 1)%nat).
    + pose proof (fun q => owned_drain (w_os (p_work p)) vars q es) as Hd.
      destruct (drain (w_os (p_work p)) es vars) as [es'| |];
        cbn [flow_go] in *; auto.
      intros q. rewrite Hd. apply Hes.
    + intros es' Hes'. destruct es' as [|e rest];
        cbn [stack_pop flow_go c_result].
      * intros q. cbn. lia.
      * intros q. specialize (Hes' q). rewrite owned_list_cons in Hes'. lia.
Qed.

(** X21. No context block is shared: in a tree that [expr_create]
    returns, the blocks that [expr_destroy_args] frees are pairwise
    distinct, so that no block is freed twice; this holds across macro
    expansions, where [expr_copy] gives every copied call a block of
    its own. *)
Theorem compiled_contexts_distinct (s : string) (vars : expr_var_list)
    (funcs : list expr_func_desc) (c : compiled) (e : expr)
    (Hc : expr_create s vars funcs = Some c)
    (He : c_result c = Some e) :
  NoDup (expr_destroy_args e).
Proof.
  apply (proj2 (NoDup_count_occ Nat.eq_dec (expr_destroy_args e))).
  revert Hc. unfold expr_create.
  destruct (main_loop funcs (S (String.length s)) _) as [r|] eqn:Eloop;
    [|discriminate].
  assert (Hstart : owns_once (mk_work [] [] [] [] vars 0)).
  { intros p. cbn. lia. }
  pose proof (owns_main_loop funcs _
                (mk_parser s EXPR_TDEFAULT EXPR_PAREN_ALLOWED EmptyString
                   (mk_work [] [] [] [] vars 0))
                r Hstart Eloop) as Hr.
  assert (Hfin : flow_go
            (fun c => match c_result c with
                      | Some e => forall q, (owned e q <= 1)%nat
                      | None => True
                      end)
            (flow_bind r finish)).
  { eapply flow_go_bind; [exact Hr|]. intros p'. apply owns_finish. }
  destruct (flow_bind r finish) as [c'|vars'|]; cbn [flow_go] in Hfin.
  - intros [= <-]. rewrite He in Hfin. exact Hfin.
  - intros [= <-]. discriminate He.
  - discriminate.
Qed.

Lemma compiled_contexts_distinct_witness :
  exists c e,
    expr_create "$(twice, acc($1) + acc($1)), twice(1) + twice(2)" []
      [fn_acc] = Some c
    /\ c_result c = Some e
    /\ List.length (expr_destroy_args e) = 4%nat
    /\ NoDup (expr_destroy_args e).
Proof.
  destruct (expr_create "$(twice, acc($1) + acc($1)), twice(1) + twice(2)"
              [] [fn_acc]) as [c|] eqn:Hc; [|vm_compute in Hc; discriminate Hc].
  destruct (c_result c) as [e|] eqn:He.
  - exists c, e. split; [reflexivity|]. split; [exact He|].
    split; [|exact (compiled_contexts_distinct _ _ _ c e Hc He)].
    vm_compute in Hc. injection Hc as <-. injection He as <-. reflexivity.
  - vm_compute in Hc. injection Hc as <-. discriminate He.
Defined.

(** ** Distinct cells *)

Lemma var_read_addr vars h :
  In h (map var_addr vars) -> var_read vars h <> None.
Proof.
  induction vars as [|v rest IH]; cbn [map In var_read]; [tauto|].
  intros [<-|Hin].
  - rewrite Nat.eqb_refl. discriminate.
  - destruct (Nat.eqb (var_addr v) h); [discriminate | auto].
Qed.

Lemma var_find_none vars s :
  var_find vars s = None -> ~ In s (map var_name vars).
Proof.
  induction vars as [|v rest IH]; cbn [map In var_find]; [tauto|].
  destruct (String.eqb (var_name v) s) eqn:E; [discriminate|].
  apply String.eqb_neq in E. intros Hnone [Heq|Hin]; [congruence|].
  now apply IH.
Qed.

Lemma expr_var_distinct vars s :
  zero_free s -> cells_distinct vars ->
  cells_distinct (snd (expr_var vars s)).
Proof.
  intros Hs [Ha Hn]. unfold expr_var. destruct s as [|c r]; [now split|].
  destruct (negb (Chr.isfirstvarchr c)); [now split|].
  destruct (var_find vars (String c r)) as [h|] eqn:Efind; [now split|].
  cbn [snd]. unfold zero_free in Hs. rewrite Hs.
  split; cbn [map var_addr var_name]; constructor; auto.
  - intros Hin. apply var_read_addr in Hin. apply Hin, var_fresh_dead.
  - now apply var_find_none.
Qed.

(** *** The words of a source hold no zero byte *)

Lemma varchr_zero_free s : all_chars Chr.isvarchr s = true -> zero_free s.
Proof.
  unfold zero_free. induction s as [|c r IH]; cbn [all_chars c_str];
    [reflexivity|].
  intros H. apply andb_true_iff in H as [Hc Hr].
  destruct (Ascii.eqb c Ascii.zero) eqn:E.
  - apply Ascii.eqb_eq in E. subst c. discriminate Hc.
  - now rewrite IH.
Qed.

Lemma macro_varname_zero_free k : zero_free (macro_varname k).
Proof.
  pose proof (proj2 (leading_digit_small k k) (Nat.le_refl k)) as Hd.
  unfold macro_varname. remember (leading_digit k k) as d eqn:Ed. clear Ed.
  do 10 (destruct d as [|d]; [reflexivity|]). lia.
Qed.

Lemma lex_class_tests (c : ascii) :
  match lex_class_of c with
  | L_comment => Ascii.eqb c "#" = true
  | L_newline | L_space => Chr.isspace c = true
  | L_digit => Chr.isdigit c = true
  | L_word => True
  | L_open => c = "("%char
  | L_close => c = ")"%char
  | L_operator => is_operator_start c = true
  end.
Proof. each_byte c; vm_compute; auto. Qed.

Lemma expr_op_known_any (s : string) (unary : Z) :
  expr_op s unary <> OP_UNKNOWN -> expr_op s (-1) <> OP_UNKNOWN.
Proof.
  intros Hk Hu. unfold expr_op in *.
  destruct (expr_op_from_in OPS s unary) as [H|[Hin _]]; [contradiction|].
  assert (Hall : Forall (fun entry : string * expr_type =>
                           snd entry <> OP_UNKNOWN) OPS).
  { eapply Forall_impl; [|exact OPS_arities]. intros entry [H _]. exact H. }
  exact (expr_op_from_unknown OPS s Hu Hall _ Hin eq_refl).
Qed.

Lemma unary_rewrite_cases tok flags tok1 :
  unary_rewrite tok flags = Some tok1 ->
  tok1 = tok \/ expr_op tok1 (-1) <> OP_UNKNOWN.
Proof.
  unfold unary_rewrite.
  destruct (has_flag flags EXPR_UNARY && Nat.eqb (String.length tok) 1);
    [|intros [= <-]; now left].
  destruct (starts_with "-" tok); [intros [= <-]; right; discriminate|].
  destruct (starts_with "^" tok); [intros [= <-]; right; discriminate|].
  destruct (starts_with "!" tok); [intros [= <-]; right; discriminate|].
  discriminate.
Qed.

Lemma newline_comma_cases tok1 flags :
  fst (newline_comma tok1 flags) = tok1
  \/ expr_op (fst (newline_comma tok1 flags)) (-1) <> OP_UNKNOWN.
Proof.
  unfold newline_comma.
  destruct (starts_with Chr.newline tok1 && has_flag flags EXPR_COMMA);
    [right; discriminate | now left].
Qed.

(** A token that is neither a comment, a blank, a paren, a number nor
    an operator is a run of bytes of a word. *)
Lemma word_token_varchr (src : string) (flags : Z) (tok1 : string) :
  0 < fst (expr_next_token src flags) ->
  starts_with "#" (take (Z.to_nat (fst (expr_next_token src flags))) src)
  = false ->
  unary_rewrite (take (Z.to_nat (fst (expr_next_token src flags))) src)
    (snd (expr_next_token src flags)) = Some tok1 ->
  match fst (newline_comma tok1 (snd (expr_next_token src flags))) with
  | String c _ => Chr.isspace c
  | EmptyString => false
  end = false ->
  String.eqb (fst (newline_comma tok1 (snd (expr_next_token src flags)))) "("
  = false ->
  String.eqb (fst (newline_comma tok1 (snd (expr_next_token src flags)))) ")"
  = false ->
  expr_op (fst (newline_comma tok1 (snd (expr_next_token src flags)))) (-1)
  = OP_UNKNOWN ->
  match fst (newline_comma tok1 (snd (expr_next_token src flags))) with
  | String c _ => Chr.isdigit c
  | EmptyString => false
  end = false ->
  all_chars Chr.isvarchr
    (fst (newline_comma tok1 (snd (expr_next_token src flags)))) = true.
Proof.
  intros Hpos Hcomment Hun.
  destruct (newline_comma_cases tok1 (snd (expr_next_token src flags)))
    as [-> | Hk]; [|intros _ _ _ Hu; contradiction].
  destruct (unary_rewrite_cases _ _ _ Hun) as [-> | Hk];
    [|intros _ _ _ Hu; contradiction].
  clear Hun. destruct src as [|c rest]; [cbn in Hpos; lia|].
  pose proof (next_token_by_class c rest flags) as Hn. cbv zeta in Hn.
  pose proof (lex_class_tests c) as Hc.
  set (s := String c rest) in *.
  set (n := fst (expr_next_token s flags)) in *.
  assert (Htake : take (Z.to_nat n) s = String c (take (Z.to_nat n - 1) rest)).
  { apply take_head. lia. }
  rewrite Htake in *. cbn [starts_with] in Hcomment.
  intros Hspace Hopen Hclose Hop Hdigit.
  rewrite <- Htake in *. clear Htake.
  destruct (lex_class_of c).
  - congruence.
  - congruence.
  - congruence.
  - congruence.
  - destruct (has_flag flags EXPR_TWORD); [|lia].
    rewrite Hn, Nat2Z.id. apply span_take_all.
  - subst c. destruct (has_flag flags EXPR_TOPEN); [|lia].
    rewrite Hn in Hopen. discriminate Hopen.
  - subst c. destruct (has_flag flags EXPR_TCLOSE); [|lia].
    rewrite Hn in Hclose. discriminate Hclose.
  - exfalso. destruct (has_flag flags EXPR_TOP).
    + destruct (snd (operator_scan s s 0 false)) eqn:Efound; [|lia].
      destruct (operator_scan_known s s 0 false ltac:(discriminate) Efound)
        as [Hknown _].
      rewrite Hn, Nat2Z.id in Hop.
      exact (expr_op_known_any _ 0 Hknown Hop).
    + destruct (expr_type_eqb (expr_op (String c EmptyString) 1) OP_UNKNOWN)
        eqn:Eun; [lia|].
      rewrite Hn in Hop. change (take (Z.to_nat 1) s) with (String c EmptyString)
        in Hop.
      apply (expr_op_known_any (String c EmptyString) 1); [|exact Hop].
      intros Hu. rewrite Hu in Eun. discriminate Eun.
Qed.

(** *** The compiler keeps the cells apart *)

Lemma flow_vars_bind {A B : Type} (P : A -> Prop) (Q : B -> Prop)
    (R : expr_var_list -> Prop) (m : flow A) (k : A -> flow B) :
  flow_vars P R m -> (forall a, P a -> flow_vars Q R (k a)) ->
  flow_vars Q R (flow_bind m k).
Proof. destruct m; cbn [flow_vars flow_bind]; auto. Qed.

Lemma distinct_macro_params args : forall j vars,
  cells_distinct vars ->
  flow_vars (fun r => cells_distinct (snd r)) cells_distinct
    (macro_params args j vars).
Proof.
  induction args as [|actual rest IH]; intros j vars Hd; cbn [macro_params];
    [exact Hd|].
  pose proof (expr_var_distinct vars (macro_varname (S j))
                (macro_varname_zero_free (S j)) Hd) as Hd1.
  destruct (expr_var vars (macro_varname (S j))) as [[h|] vars1];
    [|exact I].
  cbn [or_undef flow_bind snd] in *. specialize (IH (S j) vars1 Hd1).
  destruct (macro_params rest (S j) vars1) as [[assigns vars2]| |];
    cbn [flow_bind flow_vars snd] in *; auto.
Qed.

Lemma distinct_unwind minlen vars (Q : list expr * list string -> Prop) :
  cells_distinct vars -> (forall r, Q r) ->
  forall os es, flow_vars Q cells_distinct (unwind minlen os es vars).
Proof.
  intros Hd HQ. induction os as [|str below IH]; intros es; cbn [unwind];
    [apply HQ|].
  destruct (Nat.ltb minlen (List.length (str :: below))
            && negb (starts_with "(" str) && negb (starts_with "{" str));
    [|apply HQ].
  destruct (expr_bind str es) as [es'|]; [apply IH | exact Hd].
Qed.

Lemma distinct_push_operator tok op vars
    (Q : list expr * list string * list expr_arg -> Prop) :
  cells_distinct vars -> (forall r, Q r) ->
  forall os es as_,
    flow_vars Q cells_distinct (push_operator tok op os es as_ vars).
Proof.
  intros Hd HQ. induction os as [|o2 below IH]; intros es as_;
    cbn [push_operator]; [apply HQ|].
  destruct (String.eqb tok "," && String.eqb o2 "{").
  - destruct es as [|e es']; [exact I|]. cbn [stack_pop or_undef flow_bind].
    destruct as_ as [|frame as']; [exact I|]. apply HQ.
  - destruct (negb (negb (expr_type_eqb (expr_op o2 (-1)) OP_UNKNOWN)
                    && expr_prec op (expr_op o2 (-1))));
      [apply HQ|].
    destruct (expr_bind o2 es) as [es'|]; [apply IH | exact Hd].
Qed.

Lemma distinct_drain vars (Q : list expr -> Prop) :
  cells_distinct vars -> (forall r, Q r) ->
  forall os es, flow_vars Q cells_distinct (drain os es vars).
Proof.
  intros Hd HQ. induction os as [|str below IH]; intros es; cbn [drain];
    [apply HQ|].
  destruct (String.eqb str "(" || String.eqb str ")"); [exact Hd|].
  destruct (expr_bind str es) as [es'|]; [apply IH | exact Hd].
Qed.

Lemma distinct_close_call funcs str arg w :
  cells_distinct (w_vars w) ->
  flow_vars (fun w' => cells_distinct (w_vars w')) cells_distinct
    (close_call funcs str arg w).
Proof.
  intros Hd. unfold close_call.
  destruct (if Nat.ltb (eslen arg) (List.length (w_es w)) then _ else _)
    as [args es].
  destruct (String.eqb str "$").
  - destruct args as [|u args']; [exact Hd|].
    destruct u as [t uargs|v|h|f uargs ctx]; try exact Hd.
    destruct t; try exact Hd. exact I.
  - destruct (macro_find (w_macros w) str) as [m|].
    + eapply flow_vars_bind; [now apply distinct_macro_params|].
      intros [assigns vars] Hd'. cbn [snd] in Hd'.
      destruct (macro_tail (List.tl (macro_body m)) (w_heap w))
        as [tail heap]. exact Hd'.
    + destruct (expr_func funcs str) as [f|]; [|exact I].
      cbn [or_undef flow_bind].
      destruct (Nat.ltb 0 (func_ctxsz f)); exact Hd.
Qed.

Lemma distinct_close_paren funcs w :
  cells_distinct (w_vars w) ->
  flow_vars (fun w' => cells_distinct (w_vars w')) cells_distinct
    (close_paren funcs w).
Proof.
  intros Hd. unfold close_paren.
  apply flow_vars_bind with (P := fun _ => True);
    [now apply distinct_unwind|].
  intros [es os] _.
  destruct (stack_pop os) as [[str os1]|]; [|exact Hd].
  destruct (String.eqb str "{"); [|exact Hd].
  destruct (stack_pop os1) as [[name os2]|]; [|exact I].
  cbn [or_undef flow_bind].
  destruct (stack_pop (w_as w)) as [[arg as1]|]; [|exact I].
  cbn [or_undef flow_bind]. now apply distinct_close_call.
Qed.

Lemma distinct_resolve_word funcs tok id paren w :
  zero_free id -> cells_distinct (w_vars w) ->
  flow_vars (fun r => cells_distinct (w_vars (snd r))) cells_distinct
    (resolve_word funcs tok id paren w).
Proof.
  intros Hid Hd. unfold resolve_word.
  destruct (Nat.ltb 0 (String.length id)); [|exact Hd].
  destruct (String.eqb tok "(").
  - destruct (String.eqb id "$"
              || existsb (fun m => String.eqb (macro_name m) id) (w_macros w)
              || match expr_func funcs id with
                 | Some _ => true
                 | None => false
                 end); exact Hd.
  - pose proof (expr_var_distinct (w_vars w) id Hid Hd) as Hd1.
    destruct (expr_var (w_vars w) id) as [[v|] vars]; exact Hd1.
Qed.

(** The word [dispatch] buffers is the token itself, and then the
    token is neither a paren, a number nor an operator. *)
Lemma distinct_dispatch funcs tok paren w :
  cells_distinct (w_vars w) ->
  flow_vars
    (fun r => cells_distinct (w_vars (snd r))
              /\ (fst (fst r) = EmptyString
                  \/ (fst (fst r) = tok
                      /\ String.eqb tok "(" = false
                      /\ String.eqb tok ")" = false
                      /\ expr_op tok (-1) = OP_UNKNOWN
                      /\ match tok with
                         | String c _ => Chr.isdigit c
                         | EmptyString => false
                         end = false)))
    cells_distinct (dispatch funcs tok paren w).
Proof.
  intros Hd. unfold dispatch.
  destruct (String.eqb tok "(") eqn:Eopen;
    [destruct paren; cbn [flow_vars fst snd]; auto|].
  assert (Hrest :
    flow_vars
      (fun r : string * paren_state * work =>
         cells_distinct (w_vars (snd r))
         /\ (fst (fst r) = EmptyString
             \/ (fst (fst r) = tok
                 /\ false = false
                 /\ String.eqb tok ")" = false
                 /\ expr_op tok (-1) = OP_UNKNOWN
                 /\ match tok with
                    | String c _ => Chr.isdigit c
                    | EmptyString => false
                    end = false)))
      cells_distinct
      (if String.eqb tok ")" then
         w' <~ close_paren funcs w ;;
         Go (EmptyString, EXPR_PAREN_FORBIDDEN, w')
       else
         let num := expr_parse_number tok in
         if negb (isnan num) then
           Go (EmptyString, EXPR_PAREN_FORBIDDEN,
               mk_work (stack_push (w_es w) (expr_const num)) (w_os w)
                 (w_as w) (w_macros w) (w_vars w) (w_heap w))
         else if negb (expr_type_eqb (expr_op tok (-1)) OP_UNKNOWN) then
           ' (es, os, as_) <~
             push_operator tok (expr_op tok (-1)) (w_os w) (w_es w)
               (w_as w) (w_vars w) ;;
           Go (EmptyString, EXPR_PAREN_ALLOWED,
               mk_work es os as_ (w_macros w) (w_vars w) (w_heap w))
         else if Nat.ltb 0 (String.length tok)
                 && negb (match tok with
                          | String c _ => Chr.isdigit c
                          | EmptyString => false
                          end)
         then Go (tok, EXPR_PAREN_ALLOWED, w)
         else Cleanup (w_vars w))).
  { destruct (String.eqb tok ")") eqn:Eclose.
    - eapply flow_vars_bind; [now apply distinct_close_paren|].
      intros w' Hw'. cbn [flow_vars fst snd]. auto.
    - cbv zeta. destruct (negb (isnan (expr_parse_number tok)));
        [cbn [flow_vars fst snd]; auto|].
      destruct (expr_type_eqb (expr_op tok (-1)) OP_UNKNOWN) eqn:Eop;
        cbn [negb].
      + destruct (Nat.ltb 0 (String.length tok)); cbn [andb];
          [|exact Hd].
        destruct (match tok with
                  | String c _ => Chr.isdigit c
                  | EmptyString => false
                  end) eqn:Edigit; cbn [negb]; [exact Hd|].
        cbn [flow_vars fst snd]. split; [exact Hd|]. right.
        repeat split; auto.
        destruct (expr_op tok (-1)); try discriminate Eop; reflexivity.
      + apply flow_vars_bind with (P := fun _ => True);
          [now apply distinct_push_operator|].
        intros [[es os] as_] _. cbn [flow_vars fst snd]. auto. }
  destruct paren; [exact Hrest | exact Hd | exact Hrest].
Qed.

Lemma distinct_turn_of funcs p :
  cells_distinct (w_vars (p_work p)) -> zero_free (p_id p) ->
  flow_vars
    (fun t => match t with
              | Continue p' | Break p' =>
                  cells_distinct (w_vars (p_work p')) /\ zero_free (p_id p')
              end)
    cells_distinct (turn_of funcs p).
Proof.
  intros Hd Hid. unfold turn_of.
  pose proof (word_token_varchr (p_src p) (p_flags p)) as Hword.
  destruct (expr_next_token (p_src p) (p_flags p)) as [n flags].
  cbn [fst snd] in Hword.
  destruct (n =? 0) eqn:Ezero; [now split|]. apply Z.eqb_neq in Ezero.
  destruct (n <? 0) eqn:Eneg; [exact Hd|]. apply Z.ltb_ge in Eneg.
  destruct (starts_with "#" _) eqn:Ecomment; [now split|].
  destruct (unary_rewrite _ flags) as [tok1|] eqn:Eun; [|exact Hd].
  specialize (Hword tok1).
  destruct (newline_comma tok1 flags) as [tok2 flags2]. cbn [fst] in Hword.
  destruct (match tok2 with String c _ => Chr.isspace c | _ => false end)
    eqn:Espace; [now split|].
  eapply flow_vars_bind; [now apply distinct_resolve_word|].
  intros [paren w] Hw. cbn [snd] in Hw.
  eapply flow_vars_bind; [now apply distinct_dispatch|].
  intros [[id paren_next] w'] [Hw' Hid']. cbn [fst snd] in *.
  cbn [flow_vars p_work p_id]. split; [exact Hw'|].
  destruct Hid' as [-> | (-> & Hopen & Hclose & Hop & Hdigit)];
    [reflexivity|].
  apply varchr_zero_free, Hword; auto. lia.
Qed.

Lemma distinct_main_loop funcs fuel : forall p r,
  cells_distinct (w_vars (p_work p)) -> zero_free (p_id p) ->
  main_loop funcs fuel p = Some r ->
  flow_vars
    (fun p' => cells_distinct (w_vars (p_work p')) /\ zero_free (p_id p'))
    cells_distinct r.
Proof.
  induction fuel as [|fuel IH]; intros p r Hd Hid; cbn [main_loop];
    [discriminate|].
  pose proof (distinct_turn_of funcs p Hd Hid) as Ht.
  destruct (turn_of funcs p) as [[p'|p']| |]; cbn [flow_vars] in Ht.
  - destruct Ht as [Hd' Hid']. now apply IH.
  - intros [= <-]. exact Ht.
  - intros [= <-]. exact Ht.
  - intros [= <-]. exact I.
Qed.

Lemma distinct_finish p :
  cells_distinct (w_vars (p_work p)) -> zero_free (p_id p) ->
  flow_vars (fun c => cells_distinct (c_vars c)) cells_distinct (finish p).
Proof.
  intros Hd Hid. unfold finish.
  apply flow_vars_bind with
    (P := fun r : list expr * expr_var_list => cells_distinct (snd r)).
  - destruct (Nat.ltb 0 (String.length (p_id p))); [|exact Hd].
    pose proof (expr_var_distinct (w_vars (p_work p)) (p_id p) Hid Hd) as Hd1.
    destruct (expr_var (w_vars (p_work p)) (p_id p)) as [[v|] vars];
      [exact Hd1 | exact I].
  - intros [es vars] Hd'. cbn [snd] in Hd'.
    apply flow_vars_bind with (P := fun _ => True);
      [now apply distinct_drain|].
    intros es' _. destruct (stack_pop es') as [[e rest]|]; exact Hd'.
Qed.

(** X22. No cell is freed twice.  On every source on which
    [expr_create] has defined behaviour (the result is not [None]; a
    source like ["acc((),1)"], which pops the empty stack of operands,
    is not covered), whether a tree or [NULL] is returned: when the
    caller's cells have distinct addresses and distinct names, so have
    the cells of the list that [expr_create] leaves, and the addresses
    that [expr_destroy] then hands to [free] are pairwise distinct. *)
Theorem expr_create_cells_distinct (s : string) (vars : expr_var_list)
    (funcs : list expr_func_desc) (c : compiled)
    (Hc : expr_create s vars funcs = Some c)
    (Hd : cells_distinct vars) :
  cells_distinct (c_vars c)
  /\ NoDup (snd (expr_destroy (c_result c) (Some (c_vars c)))).
Proof.
  assert (Hgoal : cells_distinct (c_vars c)).
  { revert Hc. unfold expr_create.
    destruct (main_loop funcs (S (String.length s)) _) as [r|] eqn:Eloop;
      [|discriminate].
    pose proof (distinct_main_loop funcs _
                  (mk_parser s EXPR_TDEFAULT EXPR_PAREN_ALLOWED EmptyString
                     (mk_work [] [] [] [] vars 0))
                  r Hd eq_refl Eloop) as Hr.
    assert (Hfin : flow_vars (fun c => cells_distinct (c_vars c))
                     cells_distinct (flow_bind r finish)).
    { eapply flow_vars_bind; [exact Hr|].
      intros p' [Hd' Hid']. now apply distinct_finish. }
    destruct (flow_bind r finish) as [c'|vars'|]; cbn [flow_vars] in Hfin.
    - intros [= <-]. exact Hfin.
    - intros [= <-]. exact Hfin.
    - discriminate. }
  split; [exact Hgoal|]. cbn [expr_destroy snd]. exact (proj1 Hgoal).
Qed.

Lemma expr_create_cells_distinct_witness :
  exists c,
    expr_create "$(sq, $1*$1), y = sq(x + z) + )" vars_xy [] = Some c
    /\ c_result c = None
    /\ List.length (c_vars c) = 5%nat
    /\ NoDup (snd (expr_destroy (c_result c) (Some (c_vars c)))).
Proof.
  destruct (expr_create "$(sq, $1*$1), y = sq(x + z) + )" vars_xy [])
    as [c|] eqn:Hc; [|vm_compute in Hc; discriminate Hc].
  assert (Hd : cells_distinct vars_xy).
  { split; cbn; repeat constructor; cbn; intuition (lia || discriminate). }
  exists c. split; [reflexivity|].
  pose proof (proj2 (expr_create_cells_distinct _ _ _ c Hc Hd)) as Hfree.
  vm_compute in Hc. injection Hc as <-.
  split; [reflexivity|]. split; [reflexivity|]. exact Hfree.
Defined.
